(** * gerrit-monitor: the attention-categorisation core of [src/gerrit.js]

    A shallow embedding of the classes [Message], [Changelist], [Revision],
    [Description], [SearchResult] and [SearchResults], and the properties
    of their methods.

    Conventions of the embedding:
    - a JavaScript string is the list of its UTF-16 code units;
    - a JSON number that the code treats as an integer is a [Z], one that
      a double holds; [parseInt] rounds what it reads to a double; [NaN],
      which [parseInt] and an unreadable date produce, is kept apart;
    - an object that the code mutates (the memoising [Changelist]) lives in
      a heap and is named by its address; methods run in a state monad over
      that heap, and a [TypeError] aborts the run;
    - the wall clock read by [new Date()] is part of the world. *)

From Stdlib Require Import ZArith NArith List Ascii String Lia Bool.
From Stdlib Require Import DecimalString.
From stdpp Require Import base option list gmap.

Local Open Scope Z_scope.

(** ** JavaScript strings *)

Abbreviation jsstring := (list N).

(** The code units of an ASCII literal. *)
Definition lit (s : string) : jsstring :=
  map N_of_ascii (list_ascii_of_string s).
Arguments lit s%_string.

(** The line feed, written ['\n'] in the source. *)
Definition LF : N := 10.

Module JS.

(** [a === b] and [a == b] on two strings. *)
Definition str_eq (a b : jsstring) : bool := bool_decide (a = b).

(** [String.prototype.startsWith] with the position left out. *)
Fixpoint startsWith (s searchString : jsstring) {struct searchString}
  : bool :=
  match searchString, s with
  | [], _ => true
  | p :: ps, c :: cs => (c =? p)%N && startsWith cs ps
  | _ :: _, [] => false
  end.

(** [String.prototype.split] with a separator of one code unit: the
    result always has at least one element. *)
Fixpoint split (sep : N) (s : jsstring) : list jsstring :=
  match s with
  | [] => [[]]
  | c :: cs =>
      if (c =? sep)%N then [] :: split sep cs
      else match split sep cs with
           | w :: ws => (c :: w) :: ws
           | [] => [[c]]
           end
  end.

(** [Array.prototype.join] on an array of strings. *)
Fixpoint join (sep : jsstring) (l : list jsstring) : jsstring :=
  match l with
  | [] => []
  | [x] => x
  | x :: xs => x ++ sep ++ join sep xs
  end.

Definition inRange (lo hi c : N) : bool := ((lo <=? c) && (c <=? hi))%N.

(** ECMAScript [LineTerminator]: LF, CR, LS, PS. *)
Definition isLineTerminator (c : N) : bool :=
  ((c =? 10) || (c =? 13) || (c =? 0x2028) || (c =? 0x2029))%N.

(** ECMAScript [WhiteSpace]: TAB, VT, FF, SP, NBSP, ZWNBSP and the
    space separators of Unicode. *)
Definition isWhiteSpace (c : N) : bool :=
  ((c =? 9) || (c =? 11) || (c =? 12) || (c =? 32) || (c =? 0xA0)
   || (c =? 0x1680) || inRange 0x2000 0x200A c || (c =? 0x202F)
   || (c =? 0x205F) || (c =? 0x3000) || (c =? 0xFEFF))%N.

(** The class [\s] of a regular expression, which is also what
    [parseInt] strips in front of its argument. *)
Definition isSpace (c : N) : bool := isWhiteSpace c || isLineTerminator c.

(** The longest prefix of [s] whose code units satisfy [p], and the rest. *)
Fixpoint span (p : N → bool) (s : jsstring) : jsstring * jsstring :=
  match s with
  | [] => ([], [])
  | c :: cs =>
      if p c then let '(a, b) := span p cs in (c :: a, b)
      else ([], s)
  end.

(** The result of [parseInt]: a Number, which is an integer here, or
    [NaN]. [Infinity], which is what digits beyond the doubles give, is
    kept as 2^1024, above every double: the code only compares these
    numbers. *)
Inductive num := NaN | Num (z : Z).

(** The double nearest to the integer [n], which is not negative. A
    double keeps 53 bits; of two doubles that are as near, the one whose
    last bit is 0 is taken. *)
Definition roundTiesToEven (n : Z) : Z :=
  let e := Z.log2 n - 52 in
  if e <=? 0 then n
  else
    let q := Z.shiftr n e in
    let r := Z.land n (Z.ones e) in
    let half := Z.shiftl 1 (e - 1) in
    let q := if (half <? r) || ((r =? half) && Z.odd q) then q + 1 else q in
    Z.shiftl q e.

(** The Number for the integer [n]: the nearest double, and [Infinity]
    when that is beyond the doubles. *)
Definition toNumber (n : Z) : Z :=
  Z.sgn n * Z.min (roundTiesToEven (Z.abs n)) (2 ^ 1024).

Definition digitValue (c : N) : option Z :=
  if inRange 48 57 c then Some (Z.of_N c - 48)
  else if inRange 97 122 c then Some (Z.of_N c - 87)
  else if inRange 65 90 c then Some (Z.of_N c - 55)
  else None.

Definition isDigit (radix : Z) (c : N) : bool :=
  match digitValue c with
  | Some d => d <? radix
  | None => false
  end.

Definition digitsValue (radix : Z) (ds : jsstring) : Z :=
  fold_left (λ acc c, acc * radix + default 0 (digitValue c)) ds 0.

(** [parseInt(string)] with the radix left out: leading white space is
    dropped, then a sign, then [0x] or [0X] selects radix 16, then the
    longest run of digits is read; no digit gives [NaN]. The integer
    read becomes a Number, so it is rounded from 2^53 on. (Every digit
    counts, as in V8; the standard lets an engine read the decimal
    digits after the 20th as 0.) *)
Definition parseInt (inputString : jsstring) : num :=
  let s := snd (span isSpace inputString) in
  let '(sign, s) :=
    match s with
    | c :: s' =>
        if (c =? 45)%N then (-1, s')
        else if (c =? 43)%N then (1, s')
        else (1, s)
    | [] => (1, s)
    end in
  let '(R, s) :=
    match s with
    | c0 :: cx :: s' =>
        if ((c0 =? 48) && ((cx =? 120) || (cx =? 88)))%N then (16, s')
        else (10, s)
    | _ => (10, s)
    end in
  match fst (span (isDigit R) s) with
  | [] => NaN
  | ds => Num (toNumber (sign * digitsValue R ds))
  end.

(** [a <= b] on two numbers: false as soon as one is [NaN]. *)
Definition num_le (a b : num) : bool :=
  match a, b with
  | Num x, Num y => x <=? y
  | _, _ => false
  end.

(** [a == b] on two numbers: false as soon as one is [NaN]. *)
Definition num_eq (a b : num) : bool :=
  match a, b with
  | Num x, Num y => x =? y
  | _, _ => false
  end.

(** [a == b] for a number [a] and a [b] that is a number or, as [None],
    [undefined]: no number equals [undefined]. *)
Definition num_eq_undefined (a : num) (b : option Z) : bool :=
  match b with
  | Some n => num_eq a (Num n)
  | None => false
  end.

(** What [object[key]] gives on an object that [JSON.parse] made: the
    property of the object itself; failing that, the property every
    object inherits from [Object.prototype] under that name; failing
    that, [undefined]. *)
Inductive property (A : Type) :=
  | Own (a : A)
  | Inherited
  | Undefined.
Arguments Own {A} a.
Arguments Inherited {A}.
Arguments Undefined {A}.

(** The names of the properties of [Object.prototype]. *)
Definition Object_prototype : list jsstring :=
  [ lit "constructor"; lit "hasOwnProperty"; lit "isPrototypeOf";
    lit "propertyIsEnumerable"; lit "toLocaleString"; lit "toString";
    lit "valueOf"; lit "__proto__"; lit "__defineGetter__";
    lit "__defineSetter__"; lit "__lookupGetter__"; lit "__lookupSetter__" ].

Definition get {A} (object : gmap jsstring A) (key : jsstring)
  : property A :=
  match object !! key with
  | Some a => Own a
  | None =>
      if bool_decide (key ∈ Object_prototype) then Inherited else Undefined
  end.

End JS.

(** ** Description *)

Module Description.

Definition isKeyChar (c : N) : bool :=
  ((c =? 45) || JS.inRange 65 90 c || JS.inRange 97 122 c)%N.

Definition isSeparator (c : N) : bool := ((c =? 61) || (c =? 58))%N.

(** What the dot of a regular expression matches: anything but a line
    terminator. *)
Definition isDot (c : N) : bool := negb (JS.isLineTerminator c).

(** [ATTRIBUTE_RE.exec(line)], giving the two groups. [ATTRIBUTE_RE]
    reads, from the start of the line to its end: any run of [\s], a
    first group of one or more of [[-A-Za-z]], one of [[=:]], and a
    second group of any run of dots.
    The three classes [\s], [[-A-Za-z]] and [[=:]] are disjoint, so the
    greedy runs are the only way to match and nothing is backtracked. *)
Definition ATTRIBUTE_RE_exec (line : jsstring)
  : option (jsstring * jsstring) :=
  let '(_, s1) := JS.span JS.isSpace line in
  let '(key, s2) := JS.span isKeyChar s1 in
  match key, s2 with
  | _ :: _, sep :: value =>
      if isSeparator sep && forallb isDot value then Some (key, value)
      else None
  | _, _ => None
  end.

(** [lines[cutoff] === ''] *)
Definition is_empty_line (lines : list jsstring) (cutoff : nat) : bool :=
  match lines !! cutoff with
  | Some [] => true
  | _ => false
  end.

(** [while (cutoff >= 1 && lines[cutoff] === '') cutoff--;] *)
Fixpoint peel_empty (lines : list jsstring) (cutoff : nat) : nat :=
  match cutoff with
  | O => O
  | S c => if is_empty_line lines cutoff then peel_empty lines c else cutoff
  end.

(** The loop that peels the attributes: [attributes.push] appends, an
    empty line is stepped over, a line that is no attribute ends the
    loop. A line out of range would read [undefined], which the regular
    expression does not match. *)
Fixpoint peel_attributes (lines : list jsstring) (cutoff : nat)
    (attributes : list (jsstring * jsstring))
  : nat * list (jsstring * jsstring) :=
  match cutoff with
  | O => (O, attributes)
  | S c =>
      match lines !! cutoff with
      | Some [] => peel_attributes lines c attributes
      | Some line =>
          match ATTRIBUTE_RE_exec line with
          | None => (cutoff, attributes)
          | Some kv => peel_attributes lines c (attributes ++ [kv])
          end
      | None => (cutoff, attributes)
      end
  end.

(** [Description.parse(text)]: the message and the attribute list. *)
Definition parse (text : jsstring)
  : jsstring * list (jsstring * jsstring) :=
  let lines := JS.split LF text in
  let cutoff := (length lines - 1)%nat in
  let cutoff := peel_empty lines cutoff in
  let '(cutoff, attributes) := peel_attributes lines cutoff [] in
  let cutoff := peel_empty lines cutoff in
  (JS.join [LF] (take (cutoff + 1) lines), rev attributes).

(** The fields of a [Description] object. The constructor sets [message_]
    to [null] and, with a letter missing, [attibutes_]; the field that is
    read, [attributes_], is [undefined] until the text is parsed. *)
Record t := mk {
  text_ : jsstring;
  message_ : option jsstring;
  attibutes_ : option (list (jsstring * jsstring));
  attributes_ : option (list (jsstring * jsstring));
}.

Definition new (text : jsstring) : t := mk text None None None.

Definition getText (this : t) : jsstring := text_ this.

(** The object after the call: parsed when [message_] is still [null]. *)
Definition ensureParsed (this : t) : t :=
  match message_ this with
  | None =>
      let parsed := parse (text_ this) in
      mk (text_ this) (Some (fst parsed)) (attibutes_ this)
         (Some (snd parsed))
  | Some _ => this
  end.

(** What the call returns, and the object after it. *)
Definition getMessage (this : t) : option jsstring * t :=
  let this := ensureParsed this in
  (message_ this, this).

Definition getAttributeList (this : t)
  : option (list (jsstring * jsstring)) * t :=
  let this := ensureParsed this in
  (attributes_ this, this).

End Description.

(** ** The replies of Gerrit, as the code reads them

    One record per JSON object, one field per property the code reads. A
    property that Gerrit may leave out is an [option]. *)

Record AccountInfo := {
  _account_id : Z;
  account_name : option jsstring;
}.

(** One entry of the [all] array of a label. *)
Record ApprovalInfo := {
  approval_account_id : option Z;
  approval_value : option Z;
}.

Record LabelInfo := {
  label_all : option (list ApprovalInfo);
}.

(** A message of a change. Gerrit names the tag of a message [tag];
    [Message.shouldBeIgnored] reads a property named [tag_], which is kept
    here next to it. *)
Record MessageInfo := {
  tag : option jsstring;
  tag_ : option jsstring;
  real_author : AccountInfo;
  date : jsstring;
}.

Record RevisionInfo := {
  _number : Z;
}.

Record ChangeInfo := {
  owner : AccountInfo;
  project : jsstring;
  change_number : Z;
  submittable : option bool;
  unresolved_comment_count : option Z;
  work_in_progress : option bool;
  insertions : Z;
  deletions : Z;
  labels : gmap jsstring LabelInfo;
  messages : list MessageInfo;
  stars : option (list jsstring);
  revisions : gmap jsstring RevisionInfo;
  current_revision : jsstring;
}.

(** The kinds of attention, with the string constants the source attaches
    to [Changelist]. *)
Inductive Category :=
  | NONE
  | STALE
  | NO_REVIEWERS
  | WIP
  | INCOMING_NEEDS_ATTENTION
  | OUTGOING_NEEDS_ATTENTION
  | READY_TO_SUBMIT.

Definition Category_value (c : Category) : jsstring :=
  match c with
  | NONE => lit "none"
  | STALE => lit "stale"
  | NO_REVIEWERS => lit "no_reviewers"
  | WIP => lit "work_in_progress"
  | INCOMING_NEEDS_ATTENTION => lit "incoming_needs_attention"
  | OUTGOING_NEEDS_ATTENTION => lit "outgoign_needs_attention"
  | READY_TO_SUBMIT => lit "ready_to_submit"
  end.

#[global] Instance Category_eq_dec : EqDecision Category.
Proof. solve_decision. Defined.

(** The sizes of a change, with their string constants. *)
Inductive SizeCategory :=
  | SMALL
  | MEDIUM
  | LARGE.

Definition SizeCategory_value (c : SizeCategory) : jsstring :=
  match c with
  | SMALL => lit "small"
  | MEDIUM => lit "medium"
  | LARGE => lit "large"
  end.

(** ** The engine and the monad of methods *)

(** What [new Date(string)] makes of a string: its time value in
    milliseconds, or nothing for an invalid date. The format Gerrit uses
    is not the one ECMAScript fixes, so the reading is the engine's. *)
Class Engine := {
  Date_parse : jsstring → option Z;
}.

(** The outcome of a run: a value, or a [TypeError] thrown on the way. *)
Inductive result (A : Type) :=
  | Ok (a : A)
  | TypeError.
Arguments Ok {A} a.
Arguments TypeError {A}.

(** Computations over a state [St] that may throw. *)
Definition M (St A : Type) : Type := St → result (A * St).

Definition ret {St A} (a : A) : M St A := λ s, Ok (a, s).

Definition bind {St A B} (m : M St A) (k : A → M St B) : M St B :=
  λ s, match m s with
       | Ok (a, s') => k a s'
       | TypeError => TypeError
       end.

Definition throw {St A} : M St A := λ _, TypeError.

Notation "x <- m ;; k" := (bind m (λ x, k))
  (at level 100, m at next level, right associativity).
Notation "m ;;; k" := (bind m (λ _, k))
  (at level 100, right associativity).

(** [l.forEach(f)], where the callback updates a local variable [b]. *)
Fixpoint forEach {St A B} (l : list A) (f : A → B → M St B) (b : B)
  : M St B :=
  match l with
  | [] => ret b
  | x :: l' => b' <- f x b ;; forEach l' f b'
  end.

(** [xs.map(f)], for an [f] that runs in the monad. *)
Fixpoint each {St A B} (f : A → M St B) (l : list A) : M St (list B) :=
  match l with
  | [] => ret []
  | x :: l' => y <- f x ;; ys <- each f l' ;; ret (y :: ys)
  end.

(** [l[l.length - 1]], which is [undefined] on the empty array. *)
Definition last_element {A} (l : list A) : option A := List.last (map Some l) None.

(** ** Message *)

Module Message.

Record t := new { json_ : MessageInfo }.

Definition wrap (json : MessageInfo) : t := new json.

(** [!this.json_.tag_] holds of a property that is absent and of the
    empty string. *)
Definition shouldBeIgnored (this : t) : bool :=
  match tag_ (json_ this) with
  | None | Some [] => false
  | Some tag =>
      if negb (JS.startsWith tag (lit "autogenerated:")) then false
      else if JS.str_eq tag (lit "autogenerated:gerrit:newPatchSet") then false
      else if JS.str_eq tag (lit "autogenerated:gerrit:newWipPatchSet") then false
      else true
  end.

Definition isAuthoredBy (this : t) (user : AccountInfo) : bool :=
  _account_id (real_author (json_ this)) =? _account_id user.

Definition getTime {E : Engine} (this : t) : option Z :=
  Date_parse (date (json_ this) ++ lit " UTC").

End Message.

(** ** Revision *)

Module Revision.

(** The wrapped value is what [revisions[current_revision]] gave: not
    a revision when the change names a revision that its [revisions] do
    not have. *)
Record t := new { json_ : JS.property RevisionInfo }.

(** [this.json_._number]: the number of a revision; [undefined], here
    [None], on an inherited value, none of which has this property; a
    [TypeError] on [undefined]. *)
Definition getNumber {St} (this : t) : M St (option Z) :=
  match json_ this with
  | JS.Own json => ret (Some (_number json))
  | JS.Inherited => ret None
  | JS.Undefined => throw
  end.

End Revision.

(** ** Changelist *)

Module Changelist.

(** The fields of a [Changelist] object. The three memoised fields start
    out [null]. ([description_] is left out: no method below reads it.) *)
Record t := mk {
  host_ : jsstring;
  json_ : ChangeInfo;
  reviewers_ : option (list ApprovalInfo);
  messages_ : option (list Message.t);
  current_revision_ : option Revision.t;
}.

Definition new (host : jsstring) (json : ChangeInfo) : t :=
  mk host json None None None.

Definition wrap (host : jsstring) (json : ChangeInfo) : t := new host json.

(** The world a method runs in: the objects by address, and the clock,
    given by the successive readings [new Date().getTime()] returns. *)
Record World := mkWorld {
  heap : gmap positive t;
  clock : nat → Z;
  ticks : nat;
}.

Abbreviation W := (M World).

(** Reads the object at [this]. An address always names an object in
    JavaScript; a dangling one aborts the run. *)
Definition deref (this : positive) : W t :=
  λ w, match heap w !! this with
       | Some o => Ok (o, w)
       | None => TypeError
       end.

(** Assigns fields of the object at [this]. *)
Definition assign (this : positive) (f : t → t) : W unit :=
  λ w, match heap w !! this with
       | Some o => Ok (tt, mkWorld (<[this := f o]> (heap w)) (clock w) (ticks w))
       | None => TypeError
       end.

(** [new Date().getTime()] *)
Definition Date_now : W Z :=
  λ w, Ok (clock w (ticks w), mkWorld (heap w) (clock w) (S (ticks w))).

Definition isOwner (this : positive) (user : AccountInfo) : W bool :=
  o <- deref this ;;
  ret (_account_id (owner (json_ o)) =? _account_id user).

(** A property left out is [undefined], which is not true. *)
Definition isSubmittable (this : positive) : W bool :=
  o <- deref this ;;
  ret (default false (submittable (json_ o))).

(** [undefined !== 0] holds. *)
Definition hasUnresolvedComments (this : positive) : W bool :=
  o <- deref this ;;
  ret (match unresolved_comment_count (json_ o) with
       | Some n => negb (n =? 0)
       | None => true
       end).

Definition isWorkInProgress (this : positive) : W bool :=
  o <- deref this ;;
  ret (match work_in_progress (json_ o) with
       | Some true => true
       | _ => false
       end).

(** [!!reviewer._account_id]: the identifier is there and is not 0. *)
Definition has_account_id (reviewer : ApprovalInfo) : bool :=
  match approval_account_id reviewer with
  | Some n => negb (n =? 0)
  | None => false
  end.

(** [reviewer._account_id === id] and [reviewer._account_id !== id]. *)
Definition account_id_is (reviewer : ApprovalInfo) (id : Z) : bool :=
  match approval_account_id reviewer with
  | Some n => n =? id
  | None => false
  end.

(** [reviewer.value > 0] *)
Definition value_positive (reviewer : ApprovalInfo) : bool :=
  match approval_value reviewer with
  | Some v => 0 <? v
  | None => false
  end.

Definition filterReviewers (this : positive) (filter : ApprovalInfo → bool)
  : W (list ApprovalInfo) :=
  o <- deref this ;;
  let codeReviewLabel := labels (json_ o) !! lit "Code-Review" in
  let all :=
    match codeReviewLabel with
    | Some label => default [] (label_all label)
    | None => []
    end in
  ret (List.filter (λ reviewer, has_account_id reviewer && filter reviewer) all).

Definition hasReviewed (this : positive) (user : AccountInfo) : W bool :=
  rs <- filterReviewers this (λ reviewer,
          value_positive reviewer
          && account_id_is reviewer (_account_id user)) ;;
  ret (negb (length rs =? 0)%nat).

Definition getReviewers (this : positive) : W (list ApprovalInfo) :=
  o <- deref this ;;
  match reviewers_ o with
  | Some rs => ret rs
  | None =>
      let owner := owner (json_ o) in
      rs <- filterReviewers this (λ reviewer,
              negb (account_id_is reviewer (_account_id owner))) ;;
      assign this (λ o, mk (host_ o) (json_ o) (Some rs) (messages_ o)
                           (current_revision_ o)) ;;;
      ret rs
  end.

Definition getMessages (this : positive) : W (list Message.t) :=
  o <- deref this ;;
  match messages_ o with
  | Some ms => ret ms
  | None =>
      let ms := map Message.wrap (messages (json_ o)) in
      assign this (λ o, mk (host_ o) (json_ o) (reviewers_ o) (Some ms)
                           (current_revision_ o)) ;;;
      ret ms
  end.

Definition getStars (this : positive) : W (list jsstring) :=
  o <- deref this ;;
  ret (default [] (stars (json_ o))).

Definition getCurrentRevision (this : positive) : W Revision.t :=
  o <- deref this ;;
  match current_revision_ o with
  | Some r => ret r
  | None =>
      let r := Revision.new (JS.get (revisions (json_ o))
                                    (current_revision (json_ o))) in
      assign this (λ o, mk (host_ o) (json_ o) (reviewers_ o) (messages_ o)
                           (Some r)) ;;;
      ret r
  end.

(** [now - lastMessage.getTime() > 1000 * 3600 * 24]; an invalid date
    makes the difference [NaN], and the comparison false. *)
Definition older_than_a_day {E : Engine} (now : Z) (lastMessage : Message.t)
  : bool :=
  match Message.getTime lastMessage with
  | Some t => 1000 * 3600 * 24 <? now - t
  | None => false
  end.

Definition isStale {E : Engine} (this : positive) : W bool :=
  allMessages <- getMessages this ;;
  let filteredMessages :=
    List.filter (λ message, negb (Message.shouldBeIgnored message))
                allMessages in
  let lastMessage :=
    match last_element filteredMessages with
    | Some m => Some m
    | None => last_element allMessages
    end in
  match lastMessage with
  | None => ret true
  | Some lastMessage =>
      now <- Date_now ;;
      ret (older_than_a_day now lastMessage)
  end.

Definition authorCommentedAfterUser (this : positive) (user : AccountInfo)
  : W bool :=
  o <- deref this ;;
  let owner := owner (json_ o) in
  ms <- getMessages this ;;
  let filteredMessages :=
    List.filter (λ message,
      if Message.shouldBeIgnored message then false
      else Message.isAuthoredBy message user
           || Message.isAuthoredBy message owner) ms in
  match last_element filteredMessages with
  | None => ret true
  | Some lastMessage => ret (Message.isAuthoredBy lastMessage owner)
  end.

(** One turn of the loop over the star labels; the state is
    [latest_tagged_rev_number] and [latest_tag_is_reviewed], the latter
    [null] at first. *)
Definition star_step (st : JS.num * option bool) (star_label : jsstring)
  : JS.num * option bool :=
  let '(latest_tagged_rev_number, _) := st in
  match JS.split 47 star_label with
  | [part0; part1] =>
      if negb (JS.str_eq part0 (lit "reviewed"))
         && negb (JS.str_eq part0 (lit "unreviewed")) then st
      else
        let tagged_rev_number := JS.parseInt part1 in
        if JS.num_le tagged_rev_number latest_tagged_rev_number then st
        else (tagged_rev_number, Some (JS.str_eq part0 (lit "reviewed")))
  | _ => st
  end.

Definition star_loop (star_labels : list jsstring) : JS.num * option bool :=
  fold_left star_step star_labels (JS.Num (-1), None).

Definition getCategory {E : Engine} (this : positive) (user : AccountInfo)
  : W Category :=
  is_owner <- isOwner this user ;;
  if is_owner then
    ready <- (submittable <- isSubmittable this ;;
              if submittable then
                unresolved <- hasUnresolvedComments this ;;
                ret (negb unresolved)
              else ret false) ;;
    if ready then ret READY_TO_SUBMIT
    else
      wip <- isWorkInProgress this ;;
      if wip then ret WIP
      else
        reviewers <- getReviewers this ;;
        if (length reviewers =? 0)%nat then ret NO_REVIEWERS
        else
          unresolved <- hasUnresolvedComments this ;;
          if unresolved then ret OUTGOING_NEEDS_ATTENTION
          else
            stale <- isStale this ;;
            if stale then ret STALE
            else ret NONE
  else
    reviewed <- hasReviewed this user ;;
    if negb reviewed then
      revision <- getCurrentRevision this ;;
      current_rev_number <- Revision.getNumber revision ;;
      star_labels <- getStars this ;;
      let '(latest_tagged_rev_number, latest_tag_is_reviewed) :=
        star_loop star_labels in
      if JS.num_eq_undefined latest_tagged_rev_number current_rev_number then
        if default false latest_tag_is_reviewed then ret NONE
        else ret INCOMING_NEEDS_ATTENTION
      else
        after <- authorCommentedAfterUser this user ;;
        if after then ret INCOMING_NEEDS_ATTENTION
        else ret NONE
    else ret NONE.

(** [new Changelist(host, json)] and the like: the object gets an
    address that no object has yet. *)
Definition alloc (o : t) : W positive :=
  λ w, let this := fresh (dom (heap w)) in
       Ok (this, mkWorld (<[this := o]> (heap w)) (clock w) (ticks w)).

Definition toJSON (this : positive) : W ChangeInfo :=
  o <- deref this ;;
  ret (json_ o).

Definition getDeltaSize (this : positive) : W Z :=
  o <- deref this ;;
  ret (insertions (json_ o) + deletions (json_ o)).

Definition getSizeCategory (this : positive) : W SizeCategory :=
  deltaSize <- getDeltaSize this ;;
  if deltaSize <? 30 then ret SMALL
  else if deltaSize <? 300 then ret MEDIUM
  else ret LARGE.

(** The name is [undefined] when Gerrit was not asked for the details
    of the accounts. *)
Definition getAuthor (this : positive) : W (option jsstring) :=
  o <- deref this ;;
  ret (account_name (owner (json_ o))).

End Changelist.

(** ** The map of [utils.js] *)

Module Map.

(** Modelled from the spec: [utils.Map], whose file [utils.js] is not
    among the sources. The spec calls what [getCategoryMap] returns a
    mapping from a category to an ordered sequence of changelists; the
    callers use [has], [get], [put] and [forEach] with a callback that
    takes the key and then the value. The model is a list of entries, a
    key at most once, in the order the keys were first put. *)
Definition t (V : Type) : Type := list (Category * V).

Definition new {V} : t V := [].

Fixpoint get {V} (m : t V) (key : Category) : option V :=
  match m with
  | [] => None
  | (k, v) :: m' => if decide (k = key) then Some v else get m' key
  end.

Definition has {V} (m : t V) (key : Category) : bool :=
  match get m key with
  | Some _ => true
  | None => false
  end.

Fixpoint put {V} (m : t V) (key : Category) (value : V) : t V :=
  match m with
  | [] => [(key, value)]
  | (k, v) :: m' =>
      if decide (k = key) then (k, value) :: m'
      else (k, v) :: put m' key value
  end.

(** [m.forEach(f)], where the callback updates a local variable [b]. *)
Definition forEach {V B} (m : t V) (f : Category → V → B → B) (b : B) : B :=
  fold_left (λ b e, f (fst e) (snd e) b) m b.

End Map.

(** ** SearchResult *)

Module SearchResult.

(** [data_] holds the addresses of the changelists of the reply. *)
Record t := new {
  host_ : jsstring;
  user_ : AccountInfo;
  data_ : list positive;
}.

Definition getAccount (this : t) : AccountInfo := user_ this.

(** [cls.includes(cl)]: is the object [cl] itself in the array. *)
Definition includes (cls : list positive) (cl : positive) : bool :=
  existsb (Pos.eqb cl) cls.

(** The callback of [getCategoryMap]; [get] hands out the array that the
    map holds, so [push] changes the entry of the map. *)
Definition categorize {E : Engine} (user : AccountInfo) (cl : positive)
    (result : Map.t (list positive))
  : Changelist.W (Map.t (list positive)) :=
  attention <- Changelist.getCategory cl user ;;
  let result :=
    if negb (Map.has result attention) then Map.put result attention []
    else result in
  match Map.get result attention with
  | Some cls =>
      if negb (includes cls cl) then ret (Map.put result attention (cls ++ [cl]))
      else ret result
  | None => throw
  end.

Definition getCategoryMap {E : Engine} (this : t)
  : Changelist.W (Map.t (list positive)) :=
  let user := getAccount this in
  forEach (data_ this) (categorize user) Map.new.

(** The object the call returns: the same arrays and objects, not
    copies. *)
Definition toJSON (this : t) : jsstring * AccountInfo * list positive :=
  (host_ this, user_ this, data_ this).

(** [SearchResult.wrap(host, user, data)] makes a changelist object of
    every reply, in their order. *)
Definition wrap (host : jsstring) (user : AccountInfo)
    (data : list ChangeInfo) : Changelist.W t :=
  cls <- each (λ json, Changelist.alloc (Changelist.wrap host json)) data ;;
  ret (new host user cls).

End SearchResult.

(** ** SearchResults *)

Module SearchResults.

Record t := new { results_ : list SearchResult.t }.

(** The callback of the inner [forEach]; the entry for [attention] is
    there when it is read, after the [put] before it. *)
Definition merge (attention : Category) (cls : list positive)
    (categories : Map.t (list positive)) : Map.t (list positive) :=
  let categories :=
    if negb (Map.has categories attention) then Map.put categories attention []
    else categories in
  Map.put categories attention (default [] (Map.get categories attention) ++ cls).

Definition getCategoryMap {E : Engine} (this : t)
  : Changelist.W (Map.t (list positive)) :=
  forEach (results_ this)
    (λ result categories,
       m <- SearchResult.getCategoryMap result ;;
       ret (Map.forEach m merge categories))
    Map.new.

Definition toJSON (this : t) : list SearchResult.t := results_ this.

End SearchResults.

(** ** The requests to Gerrit

    The functions at the end of [gerrit.js]. The network is behind
    [browser.fetchUrl] and [fetch], and the text of the login prompt in
    [config.js]; neither file is here, so the network answers as an
    oracle does, call by call, and the prompt is a parameter. A promise
    is taken when it has settled. *)

(** What a promise is rejected with: a [browser.FetchError], with its
    flag [is_login_error], another [Error], with its message, the
    [SyntaxError] that [JSON.parse] throws, or a [TypeError] thrown in
    a callback. *)
Inductive Rejection :=
  | FetchError (is_login_error : bool) (message : jsstring)
  | Error (message : jsstring)
  | SyntaxError
  | ThrownTypeError.

Inductive Promise (A : Type) :=
  | Resolved (a : A)
  | Rejected (e : Rejection).
Arguments Resolved {A} a.
Arguments Rejected {A} e.

(** [p.then(f)]; an exception thrown by [f] rejects the promise, so [f]
    gives a promise in every case. *)
Definition then_ {A B} (p : Promise A) (f : A → Promise B) : Promise B :=
  match p with
  | Resolved a => f a
  | Rejected e => Rejected e
  end.

(** [JSON.parse], which returns a value of the shape [V] or throws. *)
Class JSON (V : Type) := {
  JSON_parse : jsstring → option V;
}.

Class Config := {
  LOGIN_PROMPT : jsstring;
}.

(** The five code units every reply of Gerrit starts with. *)
Definition MAGIC : jsstring := lit ")]}'" ++ [LF].

Definition parseJSON {V} `{JSON V} (reply : jsstring) : Promise V :=
  let header := take 5 reply in
  if JS.str_eq header MAGIC then
    match JSON_parse (drop 5 reply) with
    | Some v => Resolved v
    | None => Rejected SyntaxError
    end
  else
    Rejected (Error (lit "Unexpected reply from Gerrit server: "
                     ++ header ++ lit "...")).

(** The network: what [browser.fetchUrl] and the opaque [fetch] answer,
    by the number of the call and its arguments, and the calls made so
    far. *)
Record Net := mkNet {
  fetchUrl_answer : nat → jsstring → option (list (jsstring * jsstring))
                    → Promise jsstring;
  fetch_answer : nat → jsstring → Promise unit;
  fetchUrl_calls : list (jsstring * option (list (jsstring * jsstring)));
  fetch_calls : list jsstring;
}.

(** [browser.fetchUrl(url, params, headers)], the headers being the same
    in every call. *)
Definition fetchUrl (url : jsstring)
    (params : option (list (jsstring * jsstring)))
  : M Net (Promise jsstring) :=
  λ n, Ok (fetchUrl_answer n (length (fetchUrl_calls n)) url params,
           mkNet (fetchUrl_answer n) (fetch_answer n)
                 (fetchUrl_calls n ++ [(url, params)]) (fetch_calls n)).

(** [fetch(host, {mode: 'no-cors', credentials: 'include'})] *)
Definition fetch_no_cors (host : jsstring) : M Net (Promise unit) :=
  λ n, Ok (fetch_answer n (length (fetch_calls n)) host,
           mkNet (fetchUrl_answer n) (fetch_answer n)
                 (fetchUrl_calls n) (fetch_calls n ++ [host])).

(** [!(error instanceof browser.FetchError) || !error.is_login_error] *)
Definition not_login_error (error : Rejection) : bool :=
  match error with
  | FetchError is_login_error _ => negb is_login_error
  | _ => true
  end.

Definition sendRequest (host path : jsstring)
    (params : option (list (jsstring * jsstring)))
  : M Net (Promise jsstring) :=
  let tryFetch := fetchUrl (host ++ path) params in
  first <- tryFetch ;;
  match first with
  | Resolved reply => ret (Resolved reply)
  | Rejected error =>
      if not_login_error error then ret (Rejected error)
      else
        refreshed <- fetch_no_cors host ;;
        match refreshed with
        | Resolved _ =>
            again <- tryFetch ;;
            match again with
            | Resolved reply => ret (Resolved reply)
            | Rejected _ => ret (Rejected error)
            end
        | Rejected _ => ret (Rejected error)
        end
  end.

Definition fetchAccount {V} `{JSON V} `{Config} (host : jsstring)
  : M Net (Promise V) :=
  sent <- sendRequest host (lit "/accounts/self") None ;;
  ret (then_
         (then_ sent (λ response,
            if negb (JS.str_eq (take 5 response) MAGIC) then
              Rejected (Error (lit "Cannot fetch account." ++ LOGIN_PROMPT))
            else Resolved response))
         parseJSON).

(** How the engine writes a Number that is an integer beyond 2^53 in
    magnitude: the fewest digits that read back as the same double,
    then zeros or, from 10^21 on, an exponent. The standard does not
    fix the last of these digits. *)
Class Numbers := {
  beyond_2_53 : Z → jsstring;
}.

(** The string a Number that is an integer becomes when it is added to
    a string: its decimal digits, all of them up to 2^53 in
    magnitude. *)
Definition numberToString `{Numbers} (n : Z) : jsstring :=
  if Z.abs n <=? 2 ^ 53 then lit (NilZero.string_of_int (Z.to_int n))
  else beyond_2_53 n.

(** The reply to the two queries, once parsed, as [fetchReviews] takes
    it apart: [null]; a number, a string or a boolean; or an array,
    whose elements are arrays of changes, one for each query, or
    changes. An object that is no array is read through its [length]
    as an array is, the object without one as the empty array. *)
Inductive Results :=
  | ResultsNull
  | ResultsPrimitive
  | ResultsArray (elements : list (ChangeInfo + list ChangeInfo)).

(** [[].concat.apply([], results)]: [apply] takes [null] for no
    argument and throws a [TypeError] on a value that is no object;
    [concat] appends the elements of an argument that is an array, and
    any other argument as one element. *)
Definition concat_apply (results : Results) : option (list ChangeInfo) :=
  match results with
  | ResultsNull => Some []
  | ResultsPrimitive => None
  | ResultsArray elements =>
      Some (flat_map (λ element, match element with
                                 | inl change => [change]
                                 | inr changes => changes
                                 end) elements)
  end.

(** A computation on the network, or on the heap, run on both. *)
Definition on_net {A} (m : M Net A) : M (Net * Changelist.World) A :=
  λ s, match m (fst s) with
       | Ok (a, n) => Ok (a, (n, snd s))
       | TypeError => TypeError
       end.

Definition on_world {A} (m : Changelist.W A) : M (Net * Changelist.World) A :=
  λ s, match m (snd s) with
       | Ok (a, w) => Ok (a, (fst s, w))
       | TypeError => TypeError
       end.

(** The parameters of the request for the reviews. *)
Definition review_params (userid : jsstring) (detailed : bool)
  : list (jsstring * jsstring) :=
  [ (lit "q", lit "status:open owner:" ++ userid);
    (lit "q", lit "status:open -star:ignore reviewer:" ++ userid
              ++ lit " -owner:" ++ userid);
    (lit "o", lit "CURRENT_REVISION");
    (lit "o", lit "DETAILED_LABELS");
    (lit "o", lit "MESSAGES");
    (lit "o", lit "REVIEWED");
    (lit "o", lit "SUBMITTABLE") ]
  ++ (if detailed then [ (lit "o", lit "CURRENT_COMMIT");
                         (lit "o", lit "DETAILED_ACCOUNTS") ]
      else []).

(** [fetchReviews(host, account, detailed)]; an exception thrown in the
    last callback rejects the promise. *)
Definition fetchReviews `{JSON Results} `{Numbers} (host : jsstring)
    (account : AccountInfo) (detailed : bool)
  : M (Net * Changelist.World) (Promise SearchResult.t) :=
  let userid := numberToString (_account_id account) in
  sent <- on_net (sendRequest host (lit "/changes/")
                    (Some (review_params userid detailed))) ;;
  match then_ sent parseJSON with
  | Resolved results =>
      match concat_apply results with
      | Some data =>
          wrapped <- on_world (SearchResult.wrap host account data) ;;
          ret (Resolved wrapped)
      | None => ret (Rejected ThrownTypeError)
      end
  | Rejected e => ret (Rejected e)
  end.

(** * Vocabulary of the properties *)

(** The value a run returns, the final world left aside. *)
Definition outcome {St A} (r : result (A * St)) : result A :=
  match r with
  | Ok (a, _) => Ok a
  | TypeError => TypeError
  end.

(** [m] is the last element of [l] that satisfies [P]. *)
Definition last_such {A} (P : A → Prop) (l : list A) (m : A) : Prop :=
  ∃ pre post, l = pre ++ m :: post ∧ P m ∧ Forall (λ x, ¬ P x) post.

(** [line] matches [ATTRIBUTE_RE] with the groups [key] and [value]: the
    line is white space, then the key, of one or more letters or hyphens,
    then "=" or ":", then the value, which has no line terminator. *)
Definition matches_ATTRIBUTE_RE (line key value : jsstring) : Prop :=
  ∃ ws sep,
    line = ws ++ key ++ sep :: value
    ∧ Forall (λ c, JS.isSpace c = true) ws
    ∧ key ≠ []
    ∧ Forall (λ c, Description.isKeyChar c = true) key
    ∧ Description.isSeparator sep = true
    ∧ Forall (λ c, JS.isLineTerminator c = false) value.

(** A line of a description below the message is empty or an attribute. *)
Definition peeled (line : jsstring) : Prop :=
  line = [] ∨ is_Some (Description.ATTRIBUTE_RE_exec line).

(** ** The reply behind a changelist object *)

Section Reply.

Context {E : Engine}.

Definition is_owner (json : ChangeInfo) (user : AccountInfo) : Prop :=
  _account_id (owner json) = _account_id user.

(** The entries of the label "Code-Review", none when the label or its
    [all] is missing. *)
Definition code_review_all (json : ChangeInfo) : list ApprovalInfo :=
  match labels json !! lit "Code-Review" with
  | Some label => default [] (label_all label)
  | None => []
  end.

(** The reviewer list: the entries that have an identity and are not the
    owner. *)
Definition reviewers_of (json : ChangeInfo) : list ApprovalInfo :=
  List.filter
    (λ r, Changelist.has_account_id r
          && negb (Changelist.account_id_is r (_account_id (owner json))))
    (code_review_all json).

(** [user] has an entry with a positive vote. The entry must carry an
    identity that is not 0, as [filterReviewers] drops the others. *)
Definition voted_positive (json : ChangeInfo) (user : AccountInfo) : Prop :=
  ∃ r v, r ∈ code_review_all json
         ∧ approval_account_id r = Some (_account_id user)
         ∧ _account_id user ≠ 0
         ∧ approval_value r = Some v ∧ 0 < v.

Definition messages_of (json : ChangeInfo) : list Message.t :=
  map Message.wrap (messages json).

Definition revision_of (json : ChangeInfo) : Revision.t :=
  Revision.new (JS.get (revisions json) (current_revision json)).

(** A memoised field is [null] or holds what its getter computes from
    the reply: the state of every object the getters have worked on. *)
Definition coherent (o : Changelist.t) : Prop :=
  (∀ rs, Changelist.reviewers_ o = Some rs
         → rs = reviewers_of (Changelist.json_ o))
  ∧ (∀ ms, Changelist.messages_ o = Some ms
           → ms = messages_of (Changelist.json_ o))
  ∧ (∀ r, Changelist.current_revision_ o = Some r
          → r = revision_of (Changelist.json_ o)).

(** The address [this] holds a changelist object for the reply [json]. *)
Definition holds (w : Changelist.World) (this : positive)
    (json : ChangeInfo) : Prop :=
  ∃ o, Changelist.heap w !! this = Some o
       ∧ Changelist.json_ o = json ∧ coherent o.

(** The reading of the clock the next [new Date()] returns. *)
Definition now (w : Changelist.World) : Z :=
  Changelist.clock w (Changelist.ticks w).

(** *** Staleness *)

Definition ignorable (m : Message.t) : Prop :=
  Message.shouldBeIgnored m = true.

(** The message staleness is decided on: the last one that is not
    ignorable, or the last one of all when every message is ignorable. *)
Definition selected_message (ms : list Message.t) (m : Message.t) : Prop :=
  last_such (λ m, ¬ ignorable m) ms m
  ∨ (Forall ignorable ms ∧ ∃ pre, ms = pre ++ [m]).

(** More than 24 hours, in milliseconds, lie between the time of [m]
    and [t]. *)
Definition day_older (t : Z) (m : Message.t) : Prop :=
  ∃ tm, Message.getTime m = Some tm ∧ 86400000 < t - tm.

(** *** The messages the fallback heuristic looks at *)

Definition relevant (json : ChangeInfo) (user : AccountInfo)
    (m : Message.t) : Prop :=
  ¬ ignorable m
  ∧ (Message.isAuthoredBy m user = true
     ∨ Message.isAuthoredBy m (owner json) = true).

(** *** Star markers *)

(** The marker a star label stands for: [true] for "reviewed", [false]
    for "unreviewed", and the revision number, read as [parseInt] reads
    it. A label of another shape, or without a number, is no marker. *)
Definition marker_of (star_label : jsstring) : option (bool * Z) :=
  match JS.split 47 star_label with
  | [part0; part1] =>
      if bool_decide (part0 = lit "reviewed" ∨ part0 = lit "unreviewed") then
        match JS.parseInt part1 with
        | JS.Num n => Some (bool_decide (part0 = lit "reviewed"), n)
        | JS.NaN => None
        end
      else None
  | _ => None
  end.

Definition markers (star_labels : list jsstring) : list (bool * Z) :=
  omap marker_of star_labels.

(** The marker with the highest revision number, the first of them when
    several carry that number. *)
Definition higher (best : option (bool * Z)) (m : bool * Z)
  : option (bool * Z) :=
  match best with
  | None => Some m
  | Some b => if snd b <? snd m then Some m else best
  end.

Definition highest_marker (star_labels : list jsstring)
  : option (bool * Z) :=
  fold_left higher (markers star_labels) None.

(** Every label with the shape of a marker carries a number. *)
Definition numbered (star_label : jsstring) : Prop :=
  match JS.split 47 star_label with
  | [part0; part1] =>
      part0 = lit "reviewed" ∨ part0 = lit "unreviewed"
      → JS.parseInt part1 ≠ JS.NaN
  | _ => True
  end.

Definition star_labels_of (json : ChangeInfo) : list jsstring :=
  default [] (stars json).

(** *** The category as a function of the reply, the user and the clock *)

Definition stale_at (t : Z) (json : ChangeInfo) : bool :=
  let all := messages_of json in
  let kept := List.filter (λ m, negb (Message.shouldBeIgnored m)) all in
  match (match last_element kept with
         | Some m => Some m
         | None => last_element all
         end) with
  | Some m => Changelist.older_than_a_day t m
  | None => true
  end.

Definition commented_after (json : ChangeInfo) (user : AccountInfo) : bool :=
  match last_element
          (List.filter (λ m,
             if Message.shouldBeIgnored m then false
             else Message.isAuthoredBy m user
                  || Message.isAuthoredBy m (owner json))
             (messages_of json)) with
  | None => true
  | Some m => Message.isAuthoredBy m (owner json)
  end.

Definition reviewed_by (json : ChangeInfo) (user : AccountInfo) : bool :=
  negb (length (List.filter
                  (λ r, Changelist.has_account_id r
                        && (Changelist.value_positive r
                            && Changelist.account_id_is r (_account_id user)))
                  (code_review_all json)) =? 0)%nat.

Definition unresolved (json : ChangeInfo) : bool :=
  match unresolved_comment_count json with
  | Some n => negb (n =? 0)
  | None => true
  end.

Definition in_progress (json : ChangeInfo) : bool :=
  match work_in_progress json with
  | Some true => true
  | _ => false
  end.

Definition category_at (t : Z) (json : ChangeInfo) (user : AccountInfo)
  : result Category :=
  if _account_id (owner json) =? _account_id user then
    if default false (submittable json) && negb (unresolved json)
    then Ok READY_TO_SUBMIT
    else if in_progress json then Ok WIP
    else if (length (reviewers_of json) =? 0)%nat then Ok NO_REVIEWERS
    else if unresolved json then Ok OUTGOING_NEEDS_ATTENTION
    else if stale_at t json then Ok STALE
    else Ok NONE
  else if reviewed_by json user then Ok NONE
  else
    match JS.get (revisions json) (current_revision json) with
    | JS.Undefined => TypeError
    | JS.Inherited =>
        Ok (if commented_after json user then INCOMING_NEEDS_ATTENTION
            else NONE)
    | JS.Own revision =>
        let '(latest, verdict) :=
          Changelist.star_loop (star_labels_of json) in
        if JS.num_eq latest (JS.Num (_number revision)) then
          Ok (if default false verdict then NONE
              else INCOMING_NEEDS_ATTENTION)
        else
          Ok (if commented_after json user then INCOMING_NEEDS_ATTENTION
              else NONE)
    end.

End Reply.

(** ** The words of the properties *)

(** The tag Gerrit gave the message marks it as generated, and is none
    of the two tags of a new patch set. *)
Definition tagged_autogenerated (json : MessageInfo) : Prop :=
  ∃ t, tag json = Some t
       ∧ lit "autogenerated:" `prefix_of` t
       ∧ t ≠ lit "autogenerated:gerrit:newPatchSet"
       ∧ t ≠ lit "autogenerated:gerrit:newWipPatchSet".

(** A list of rules, the first that applies decides; [otherwise] when
    none applies. *)
Inductive first_match {A} : list (Prop * A) → A → A → Prop :=
  | first_match_nil otherwise :
      first_match [] otherwise otherwise
  | first_match_here (P : Prop) a rules otherwise :
      P → first_match ((P, a) :: rules) otherwise a
  | first_match_next (P : Prop) a rules otherwise r :
      ¬ P → first_match rules otherwise r
      → first_match ((P, a) :: rules) otherwise r.

Section Words.

Context {E : Engine}.

(** The staleness of a changelist with the messages [ms] at time [t]. *)
Definition stale (t : Z) (ms : list Message.t) : Prop :=
  ms = [] ∨ ∃ m, selected_message ms m ∧ day_older t m.

Definition no_unresolved_comments (json : ChangeInfo) : Prop :=
  unresolved_comment_count json = Some 0.

(** The rules for the owner, in their order. *)
Definition owner_rules (t : Z) (json : ChangeInfo)
  : list (Prop * Category) :=
  [ (submittable json = Some true ∧ no_unresolved_comments json,
     READY_TO_SUBMIT);
    (work_in_progress json = Some true, WIP);
    (reviewers_of json = [], NO_REVIEWERS);
    (¬ no_unresolved_comments json, OUTGOING_NEEDS_ATTENTION);
    (stale t (messages_of json), STALE) ].

(** The category a marker gives. *)
Definition of_verdict (reviewed : bool) : Category :=
  if reviewed then NONE else INCOMING_NEEDS_ATTENTION.

(** C2 as the spec states it, for the category [c] that [getCategory]
    returns: a user who has reviewed gets [NONE], unless the marker with
    the highest number is one for the current revision, which then
    decides. *)
Definition reviewed_unless_marked (json : ChangeInfo) (user : AccountInfo)
    (c : Category) : Prop :=
  ¬ is_owner json user → voted_positive json user →
  ∀ revision, revisions json !! current_revision json = Some revision →
  match highest_marker (star_labels_of json) with
  | Some (reviewed, n) =>
      if n =? _number revision then c = of_verdict reviewed else c = NONE
  | None => c = NONE
  end.

(** C4 as the spec states it, for the category [c] that [getCategory]
    returns. *)
Definition marker_decides (json : ChangeInfo) (user : AccountInfo)
    (c : Category) : Prop :=
  ¬ is_owner json user → ¬ voted_positive json user →
  ∀ revision reviewed n,
    revisions json !! current_revision json = Some revision →
    highest_marker (star_labels_of json) = Some (reviewed, n) →
    n = _number revision →
    c = of_verdict reviewed.

(** No star marker is for the revision numbered [n]. *)
Definition no_marker_for (json : ChangeInfo) (n : Z) : Prop :=
  Forall (λ m, snd m ≠ n) (markers (star_labels_of json)).

(** What the fallback heuristic says of the category [c]:
    INCOMING_NEEDS_ATTENTION when no message is relevant or the last
    relevant one is authored by the owner, NONE otherwise. *)
Definition heuristic (json : ChangeInfo) (user : AccountInfo)
    (c : Category) : Prop :=
  (Forall (λ m, ¬ relevant json user m) (messages_of json)
   → c = INCOMING_NEEDS_ATTENTION)
  ∧ (∀ m, last_such (relevant json user) (messages_of json) m
          → c = if Message.isAuthoredBy m (owner json)
                then INCOMING_NEEDS_ATTENTION else NONE).

(** C5 as the spec states it, for the category [c] that [getCategory]
    returns. *)
Definition fallback_decides (json : ChangeInfo) (user : AccountInfo)
    (c : Category) : Prop :=
  ¬ is_owner json user → ¬ voted_positive json user →
  ∀ revision,
    revisions json !! current_revision json = Some revision →
    no_marker_for json (_number revision) →
    heuristic json user c.

(** The state of the star loop stands for the best marker met so far:
    a marker counts once its number exceeds the -1 the loop starts
    from. *)
Definition loop_state_of (best : option (bool * Z))
  : JS.num * option bool :=
  match best with
  | Some (reviewed, n) =>
      if -1 <? n then (JS.Num n, Some reviewed) else (JS.Num (-1), None)
  | None => (JS.Num (-1), None)
  end.

End Words.

(** ** The words of the properties of the category maps *)

(** The changelists a map holds for a category, none when it has no
    entry. *)
Definition bucket (m : Map.t (list positive)) (k : Category)
  : list positive :=
  default [] (Map.get m k).

(** The elements of a sequence in the order they are first seen, each
    once. *)
Fixpoint first_seen (l : list positive) : list positive :=
  match l with
  | [] => []
  | x :: l' => x :: List.filter (λ y, negb (Pos.eqb y x)) (first_seen l')
  end.

(** The changelists of [data] whose category is [k], where [cats] lists
    the category of each. *)
Definition with_category (k : Category) (data : list positive)
    (cats : list Category) : list positive :=
  map fst (List.filter (λ p, bool_decide (snd p = k)) (zip data cats)).

(** What the callback of [SearchResult.getCategoryMap] does to the map,
    once the category of the changelist is known. *)
Definition add_changelist (cl : positive) (attention : Category)
    (result : Map.t (list positive)) : Map.t (list positive) :=
  if SearchResult.includes (bucket result attention) cl
  then (if Map.has result attention then result
        else Map.put result attention [])
  else Map.put result attention (bucket result attention ++ [cl]).

(** [array.push(x)] unless [array.includes(x)]. *)
Definition push_new (cls : list positive) (cl : positive) : list positive :=
  if SearchResult.includes cls cl then cls else cls ++ [cl].

(** ** The words of further properties *)

(** The world [w'] differs from [w] at most in the memoised fields of the
    object at [this] and in the readings taken from the clock: the reply
    and the host of that object, every other object and the clock itself
    are the same. *)
Definition only_memoises (this : positive) (w w' : Changelist.World) : Prop :=
  Changelist.clock w' = Changelist.clock w
  ∧ (Changelist.ticks w ≤ Changelist.ticks w')%nat
  ∧ (∀ l, l ≠ this → Changelist.heap w' !! l = Changelist.heap w !! l)
  ∧ (∀ o, Changelist.heap w !! this = Some o
          → ∃ o', Changelist.heap w' !! this = Some o'
                  ∧ Changelist.json_ o' = Changelist.json_ o
                  ∧ Changelist.host_ o' = Changelist.host_ o).

(** Every run of [m] that returns only memoises, and reads the clock at
    most [n] times. *)
Definition memoising {A} (this : positive) (n : nat) (m : Changelist.W A)
  : Prop :=
  ∀ w a w', m w = Ok (a, w')
            → only_memoises this w w'
              ∧ (Changelist.ticks w' ≤ Changelist.ticks w + n)%nat.

(** An entry of a label that counts as a reviewer: it has an identity,
    which is not 0 and not the owner's. *)
Definition is_reviewer (json : ChangeInfo) (r : ApprovalInfo) : Prop :=
  ∃ id, approval_account_id r = Some id
        ∧ id ≠ 0 ∧ id ≠ _account_id (owner json).

(** The star label has the shape of a marker: two parts around one "/",
    the first "reviewed" or "unreviewed". *)
Definition marker_shaped (star_label : jsstring) : bool :=
  match JS.split 47 star_label with
  | [part0; part1] =>
      bool_decide (part0 = lit "reviewed" ∨ part0 = lit "unreviewed")
  | _ => false
  end.

(** The reply with other star labels. *)
Definition with_stars (json : ChangeInfo) (star_labels : option (list jsstring))
  : ChangeInfo :=
  {| owner := owner json;
     project := project json;
     change_number := change_number json;
     submittable := submittable json;
     unresolved_comment_count := unresolved_comment_count json;
     work_in_progress := work_in_progress json;
     insertions := insertions json;
     deletions := deletions json;
     labels := labels json;
     messages := messages json;
     stars := star_labels;
     revisions := revisions json;
     current_revision := current_revision json |}.

(** The seven categories. *)
Definition all_categories : list Category :=
  [NONE; STALE; NO_REVIEWERS; WIP; INCOMING_NEEDS_ATTENTION;
   OUTGOING_NEEDS_ATTENTION; READY_TO_SUBMIT].

(** The reply has the revision it names as current. *)
Definition has_current_revision (json : ChangeInfo) : Prop :=
  is_Some (revisions json !! current_revision json).

(** The changelists at the addresses [cls] are objects for the replies
    [data], one for one. *)
Definition hold_all (w : Changelist.World) (cls : list positive)
    (data : list ChangeInfo) : Prop :=
  Forall2 (holds w) cls data.

(** What the network answers the first attempt of a request, the
    refreshing [fetch] and the second attempt. *)
Definition first_answer (host path : jsstring)
    (params : option (list (jsstring * jsstring))) (n : Net)
  : Promise jsstring :=
  fetchUrl_answer n (length (fetchUrl_calls n)) (host ++ path) params.

Definition refresh_answer (host : jsstring) (n : Net) : Promise unit :=
  fetch_answer n (length (fetch_calls n)) host.

Definition second_answer (host path : jsstring)
    (params : option (list (jsstring * jsstring))) (n : Net)
  : Promise jsstring :=
  fetchUrl_answer n (S (length (fetchUrl_calls n))) (host ++ path) params.

(** The promise is rejected with a [FetchError] that is a login error. *)
Definition login_error {A} (p : Promise A) : Prop :=
  ∃ message, p = Rejected (FetchError true message).

(** The first five code units of the reply are not the prefix. *)
Definition unframed (reply : jsstring) : Prop := ¬ MAGIC `prefix_of` reply.

(** ** Inputs of the examples *)

Module Examples.

(** An engine that reads the one date of the examples: midnight of the
    first of January 2019 is 17897 days after the epoch. *)
Definition engine : Engine :=
  {| Date_parse s :=
       if bool_decide (s = lit "2019-01-01 00:00:00.000000000 UTC")
       then Some (17897 * 86400000)
       else None |}.

Definition alice : AccountInfo :=
  {| _account_id := 1000; account_name := Some (lit "Alice") |}.

Definition bob : AccountInfo :=
  {| _account_id := 2000; account_name := Some (lit "Bob") |}.

Definition message_of (author : AccountInfo) : MessageInfo :=
  {| tag := None; tag_ := None; real_author := author;
     date := lit "2019-01-01 00:00:00.000000000" |}.

(** The message Gerrit posts when a change is merged. *)
Definition merged_message : MessageInfo :=
  {| tag := Some (lit "autogenerated:gerrit:merged"); tag_ := None;
     real_author := alice;
     date := lit "2019-01-01 00:00:00.000000000" |}.

Definition vote (user : AccountInfo) (v : Z) : ApprovalInfo :=
  {| approval_account_id := Some (_account_id user);
     approval_value := Some v |}.

(** A change of Alice whose current patch set has the given number, with
    the given votes, messages and star labels. *)
Definition change_at (number : Z) (votes : list ApprovalInfo)
    (ms : list MessageInfo) (star_labels : list jsstring) : ChangeInfo :=
  {| owner := alice;
     project := lit "chromium/src";
     change_number := 42;
     submittable := Some false;
     unresolved_comment_count := Some 0;
     work_in_progress := None;
     insertions := 10;
     deletions := 2;
     labels := {[ lit "Code-Review" := {| label_all := Some votes |} ]};
     messages := ms;
     stars := Some star_labels;
     revisions := {[ lit "deadbeef" := {| _number := number |} ]};
     current_revision := lit "deadbeef" |}.

(** The change at patch set 3. *)
Definition change : list ApprovalInfo → list MessageInfo → list jsstring
                    → ChangeInfo :=
  change_at 3.

(** The same change, approved and marked work in progress. *)
Definition approved_change : ChangeInfo :=
  {| owner := alice;
     project := lit "chromium/src";
     change_number := 42;
     submittable := Some true;
     unresolved_comment_count := Some 0;
     work_in_progress := Some true;
     insertions := 10;
     deletions := 2;
     labels := {[ lit "Code-Review" := {| label_all := Some [vote bob 2] |} ]};
     messages := [];
     stars := None;
     revisions := {[ lit "deadbeef" := {| _number := 3 |} ]};
     current_revision := lit "deadbeef" |}.

(** A world with one freshly wrapped changelist, at address 1. *)
Definition world (json : ChangeInfo) (clock : nat → Z) : Changelist.World :=
  Changelist.mkWorld
    {[ 1%positive := Changelist.wrap (lit "https://example.org") json ]}
    clock 0.

(** One hour after the date of the messages, then two days after it. *)
Definition clock (tick : nat) : Z :=
  match tick with
  | O => 17897 * 86400000 + 3600000
  | _ => 17899 * 86400000
  end.

(** Bob voted +1, and starred patch set 3 as unreviewed. *)
Definition voted_and_starred : ChangeInfo :=
  change [vote bob 1] [] [lit "unreviewed/3"].

(** Bob starred patch set 3 as unreviewed, put a second star whose
    number cannot be read, and wrote the last message. *)
Definition unreadable_star : ChangeInfo :=
  change [] [message_of alice; message_of bob]
         [lit "unreviewed/3"; lit "reviewed/x"].

(** Bob starred patch sets 2 and 3. *)
Definition two_stars : ChangeInfo :=
  change [] [message_of alice; message_of bob]
         [lit "reviewed/2"; lit "unreviewed/3"].

(** Bob starred patch set 3 twice, as reviewed first. *)
Definition reviewed_then_unreviewed : ChangeInfo :=
  change [] [message_of bob; message_of alice]
         [lit "reviewed/3"; lit "unreviewed/3"].

(** A patch set numbered -1, starred as reviewed. *)
Definition patch_set_minus_one : ChangeInfo :=
  change_at (-1) [] [message_of alice; message_of bob] [lit "reviewed/-1"].

(** A patch set numbered -1, without a star; Bob wrote last. *)
Definition minus_one_unstarred : ChangeInfo :=
  change_at (-1) [] [message_of alice; message_of bob] [].

(** No star; Alice wrote after Bob. *)
Definition owner_wrote_last : ChangeInfo :=
  change [] [message_of bob; message_of alice] [].

(** Alice's change in review by Bob, with one message. *)
Definition in_review : ChangeInfo :=
  change [vote bob 0] [message_of alice] [].

End Examples.
(** ** Inputs of further examples *)

Module MoreExamples.

Import Examples.

Definition example_host : jsstring := lit "https://example.org".

(** Alice's change, on which only Alice has voted. *)
Definition own_vote : ChangeInfo :=
  change [vote alice 1] [] [].

(** Alice's change with one message, hers; nobody has voted, and Bob
    has starred patch set 2 as reviewed. *)
Definition unanswered : ChangeInfo :=
  change [] [message_of alice] [lit "reviewed/2"].

(** Bob starred patch set 3 as unreviewed and put the star "ignore". *)
Definition ignored : ChangeInfo :=
  change [] [message_of alice; message_of bob]
         [lit "ignore"; lit "unreviewed/3"].

(** A reply whose current revision is not among its revisions. *)
Definition missing_revision : ChangeInfo :=
  {| owner := alice;
     project := lit "chromium/src";
     change_number := 42;
     submittable := Some false;
     unresolved_comment_count := Some 0;
     work_in_progress := None;
     insertions := 10;
     deletions := 2;
     labels := ∅;
     messages := [];
     stars := None;
     revisions := {[ lit "deadbeef" := {| _number := 3 |} ]};
     current_revision := lit "cafe" |}.

(** A reply that names "constructor" as its current revision, and has
    one revision, under another name; Bob has starred patch set 3 as
    reviewed and Alice wrote the only message. *)
Definition named_constructor : ChangeInfo :=
  {| owner := alice;
     project := lit "chromium/src";
     change_number := 42;
     submittable := Some false;
     unresolved_comment_count := Some 0;
     work_in_progress := None;
     insertions := 10;
     deletions := 2;
     labels := ∅;
     messages := [message_of alice];
     stars := Some [lit "reviewed/3"];
     revisions := {[ lit "deadbeef" := {| _number := 3 |} ]};
     current_revision := lit "constructor" |}.

(** Two days, and three days, after the date of the messages. *)
Definition two_days_after (tick : nat) : Z := 17899 * 86400000.

Definition three_days_after (tick : nat) : Z := 17900 * 86400000.

(** A description of four lines, the last two being attributes. *)
Definition description : jsstring :=
  lit "Fix the parser" ++ [LF; LF] ++ lit "Bug: 123" ++ [LF]
  ++ lit "Change-Id: I0123".

(** A [JSON.parse] that reads one text, that of an account. *)
Definition json_account : JSON AccountInfo :=
  {| JSON_parse s :=
       if bool_decide (s = lit "{alice}") then Some alice else None |}.

Definition config : Config :=
  {| LOGIN_PROMPT := lit " Try logging in." |}.

(** A network on which the session has expired: the first attempt is
    answered with a login error, the refreshing succeeds, and every
    later attempt fails with another error. *)
Definition expired : Net :=
  {| fetchUrl_answer k url params :=
       match k with
       | O => Rejected (FetchError true (lit "login"))
       | _ => Rejected (Error (lit "offline"))
       end;
     fetch_answer k host := Resolved tt;
     fetchUrl_calls := [];
     fetch_calls := [] |}.

(** A network that answers every request with a page to log in. *)
Definition login_page : Net :=
  {| fetchUrl_answer k url params := Resolved (lit "<html>");
     fetch_answer k host := Resolved tt;
     fetchUrl_calls := [];
     fetch_calls := [] |}.

End MoreExamples.

(** * Properties *)

(** ** The monad *)

Lemma bind_Ok {St A B} (m : M St A) (k : A → M St B) s a s' :
  m s = Ok (a, s') → bind m k s = k a s'.
Proof. intros Hm. unfold bind. now rewrite Hm. Qed.

Lemma bind_TypeError {St A B} (m : M St A) (k : A → M St B) s :
  m s = TypeError → bind m k s = TypeError.
Proof. intros Hm. unfold bind. now rewrite Hm. Qed.

Lemma bind_inv {St A B} (m : M St A) (k : A → M St B) s b s' :
  bind m k s = Ok (b, s') → ∃ a s1, m s = Ok (a, s1) ∧ k a s1 = Ok (b, s').
Proof.
  unfold bind. destruct (m s) as [[a s1]|]; [|discriminate].
  intros Hk. now exists a, s1.
Qed.

Lemma last_element_app {A} (l : list A) (x : A) :
  last_element (l ++ [x]) = Some x.
Proof.
  unfold last_element. rewrite map_app. simpl. apply last_last.
Qed.

Lemma last_element_nil_inv {A} (l : list A) :
  last_element l = None → l = [].
Proof.
  destruct l as [|x l] using rev_ind; [reflexivity|].
  rewrite last_element_app. discriminate.
Qed.

Lemma last_element_Some {A} (l : list A) (x : A) :
  last_element l = Some x ↔ ∃ pre, l = pre ++ [x].
Proof.
  split.
  - destruct l as [|y l _] using rev_ind; [discriminate|].
    rewrite last_element_app. intros [= ->]. now exists l.
  - intros [pre ->]. apply last_element_app.
Qed.

(** ** Runs of the methods of a changelist *)

Section Runs.

Context {E : Engine}.

Import Changelist.

Lemma holds_wrap w this host json :
  heap w !! this = Some (wrap host json) → holds w this json.
Proof.
  intros Hl. exists (wrap host json). repeat split; try done.
Qed.

Lemma deref_run w this json :
  holds w this json →
  ∃ o, deref this w = Ok (o, w) ∧ json_ o = json ∧ coherent o.
Proof.
  intros (o & Hl & Hj & Hc). exists o. unfold deref. now rewrite Hl.
Qed.

(** Filling a memoised field with the value its getter computes keeps
    the object coherent. *)
Lemma assign_run w this json (f : t → t) :
  holds w this json →
  (∀ o, json_ o = json → coherent o → json_ (f o) = json ∧ coherent (f o)) →
  ∃ w', assign this f w = Ok (tt, w') ∧ holds w' this json
        ∧ clock w' = clock w ∧ ticks w' = ticks w.
Proof.
  intros (o & Hl & Hj & Hc) Hf. unfold assign. rewrite Hl.
  eexists. split; [reflexivity|]. split; [|done].
  exists (f o). simpl. rewrite lookup_insert_eq.
  destruct (Hf o Hj Hc). done.
Qed.

Ltac reader :=
  let o := fresh "o" in
  intros (o & Hl & <- & Hc);
  repeat (unfold bind, deref, ret; simpl; rewrite ?Hl); try reflexivity.

Lemma isOwner_run w this json user :
  holds w this json →
  isOwner this user w
  = Ok (_account_id (owner json) =? _account_id user, w).
Proof. unfold isOwner. reader. Qed.

Lemma isSubmittable_run w this json :
  holds w this json →
  isSubmittable this w = Ok (default false (submittable json), w).
Proof. unfold isSubmittable. reader. Qed.

Lemma hasUnresolvedComments_run w this json :
  holds w this json →
  hasUnresolvedComments this w = Ok (unresolved json, w).
Proof. unfold hasUnresolvedComments. reader. Qed.

Lemma isWorkInProgress_run w this json :
  holds w this json →
  isWorkInProgress this w = Ok (in_progress json, w).
Proof. unfold isWorkInProgress. reader. Qed.

Lemma getStars_run w this json :
  holds w this json →
  getStars this w = Ok (star_labels_of json, w).
Proof. unfold getStars. reader. Qed.

Lemma filterReviewers_run w this json filter :
  holds w this json →
  filterReviewers this filter w
  = Ok (List.filter (λ r, has_account_id r && filter r)
                    (code_review_all json), w).
Proof. unfold filterReviewers. reader. Qed.

Lemma hasReviewed_run w this json user :
  holds w this json →
  hasReviewed this user w = Ok (reviewed_by json user, w).
Proof.
  intros Hh. unfold hasReviewed.
  rewrite (bind_Ok _ _ _ _ _ (filterReviewers_run _ _ _ _ Hh)).
  reflexivity.
Qed.

Lemma getReviewers_run w this json :
  holds w this json →
  ∃ w', getReviewers this w = Ok (reviewers_of json, w')
        ∧ holds w' this json ∧ clock w' = clock w ∧ ticks w' = ticks w.
Proof.
  intros Hh. destruct (deref_run _ _ _ Hh) as (o & Hd & Hj & Hc).
  unfold getReviewers. rewrite (bind_Ok _ _ _ _ _ Hd).
  destruct (reviewers_ o) as [rs|] eqn:Hrs.
  - exists w. destruct Hc as (Hc & _). rewrite (Hc rs Hrs), Hj. done.
  - rewrite (bind_Ok _ _ _ _ _ (filterReviewers_run _ _ _ _ Hh)).
    subst json. fold (reviewers_of (json_ o)).
    edestruct (assign_run w this (json_ o)) as (w' & Ha & Hh' & Hck & Htk);
      [exact Hh| |].
    2:{ rewrite (bind_Ok _ _ _ _ _ Ha). exists w'. done. }
    intros o' Hj' (Hc1 & Hc2 & Hc3). split; [done|].
    repeat split; simpl; [|done|done].
    intros rs [= <-]. now rewrite Hj'.
Qed.

Lemma getMessages_run w this json :
  holds w this json →
  ∃ w', getMessages this w = Ok (messages_of json, w')
        ∧ holds w' this json ∧ clock w' = clock w ∧ ticks w' = ticks w.
Proof.
  intros Hh. destruct (deref_run _ _ _ Hh) as (o & Hd & Hj & Hc).
  unfold getMessages. rewrite (bind_Ok _ _ _ _ _ Hd).
  destruct (messages_ o) as [ms|] eqn:Hms.
  - exists w. destruct Hc as (_ & Hc & _). rewrite (Hc ms Hms), Hj. done.
  - subst json. fold (messages_of (json_ o)).
    edestruct (assign_run w this (json_ o)) as (w' & Ha & Hh' & Hck & Htk);
      [exact Hh| |].
    2:{ rewrite (bind_Ok _ _ _ _ _ Ha). exists w'. done. }
    intros o' Hj' (Hc1 & Hc2 & Hc3). split; [done|].
    repeat split; simpl; [done| |done].
    intros ms [= <-]. now rewrite Hj'.
Qed.

Lemma get_Own {A} (object : gmap jsstring A) (key : jsstring) (a : A) :
  object !! key = Some a → JS.get object key = JS.Own a.
Proof. unfold JS.get. by intros ->. Qed.

Lemma get_Own_inv {A} (object : gmap jsstring A) (key : jsstring) (a : A) :
  JS.get object key = JS.Own a → object !! key = Some a.
Proof.
  unfold JS.get. destruct (object !! key); [by intros [= ->]|].
  by case_bool_decide.
Qed.

Lemma getCurrentRevision_run w this json :
  holds w this json →
  ∃ w', getCurrentRevision this w = Ok (revision_of json, w')
        ∧ holds w' this json ∧ clock w' = clock w ∧ ticks w' = ticks w.
Proof.
  intros Hh. destruct (deref_run _ _ _ Hh) as (o & Hd & Hj & Hc).
  unfold getCurrentRevision. rewrite (bind_Ok _ _ _ _ _ Hd).
  destruct (current_revision_ o) as [r|] eqn:Hr.
  - exists w. destruct Hc as (_ & _ & Hc). rewrite (Hc r Hr), Hj. done.
  - subst json. fold (revision_of (json_ o)).
    edestruct (assign_run w this (json_ o)) as (w' & Ha & Hh' & Hck & Htk);
      [exact Hh| |].
    2:{ rewrite (bind_Ok _ _ _ _ _ Ha). exists w'. done. }
    intros o' Hj' (Hc1 & Hc2 & Hc3). split; [done|].
    repeat split; simpl; [done|done|].
    intros r [= <-]. now rewrite Hj'.
Qed.

End Runs.

Section CategoryRuns.

Context {E : Engine}.

Import Changelist.

Lemma isStale_run w this json :
  holds w this json →
  ∃ w', isStale this w = Ok (stale_at (now w) json, w')
        ∧ holds w' this json ∧ clock w' = clock w
        ∧ (ticks w ≤ ticks w' ≤ S (ticks w))%nat.
Proof.
  intros Hh.
  destruct (getMessages_run _ _ _ Hh) as (w1 & Hm & Hh1 & Hck & Htk).
  unfold isStale, stale_at. rewrite (bind_Ok _ _ _ _ _ Hm).
  destruct (match last_element _ with Some m => Some m | None => _ end)
    as [m|].
  - unfold bind, Date_now, ret, now. simpl. rewrite Hck, Htk.
    eexists. split; [reflexivity|]. simpl.
    destruct Hh1 as (o & Hl & Hj & Hc).
    repeat split; simpl; try done; try lia. exists o; done.
  - exists w1. unfold ret. repeat split; try done; try lia.
Qed.

Lemma authorCommentedAfterUser_run w this json user :
  holds w this json →
  ∃ w', authorCommentedAfterUser this user w
        = Ok (commented_after json user, w')
        ∧ holds w' this json ∧ clock w' = clock w ∧ ticks w' = ticks w.
Proof.
  intros Hh. destruct (deref_run _ _ _ Hh) as (o & Hd & Hj & Hc).
  destruct (getMessages_run _ _ _ Hh) as (w1 & Hm & Hh1 & Hck & Htk).
  unfold authorCommentedAfterUser, commented_after.
  rewrite (bind_Ok _ _ _ _ _ Hd), (bind_Ok _ _ _ _ _ Hm), Hj.
  exists w1. destruct (last_element _); done.
Qed.

(** [getCategory] returns what [category_at] gives for the reply, the
    user and the reading of the clock, and throws when it gives none;
    the object stays one for the same reply. *)
Lemma getCategory_run w this json user :
  holds w this json →
  match category_at (now w) json user with
  | Ok c =>
      ∃ w', getCategory this user w = Ok (c, w')
            ∧ holds w' this json ∧ clock w' = clock w
            ∧ (ticks w ≤ ticks w' ≤ S (ticks w))%nat
  | TypeError => getCategory this user w = TypeError
  end.
Proof.
  intros Hh. unfold getCategory, category_at.
  rewrite (bind_Ok _ _ _ _ _ (isOwner_run _ _ _ user Hh)).
  destruct (_ =? _).
  - (* the owner *)
    set (ready := bind (isSubmittable this) _).
    assert (ready w = Ok (default false (submittable json)
                          && negb (unresolved json), w)) as Hready.
    { unfold ready.
      rewrite (bind_Ok _ _ _ _ _ (isSubmittable_run _ _ _ Hh)).
      destruct (default false _); [|reflexivity].
      now rewrite (bind_Ok _ _ _ _ _ (hasUnresolvedComments_run _ _ _ Hh)). }
    rewrite (bind_Ok _ _ _ _ _ Hready). clear Hready ready.
    destruct (_ && _).
    { exists w. repeat split; try done; try lia. }
    rewrite (bind_Ok _ _ _ _ _ (isWorkInProgress_run _ _ _ Hh)).
    destruct (in_progress json).
    { exists w. repeat split; try done; try lia. }
    destruct (getReviewers_run _ _ _ Hh) as (w1 & Hr & Hh1 & Hck1 & Htk1).
    rewrite (bind_Ok _ _ _ _ _ Hr).
    destruct (_ =? _)%nat.
    { exists w1. repeat split; try done; try lia. }
    rewrite (bind_Ok _ _ _ _ _ (hasUnresolvedComments_run _ _ _ Hh1)).
    destruct (unresolved json).
    { exists w1. repeat split; try done; try lia. }
    destruct (isStale_run _ _ _ Hh1) as (w2 & Hs & Hh2 & Hck2 & Htk2).
    rewrite (bind_Ok _ _ _ _ _ Hs).
    replace (now w1) with (now w) by (unfold now; now rewrite Hck1, Htk1).
    destruct (stale_at (now w) json);
      (exists w2; repeat split; try done; try congruence; try lia).
  - (* another user *)
    rewrite (bind_Ok _ _ _ _ _ (hasReviewed_run _ _ _ user Hh)).
    destruct (reviewed_by json user); simpl.
    { exists w. repeat split; try done; try lia. }
    destruct (getCurrentRevision_run _ _ _ Hh) as (w1 & Hr & Hh1 & Hck1 & Htk1).
    rewrite (bind_Ok _ _ _ _ _ Hr).
    destruct (authorCommentedAfterUser_run _ _ _ user Hh1)
      as (w2 & Ha & Hh2 & Hck2 & Htk2).
    unfold revision_of, Revision.getNumber. simpl.
    destruct (JS.get (revisions json) (current_revision json))
      as [revision| |]; [| |reflexivity].
    + rewrite (bind_Ok _ _ w1 (Some (_number revision)) w1) by reflexivity.
      rewrite (bind_Ok _ _ _ _ _ (getStars_run _ _ _ Hh1)).
      destruct (star_loop _) as [latest verdict].
      unfold JS.num_eq_undefined. destruct (JS.num_eq _ _).
      { destruct (default false verdict);
          (exists w1; repeat split; try done; try lia). }
      rewrite (bind_Ok _ _ _ _ _ Ha).
      destruct (commented_after json user);
        (exists w2; repeat split; try done; try congruence; try lia).
    + rewrite (bind_Ok _ _ w1 None w1) by reflexivity.
      rewrite (bind_Ok _ _ _ _ _ (getStars_run _ _ _ Hh1)).
      destruct (star_loop _) as [latest verdict].
      unfold JS.num_eq_undefined.
      rewrite (bind_Ok _ _ _ _ _ Ha).
      destruct (commented_after json user);
        (exists w2; repeat split; try done; try congruence; try lia).
Qed.

(** The category without the world, for an object that holds [json]. *)
Lemma getCategory_outcome w this json user :
  holds w this json →
  outcome (getCategory this user w) = category_at (now w) json user.
Proof.
  intros Hh. pose proof (getCategory_run w this json user Hh) as Hrun.
  destruct (category_at _ _ _) as [c|].
  - destruct Hrun as (w' & -> & _). reflexivity.
  - now rewrite Hrun.
Qed.

End CategoryRuns.

(** ** Description.parse *)

Section DescriptionFacts.

Import Description.

Lemma split_cons sep s : ∃ line0 lines, JS.split sep s = line0 :: lines.
Proof.
  induction s as [|c s (l0 & ls & IH)]; simpl; [by eexists _, _|].
  destruct (c =? sep)%N; [by eexists _, _|].
  rewrite IH. by eexists _, _.
Qed.

Lemma join_cons sep x l : ∃ rest, JS.join sep (x :: l) = x ++ rest.
Proof.
  destruct l as [|y l]; simpl; [exists []; by rewrite app_nil_r|].
  by eexists.
Qed.

Lemma span_app (p : N → bool) (s : jsstring) :
  s = fst (JS.span p s) ++ snd (JS.span p s).
Proof.
  induction s as [|c s IH]; simpl; [done|].
  destruct (p c); [|done]. destruct (JS.span p s) as [a b]. simpl in *.
  by rewrite <- IH.
Qed.

Lemma span_all (p : N → bool) (s : jsstring) :
  Forall (λ c, p c = true) (fst (JS.span p s)).
Proof.
  induction s as [|c s IH]; simpl; [done|].
  destruct (p c) eqn:Hc; [|done]. destruct (JS.span p s) as [a b].
  by constructor.
Qed.

Lemma span_unique (p : N → bool) (a b : jsstring) :
  Forall (λ c, p c = true) a →
  match b with [] => True | c :: _ => p c = false end →
  JS.span p (a ++ b) = (a, b).
Proof.
  intros Ha Hb. induction Ha as [|c a Hc _ IH]; simpl.
  - destruct b as [|c b]; [done|]. simpl. by rewrite Hb.
  - by rewrite Hc, IH.
Qed.

Lemma key_not_space (c : N) : isKeyChar c = true → JS.isSpace c = false.
Proof.
  unfold isKeyChar, JS.isSpace, JS.isWhiteSpace, JS.isLineTerminator,
    JS.inRange.
  intros Hk. apply not_true_iff_false. intros Hs.
  repeat rewrite ?orb_true_iff, ?andb_true_iff, ?N.eqb_eq, ?N.leb_le in *.
  lia.
Qed.

Lemma separator_not_key (c : N) : isSeparator c = true → isKeyChar c = false.
Proof.
  unfold isKeyChar, isSeparator, JS.inRange.
  intros Hk. apply not_true_iff_false. intros Hs.
  repeat rewrite ?orb_true_iff, ?andb_true_iff, ?N.eqb_eq, ?N.leb_le in *.
  lia.
Qed.

Lemma forallb_isDot (value : jsstring) :
  forallb isDot value = true
  ↔ Forall (λ c, JS.isLineTerminator c = false) value.
Proof.
  rewrite forallb_forall, List.Forall_forall. unfold isDot.
  split; intros Hall c Hc; specialize (Hall c Hc);
    by destruct (JS.isLineTerminator c).
Qed.

(** [ATTRIBUTE_RE_exec] finds the match of the regular expression, which
    is the only one. *)
Lemma ATTRIBUTE_RE_exec_spec (line key value : jsstring) :
  ATTRIBUTE_RE_exec line = Some (key, value)
  ↔ matches_ATTRIBUTE_RE line key value.
Proof.
  unfold ATTRIBUTE_RE_exec, matches_ATTRIBUTE_RE. split.
  - pose proof (span_app JS.isSpace line) as Hline.
    pose proof (span_all JS.isSpace line) as Hws.
    destruct (JS.span JS.isSpace line) as [ws s1]. simpl in *.
    pose proof (span_app isKeyChar s1) as Hs1.
    pose proof (span_all isKeyChar s1) as Hkey.
    destruct (JS.span isKeyChar s1) as [k s2]. simpl in *.
    destruct k as [|c k]; [done|]. destruct s2 as [|sep v]; [done|].
    destruct (isSeparator sep) eqn:Hsep; [|done]. simpl.
    destruct (forallb isDot v) eqn:Hv; [|done]. intros [= <- <-].
    exists ws, sep. rewrite Hline, Hs1. split_and!; try done.
    by apply forallb_isDot.
  - intros (ws & sep & -> & Hws & Hne & Hkey & Hsep & Hv).
    destruct key as [|c key]; [done|].
    rewrite (span_unique _ _ _ Hws).
    2:{ simpl. apply key_not_space. by inversion Hkey. }
    rewrite (span_unique isKeyChar (c :: key) (sep :: value) Hkey).
    2:{ by apply separator_not_key. }
    rewrite Hsep. simpl. by rewrite (proj2 (forallb_isDot value) Hv).
Qed.

Lemma peel_empty_spec lines c :
  (peel_empty lines c ≤ c)%nat
  ∧ omap ATTRIBUTE_RE_exec (drop (S (peel_empty lines c)) lines)
    = omap ATTRIBUTE_RE_exec (drop (S c) lines)
  ∧ (Forall peeled (drop (S c) lines)
     → Forall peeled (drop (S (peel_empty lines c)) lines)).
Proof.
  induction c as [|c (IHle & IHeq & IHall)]; simpl; [done|].
  unfold is_empty_line.
  destruct (lines !! S c) as [[|x line]|] eqn:Hl; try done.
  rewrite (drop_S _ _ _ Hl) in IHeq, IHall.
  split; [lia|]. split; [exact IHeq|].
  intros Hall. apply IHall. constructor; [by left|done].
Qed.

Lemma peel_attributes_spec lines c attributes c' attributes' :
  peel_attributes lines c attributes = (c', attributes') →
  Forall peeled (drop (S c) lines) →
  attributes = rev (omap ATTRIBUTE_RE_exec (drop (S c) lines)) →
  (c' ≤ c)%nat
  ∧ Forall peeled (drop (S c') lines)
  ∧ attributes' = rev (omap ATTRIBUTE_RE_exec (drop (S c') lines)).
Proof.
  revert attributes. induction c as [|c IH]; simpl; intros attributes.
  - by intros [= <- <-].
  - destruct (lines !! S c) as [line|] eqn:Hl; [|by intros [= <- <-]].
    assert (line = [] → peel_attributes lines c attributes = (c', attributes')
            → Forall peeled (drop (S (S c)) lines)
            → attributes = rev (omap ATTRIBUTE_RE_exec (drop (S (S c)) lines))
            → (c' ≤ S c)%nat ∧ Forall peeled (drop (S c') lines)
              ∧ attributes' = rev (omap ATTRIBUTE_RE_exec (drop (S c') lines)))
      as Hempty.
    { intros -> Hrun Hall Hattrs.
      destruct (IH attributes Hrun) as (Hle & Hall' & Hattrs').
      - rewrite (drop_S _ _ _ Hl). constructor; [by left|done].
      - by rewrite (drop_S _ _ _ Hl).
      - split; [lia|done]. }
    destruct line as [|x line]; [by apply Hempty|]. clear Hempty.
    destruct (ATTRIBUTE_RE_exec (x :: line)) as [kv|] eqn:Hexec;
      [|by intros [= <- <-]].
    intros Hrun Hall Hattrs.
    destruct (IH _ Hrun) as (Hle & Hall' & Hattrs').
    + rewrite (drop_S _ _ _ Hl). constructor; [|done].
      right. by rewrite Hexec.
    + rewrite (drop_S _ _ _ Hl). simpl. rewrite Hexec. simpl.
      by rewrite Hattrs.
    + split; [lia|done].
Qed.


End DescriptionFacts.

(** ** Message.shouldBeIgnored *)

Lemma startsWith_prefix (s p : jsstring) :
  JS.startsWith s p = true ↔ p `prefix_of` s.
Proof.
  revert s. induction p as [|c p IH]; intros s; simpl.
  - split; [intros _; apply prefix_nil|done].
  - destruct s as [|d s].
    + split; [done|]. intros [k Hk]. discriminate.
    + rewrite andb_true_iff, N.eqb_eq, IH. split.
      * intros [-> Hp]. by apply prefix_cons.
      * intros [k [= -> ->]]. split; [done|]. by exists k.
Qed.

(** The code decides on the property [tag_]: with that property in the
    place of the tag, the rule is the one its comment gives. *)
Lemma shouldBeIgnored_reads_tag_ (m : Message.t) :
  Message.shouldBeIgnored m = true
  ↔ ∃ t, tag_ (Message.json_ m) = Some t
         ∧ lit "autogenerated:" `prefix_of` t
         ∧ t ≠ lit "autogenerated:gerrit:newPatchSet"
         ∧ t ≠ lit "autogenerated:gerrit:newWipPatchSet".
Proof.
  unfold Message.shouldBeIgnored, JS.str_eq.
  destruct (tag_ (Message.json_ m)) as [t|]; [|split; [done|by intros (? & ? & _)]].
  destruct t as [|c t].
  { split; [done|]. intros (t & [= <-] & [k Hk] & _). discriminate. }
  set (t' := c :: t).
  destruct (JS.startsWith t' _) eqn:Hs; simpl.
  - apply startsWith_prefix in Hs.
    repeat case_bool_decide; split; try done.
    + intros (? & [= <-] & _ & Hne & _). done.
    + intros (? & [= <-] & _ & _ & Hne). done.
    + intros _. by exists t'.
  - split; [done|]. intros (? & [= <-] & Hp & _).
    apply startsWith_prefix in Hp. congruence.
Qed.

(** A message as Gerrit sends it has no property [tag_], and is kept. *)
Lemma shouldBeIgnored_without_tag_ (m : Message.t) :
  tag_ (Message.json_ m) = None → Message.shouldBeIgnored m = false.
Proof. unfold Message.shouldBeIgnored. by intros ->. Qed.

(** C1. The message Gerrit posts on a merge carries the tag
    "autogenerated:gerrit:merged", which starts with "autogenerated:" and
    is none of the two exempted tags, and [shouldBeIgnored] returns
    false for it: the method reads the property [tag_], not [tag]. *)
Theorem shouldBeIgnored_misses_tag :
  tagged_autogenerated Examples.merged_message
  ∧ Message.shouldBeIgnored (Message.wrap Examples.merged_message) = false.
Proof.
  split; [|reflexivity].
  exists (lit "autogenerated:gerrit:merged").
  split; [reflexivity|]. split; [|split; discriminate].
  by exists (lit "gerrit:merged").
Qed.

(** ** The last element that satisfies a test *)

Lemma filter_none {A} (p : A → bool) (l : list A) :
  Forall (λ x, p x ≠ true) l → List.filter p l = [].
Proof.
  induction 1 as [|x l Hx _ IH]; simpl; [done|].
  destruct (p x); [done|exact IH].
Qed.

Lemma last_such_filter {A} (p : A → bool) (l : list A) (m : A) :
  last_such (λ x, p x = true) l m → last_element (List.filter p l) = Some m.
Proof.
  intros (pre & post & -> & Hm & Hpost).
  rewrite List.filter_app. simpl. rewrite Hm, (filter_none _ _ Hpost).
  apply last_element_app.
Qed.

Lemma last_filter {A} (p : A → bool) (l : list A) :
  match last_element (List.filter p l) with
  | Some m => last_such (λ x, p x = true) l m
  | None => Forall (λ x, p x ≠ true) l
  end.
Proof.
  induction l as [|x l IH] using rev_ind; simpl; [done|].
  rewrite List.filter_app. simpl. destruct (p x) eqn:Hx.
  - rewrite last_element_app. by exists l, [].
  - rewrite app_nil_r. destruct (last_element (List.filter p l)) as [m|].
    + destruct IH as (pre & post & -> & Hm & Hpost).
      exists pre, (post ++ [x]). rewrite <- app_assoc. split; [done|].
      split; [done|]. apply Forall_app. split; [done|].
      constructor; [congruence|done].
    + apply Forall_app. split; [done|]. constructor; [congruence|done].
Qed.

Lemma last_such_iff {A} (P Q : A → Prop) (l : list A) (m : A) :
  (∀ x, P x ↔ Q x) → last_such P l m → last_such Q l m.
Proof.
  intros HPQ (pre & post & -> & Hm & Hpost). exists pre, post.
  split; [done|]. split; [by apply HPQ|].
  eapply Forall_impl; [exact Hpost|]. intros x Hx HQ. by apply Hx, HPQ.
Qed.

Lemma last_such_elem {A} (P : A → Prop) (l : list A) (m : A) :
  last_such P l m → m ∈ l ∧ P m.
Proof.
  intros (pre & post & -> & Hm & _). split; [|done].
  apply list_elem_of_In, in_elt.
Qed.

(** ** Changelist.isStale *)

Section Staleness.

Context {E : Engine}.

Import Changelist.

Lemma kept_iff (m : Message.t) :
  ¬ ignorable m ↔ negb (Message.shouldBeIgnored m) = true.
Proof.
  unfold ignorable. by destruct (Message.shouldBeIgnored m).
Qed.

(** The message the code settles on is the selected one. *)
Lemma selected_last (ms : list Message.t) (m : Message.t) :
  selected_message ms m →
  match last_element
          (List.filter (λ m, negb (Message.shouldBeIgnored m)) ms) with
  | Some m' => Some m'
  | None => last_element ms
  end = Some m.
Proof.
  intros [Hlast | (Hall & pre & ->)].
  - apply (last_such_iff _ _ _ _ kept_iff) in Hlast.
    by rewrite (last_such_filter _ _ _ Hlast).
  - rewrite filter_none; [apply last_element_app|].
    eapply Forall_impl; [exact Hall|]. intros x Hx. simpl.
    unfold ignorable in Hx. rewrite Hx. done.
Qed.

Lemma selected_exists (ms : list Message.t) :
  ms ≠ [] → ∃ m, selected_message ms m.
Proof.
  intros Hne.
  pose proof (last_filter (λ m, negb (Message.shouldBeIgnored m)) ms) as Hl.
  destruct (last_element _) as [m|].
  - exists m. left. eapply last_such_iff; [|exact Hl].
    intros x. symmetry. apply kept_iff.
  - destruct ms as [|x ms _] using rev_ind; [done|].
    exists x. right. split; [|by exists ms].
    eapply Forall_impl; [exact Hl|]. intros y Hy. unfold ignorable.
    simpl in Hy. destruct (Message.shouldBeIgnored y); simpl in *; congruence.
Qed.

Lemma older_than_a_day_spec (t : Z) (m : Message.t) :
  older_than_a_day t m = true ↔ day_older t m.
Proof.
  unfold older_than_a_day, day_older.
  destruct (Message.getTime m) as [tm|].
  - rewrite Z.ltb_lt. split.
    + intros Hlt. exists tm. split; [done|lia].
    + intros (? & [= <-] & Hlt). lia.
  - split; [done|]. by intros (? & ? & _).
Qed.

Lemma stale_at_selected (t : Z) (json : ChangeInfo) (m : Message.t) :
  selected_message (messages_of json) m →
  stale_at t json = older_than_a_day t m.
Proof. intros Hsel. unfold stale_at. by rewrite (selected_last _ _ Hsel). Qed.

Lemma stale_at_nil (t : Z) (json : ChangeInfo) :
  messages_of json = [] → stale_at t json = true.
Proof. intros Hnil. unfold stale_at. by rewrite Hnil. Qed.

Lemma stale_at_spec (t : Z) (json : ChangeInfo) :
  stale_at t json = true ↔ stale t (messages_of json).
Proof.
  destruct (decide (messages_of json = [])) as [Hnil|Hne].
  - rewrite (stale_at_nil _ _ Hnil). split; [by left|done].
  - destruct (selected_exists _ Hne) as (m & Hsel).
    rewrite (stale_at_selected _ _ _ Hsel), older_than_a_day_spec. split.
    + intros Hold. right. by exists m.
    + intros [Hnil | (m' & Hsel' & Hold)]; [done|].
      apply older_than_a_day_spec.
      rewrite <- (stale_at_selected t json m Hsel).
      rewrite (stale_at_selected t json m' Hsel').
      by apply older_than_a_day_spec.
Qed.

(** C6. [isStale] returns, and its answer is: true when the changelist
    has no message; otherwise it is decided on the selected message,
    which is the last one that is not ignorable, or the last one of all
    when every message is ignorable, and it is true if and only if the
    reading of the clock minus the time of that message exceeds
    86,400,000 milliseconds. *)
Theorem isStale_selected_message w this json :
  holds w this json →
  ∃ b w',
    isStale this w = Ok (b, w')
    ∧ (messages_of json = [] → b = true)
    ∧ (messages_of json ≠ [] → ∃ m, selected_message (messages_of json) m)
    ∧ (∀ m, selected_message (messages_of json) m
            → (b = true ↔ day_older (now w) m)).
Proof.
  intros Hh. destruct (isStale_run _ _ _ Hh) as (w' & Hrun & _).
  exists (stale_at (now w) json), w'. split; [done|].
  split; [apply stale_at_nil|]. split; [apply selected_exists|].
  intros m Hsel. rewrite (stale_at_selected _ _ _ Hsel).
  apply older_than_a_day_spec.
Qed.

End Staleness.

(** ** Changelist.getCategory *)

Section Categories.

Context {E : Engine}.

Import Changelist.

Lemma first_match_functional {A} (rules : list (Prop * A)) d (a b : A) :
  first_match rules d a → first_match rules d b → a = b.
Proof.
  induction 1 as [d|P a rules d HP|P a rules d r HP _ IH];
    inversion 1; subst; try done. by apply IH.
Qed.

Lemma is_owner_eqb (json : ChangeInfo) (user : AccountInfo) :
  (_account_id (owner json) =? _account_id user) = true ↔ is_owner json user.
Proof. apply Z.eqb_eq. Qed.

Lemma ready_iff (json : ChangeInfo) :
  default false (submittable json) && negb (unresolved json) = true
  ↔ submittable json = Some true ∧ no_unresolved_comments json.
Proof.
  unfold unresolved, no_unresolved_comments.
  destruct (submittable json) as [[|]|];
    destruct (unresolved_comment_count json) as [n|]; simpl;
    try (split; [done|by intros [? ?]]).
  rewrite negb_involutive, Z.eqb_eq. split; [by intros ->|].
  by intros [_ [= ->]].
Qed.

Lemma unresolved_iff (json : ChangeInfo) :
  unresolved json = true ↔ ¬ no_unresolved_comments json.
Proof.
  unfold unresolved, no_unresolved_comments.
  destruct (unresolved_comment_count json) as [n|]; [|done].
  rewrite negb_true_iff, Z.eqb_neq. split; [congruence|].
  intros Hn ->. done.
Qed.

Lemma in_progress_iff (json : ChangeInfo) :
  in_progress json = true ↔ work_in_progress json = Some true.
Proof.
  unfold in_progress. by destruct (work_in_progress json) as [[|]|].
Qed.

Lemma length_zero_iff {A} (l : list A) :
  (length l =? 0)%nat = true ↔ l = [].
Proof. by destruct l. Qed.

(** C3. For the owner, [getCategory] returns, and what it returns is the
    first match of the five rules in their order, [NONE] when no rule
    applies: READY_TO_SUBMIT if submittable with no unresolved comment,
    WORK_IN_PROGRESS if marked so, NO_REVIEWERS if the reviewer list is
    empty, OUTGOING_NEEDS_ATTENTION if a comment is unresolved, STALE if
    the changelist is stale. In particular a submittable changelist
    with no unresolved comment is READY_TO_SUBMIT whatever its
    work-in-progress flag. *)
Theorem owner_first_match w this json user :
  holds w this json →
  is_owner json user →
  ∃ c w',
    getCategory this user w = Ok (c, w')
    ∧ first_match (owner_rules (now w) json) NONE c
    ∧ (submittable json = Some true → no_unresolved_comments json
       → c = READY_TO_SUBMIT).
Proof.
  intros Hh Ho. pose proof (getCategory_run w this json user Hh) as Hrun.
  unfold category_at in Hrun.
  rewrite (proj2 (is_owner_eqb _ _) Ho) in Hrun.
  destruct (default false _ && negb _) eqn:Hready.
  { destruct Hrun as (w' & Hrun & _). exists READY_TO_SUBMIT, w'.
    apply ready_iff in Hready. split; [done|].
    split; [by apply first_match_here|done]. }
  assert (¬ (submittable json = Some true ∧ no_unresolved_comments json))
    as Hnready by (rewrite <- ready_iff; congruence).
  destruct (in_progress json) eqn:Hwip.
  { destruct Hrun as (w' & Hrun & _). exists WIP, w'.
    apply in_progress_iff in Hwip. split; [done|]. split; [|tauto].
    apply first_match_next; [done|]. by apply first_match_here. }
  assert (work_in_progress json ≠ Some true)
    as Hnwip by (rewrite <- in_progress_iff; congruence).
  destruct (length (reviewers_of json) =? 0)%nat eqn:Hrev.
  { destruct Hrun as (w' & Hrun & _). exists NO_REVIEWERS, w'.
    apply length_zero_iff in Hrev. split; [done|]. split; [|tauto].
    do 2 (apply first_match_next; [done|]). by apply first_match_here. }
  assert (reviewers_of json ≠ [])
    as Hnrev by (rewrite <- length_zero_iff; congruence).
  destruct (unresolved json) eqn:Hunres.
  { destruct Hrun as (w' & Hrun & _). exists OUTGOING_NEEDS_ATTENTION, w'.
    apply unresolved_iff in Hunres. split; [done|]. split; [|tauto].
    do 3 (apply first_match_next; [done|]). by apply first_match_here. }
  assert (¬ ¬ no_unresolved_comments json)
    as Hnunres by (rewrite <- unresolved_iff; congruence).
  destruct (stale_at (now w) json) eqn:Hstale.
  { destruct Hrun as (w' & Hrun & _). exists STALE, w'.
    apply stale_at_spec in Hstale. split; [done|]. split; [|tauto].
    do 4 (apply first_match_next; [done|]). by apply first_match_here. }
  assert (¬ stale (now w) (messages_of json))
    as Hnstale by (rewrite <- stale_at_spec; congruence).
  destruct Hrun as (w' & Hrun & _). exists NONE, w'.
  split; [done|]. split; [|tauto].
  do 5 (apply first_match_next; [done|]). apply first_match_nil.
Qed.

End Categories.

(** ** The loop over the star labels *)

Section Stars.

Context {E : Engine}.

Import Changelist.

(** A turn of the loop leaves the state alone, or the label has the
    shape of a marker and a number that is not at most the latest, and
    the state takes its number and its verdict. *)
Lemma star_step_cases (st : JS.num * option bool) (label : jsstring) :
  star_step st label = st
  ∨ ∃ part0 part1,
      JS.split 47 label = [part0; part1]
      ∧ (part0 = lit "reviewed" ∨ part0 = lit "unreviewed")
      ∧ JS.num_le (JS.parseInt part1) (fst st) = false
      ∧ star_step st label
        = (JS.parseInt part1, Some (bool_decide (part0 = lit "reviewed"))).
Proof.
  unfold star_step, JS.str_eq. destruct st as [latest verdict].
  destruct (JS.split 47 label) as [|part0 [|part1 [|? ?]]]; try by left.
  do 2 case_bool_decide; simpl; try by left.
  all: destruct (JS.num_le _ _) eqn:Hle; [by left|right].
  all: exists part0, part1; simplify_eq/=; split_and!; auto.
Qed.

Lemma marker_of_shape (label part0 part1 : jsstring) :
  JS.split 47 label = [part0; part1] →
  part0 = lit "reviewed" ∨ part0 = lit "unreviewed" →
  marker_of label
  = match JS.parseInt part1 with
    | JS.Num n => Some (bool_decide (part0 = lit "reviewed"), n)
    | JS.NaN => None
    end.
Proof.
  intros Hsplit Hshape. unfold marker_of. rewrite Hsplit.
  by rewrite bool_decide_eq_true_2.
Qed.

Lemma marker_of_inv (label : jsstring) (reviewed : bool) (n : Z) :
  marker_of label = Some (reviewed, n) →
  ∃ part0 part1,
    JS.split 47 label = [part0; part1]
    ∧ (part0 = lit "reviewed" ∨ part0 = lit "unreviewed")
    ∧ JS.parseInt part1 = JS.Num n
    ∧ reviewed = bool_decide (part0 = lit "reviewed").
Proof.
  unfold marker_of.
  destruct (JS.split 47 label) as [|part0 [|part1 [|? ?]]]; try done.
  case_bool_decide; [|done].
  destruct (JS.parseInt part1) as [|z] eqn:Hp; [done|].
  intros [= <- <-]. by exists part0, part1.
Qed.

(** The number the loop ends with is the -1 it starts from, or [NaN],
    or the number of a marker. *)
Lemma star_loop_number (star_labels : list jsstring) (n : Z) :
  fst (star_loop star_labels) = JS.Num n →
  n = -1 ∨ ∃ reviewed, (reviewed, n) ∈ markers star_labels.
Proof.
  unfold star_loop, markers.
  assert (∀ st, fst (fold_left star_step star_labels st) = JS.Num n
                → fst st = JS.Num n
                  ∨ ∃ reviewed, (reviewed, n) ∈ omap marker_of star_labels)
    as Hgen.
  { induction star_labels as [|label labels IH]; intros st; [by left|].
    intros Hfold. simpl in Hfold.
    destruct (IH _ Hfold) as [Hstep|(v & Hv)].
    - destruct (star_step_cases st label)
        as [Heq|(p0 & p1 & Hsplit & Hshape & _ & Heq)];
        rewrite Heq in Hstep; [by left|]. simpl in Hstep.
      right. exists (bool_decide (p0 = lit "reviewed")).
      apply list_elem_of_omap. exists label. split; [left|].
      by rewrite (marker_of_shape _ _ _ Hsplit Hshape), Hstep.
    - right. exists v. apply list_elem_of_omap in Hv as (x & Hx & Hm).
      apply list_elem_of_omap. exists x. split; [by right|done]. }
  intros Hfold. destruct (Hgen _ Hfold) as [[= <-]|?]; [by left|by right].
Qed.

(** The state the loop ends in is the one it starts from, or has [NaN]
    for its number, or has the number and the verdict of a marker. *)
Lemma star_loop_state (star_labels : list jsstring) :
  star_loop star_labels = (JS.Num (-1), None)
  ∨ fst (star_loop star_labels) = JS.NaN
  ∨ ∃ reviewed n,
      star_loop star_labels = (JS.Num n, Some reviewed)
      ∧ (reviewed, n) ∈ markers star_labels.
Proof.
  unfold star_loop, markers.
  induction star_labels as [|label labels IH] using rev_ind; [by left|].
  rewrite fold_left_app, omap_app. cbn [fold_left].
  destruct (star_step_cases (fold_left star_step labels (JS.Num (-1), None))
              label)
    as [->|(p0 & p1 & Hsplit & Hshape & _ & ->)].
  - destruct IH as [?|[?|(v & n & ? & Hin)]]; [by left|right; by left|].
    right. right. exists v, n. split; [done|].
    apply elem_of_app. by left.
  - cbn [fst]. destruct (JS.parseInt p1) as [|n] eqn:Hp; [right; by left|].
    right. right. exists (bool_decide (p0 = lit "reviewed")), n.
    split; [done|]. apply elem_of_app. right.
    apply list_elem_of_omap. exists label. split; [by left|].
    by rewrite (marker_of_shape _ _ _ Hsplit Hshape), Hp.
Qed.

(** The loop on labels that all carry a number keeps the best marker. *)
Lemma star_step_numbered (best : option (bool * Z)) (label : jsstring) :
  numbered label →
  star_step (loop_state_of best) label
  = loop_state_of (match marker_of label with
                   | Some m => higher best m
                   | None => best
                   end).
Proof.
  intros Hnum.
  destruct (star_step_cases (loop_state_of best) label)
    as [Heq|(p0 & p1 & Hsplit & Hshape & Hle & Heq)]; rewrite Heq.
  - destruct (marker_of label) as [[v n]|] eqn:Hm; [|done].
    apply marker_of_inv in Hm as (p0 & p1 & Hsplit & Hshape & Hp & ->).
    revert Heq. unfold star_step, JS.str_eq. rewrite Hsplit, Hp.
    assert (negb (bool_decide (p0 = lit "reviewed"))
            && negb (bool_decide (p0 = lit "unreviewed")) = false) as ->.
    { destruct Hshape as [-> | ->]; by vm_compute. }
    destruct best as [[v' n']|]; simpl.
    + destruct (-1 <? n') eqn:Hn'; simpl.
      * destruct (n <=? n') eqn:Hnn; [|by intros [= ?]; lia].
        intros _. assert ((n' <? n) = false) as -> by lia. simpl.
        by rewrite Hn'.
      * destruct (n <=? -1) eqn:Hnn; [|by intros [= ?]; lia].
        intros _. destruct (n' <? n); simpl; [|by rewrite Hn'].
        by assert ((-1 <? n) = false) as -> by lia.
    + destruct (n <=? -1) eqn:Hnn; [|by intros [= ?]; lia].
      intros _. by assert ((-1 <? n) = false) as -> by lia.
  - rewrite (marker_of_shape _ _ _ Hsplit Hshape).
    unfold numbered in Hnum. rewrite Hsplit in Hnum.
    destruct (JS.parseInt p1) as [|n]; [by destruct (Hnum Hshape)|].
    destruct best as [[v' n']|]; simpl in *.
    + destruct (-1 <? n') eqn:Hn'; simpl in *.
      * assert ((n' <? n) = true) as -> by lia.
        simpl. by assert ((-1 <? n) = true) as -> by lia.
      * assert ((n' <? n) = true) as -> by lia.
        simpl. by assert ((-1 <? n) = true) as -> by lia.
    + by assert ((-1 <? n) = true) as -> by lia.
Qed.

Lemma star_loop_numbered (star_labels : list jsstring) :
  Forall numbered star_labels →
  star_loop star_labels = loop_state_of (highest_marker star_labels).
Proof.
  intros Hall. unfold star_loop, highest_marker, markers.
  change (JS.Num (-1), None) with (loop_state_of None).
  generalize (@None (bool * Z)) as best.
  induction Hall as [|label labels Hnum _ IH]; intros best; simpl; [done|].
  rewrite (star_step_numbered _ _ Hnum).
  destruct (marker_of label) as [m|]; apply IH.
Qed.

(** The marker [highest_marker] gives is one of the markers, and none
    has a higher number. *)
Lemma highest_marker_max (star_labels : list jsstring) reviewed n :
  highest_marker star_labels = Some (reviewed, n) →
  (reviewed, n) ∈ markers star_labels
  ∧ ∀ reviewed' n', (reviewed', n') ∈ markers star_labels → n' ≤ n.
Proof.
  unfold highest_marker.
  assert (∀ ms best,
            fold_left higher ms best = Some (reviewed, n) →
            (best = Some (reviewed, n) ∨ (reviewed, n) ∈ ms)
            ∧ (∀ v' n', best = Some (v', n') ∨ (v', n') ∈ ms → n' ≤ n))
    as Hgen.
  { induction ms as [|[v m] ms IH]; intros best; simpl.
    - intros ->. split; [by left|]. intros v' n' [[= -> ->]|Hin]; [lia|].
      by apply elem_of_nil in Hin.
    - intros Hfold. destruct (IH _ Hfold) as (Hin & Hmax). split.
      + destruct Hin as [Hbest|Hin]; [|right; by right].
        destruct best as [[vb nb]|]; simpl in Hbest.
        * destruct (nb <? m); [|by left]. simplify_eq. right. left.
        * simplify_eq. right. left.
      + clear Hin. intros v' n' [Hbest|Hin].
        * subst best. simpl in *. destruct (n' <? m) eqn:Hlt.
          -- specialize (Hmax v m (or_introl eq_refl)). lia.
          -- apply (Hmax v' n'). by left.
        * apply elem_of_cons in Hin as [[= -> ->]|Hin].
          -- destruct best as [[vb nb]|]; simpl in *.
             ++ destruct (nb <? m) eqn:Hlt.
                ** apply (Hmax v m). by left.
                ** specialize (Hmax vb nb (or_introl eq_refl)). lia.
             ++ apply (Hmax v m). by left.
          -- apply (Hmax v' n'). by right. }
  intros Hfold. destruct (Hgen _ _ Hfold) as ([?|Hin] & Hmax); [done|].
  split; [done|]. intros v' n' Hin'. apply (Hmax v' n'). by right.
Qed.

End Stars.

Section OtherUser.

Context {E : Engine}.

Import Changelist.

Lemma filter_length_zero {A} (p : A → bool) (l : list A) :
  (length (List.filter p l) =? 0)%nat = false ↔ ∃ x, x ∈ l ∧ p x = true.
Proof.
  rewrite <- not_true_iff_false, length_zero_iff. split.
  - intros Hne. destruct (List.filter p l) as [|x l'] eqn:Hf; [done|].
    exists x. rewrite list_elem_of_In. apply filter_In. rewrite Hf. by left.
  - intros (x & Hx & Hp) Hnil.
    assert (In x (List.filter p l)) as Hin
      by (apply filter_In; by rewrite <- list_elem_of_In).
    by rewrite Hnil in Hin.
Qed.

(** [hasReviewed] is true exactly when the user has an entry with an
    identity and a positive vote. *)
Lemma reviewed_by_spec (json : ChangeInfo) (user : AccountInfo) :
  reviewed_by json user = true ↔ voted_positive json user.
Proof.
  unfold reviewed_by, voted_positive.
  rewrite negb_true_iff, filter_length_zero. split.
  - intros (r & Hr & Hp). apply andb_true_iff in Hp as [Hid Hp].
    apply andb_true_iff in Hp as [Hv Hu].
    unfold has_account_id, value_positive, account_id_is in *.
    destruct (approval_account_id r) as [n|] eqn:Hn; [|done].
    destruct (approval_value r) as [v|] eqn:Hval; [|done].
    apply Z.eqb_eq in Hu as ->. apply negb_true_iff, Z.eqb_neq in Hid.
    apply Z.ltb_lt in Hv. by exists r, v.
  - intros (r & v & Hr & Hid & Hne & Hv & Hpos). exists r. split; [done|].
    unfold has_account_id, value_positive, account_id_is.
    rewrite Hid, Hv. rewrite !andb_true_iff, negb_true_iff.
    by rewrite Z.eqb_neq, Z.ltb_lt, Z.eqb_eq.
Qed.

Lemma hasReviewed_spec w this json user :
  holds w this json →
  ∃ b, hasReviewed this user w = Ok (b, w)
       ∧ (b = true ↔ voted_positive json user).
Proof.
  intros Hh. exists (reviewed_by json user).
  split; [by apply hasReviewed_run|apply reviewed_by_spec].
Qed.

Lemma relevant_iff (json : ChangeInfo) (user : AccountInfo) (m : Message.t) :
  relevant json user m
  ↔ (if Message.shouldBeIgnored m then false
     else Message.isAuthoredBy m user
          || Message.isAuthoredBy m (owner json)) = true.
Proof.
  unfold relevant, ignorable.
  destruct (Message.shouldBeIgnored m).
  - split; [by intros [Hn _]|done].
  - rewrite orb_true_iff. split; [by intros [_ ?]|done].
Qed.

Lemma commented_after_none (json : ChangeInfo) (user : AccountInfo) :
  Forall (λ m, ¬ relevant json user m) (messages_of json) →
  commented_after json user = true.
Proof.
  intros Hall. unfold commented_after. rewrite filter_none; [done|].
  eapply Forall_impl; [exact Hall|]. intros m Hm. simpl.
  by rewrite <- relevant_iff.
Qed.

Lemma commented_after_last (json : ChangeInfo) (user : AccountInfo) m :
  last_such (relevant json user) (messages_of json) m →
  commented_after json user = Message.isAuthoredBy m (owner json).
Proof.
  intros Hlast. unfold commented_after.
  apply (last_such_iff _ _ _ _ (relevant_iff json user)) in Hlast.
  by rewrite (last_such_filter _ _ _ Hlast).
Qed.


End OtherUser.

(** ** The categories of a user who is not the owner *)

Section OtherUserClaims.

Context {E : Engine}.

Import Changelist.

(** C10. Whatever [getCategory] returns for a user who is not the owner
    is NONE or INCOMING_NEEDS_ATTENTION; so STALE, WORK_IN_PROGRESS,
    NO_REVIEWERS, OUTGOING_NEEDS_ATTENTION and READY_TO_SUBMIT are only
    returned to the owner. The memoised fields may hold anything. *)
Theorem other_user_none_or_incoming w this o user c w' :
  heap w !! this = Some o →
  getCategory this user w = Ok (c, w') →
  (¬ is_owner (json_ o) user → c = NONE ∨ c = INCOMING_NEEDS_ATTENTION)
  ∧ (c ∈ [STALE; WIP; NO_REVIEWERS; OUTGOING_NEEDS_ATTENTION;
          READY_TO_SUBMIT]
     → is_owner (json_ o) user).
Proof.
  intros Hl Hrun.
  assert (¬ is_owner (json_ o) user
          → c = NONE ∨ c = INCOMING_NEEDS_ATTENTION) as Hother.
  { intros Hno. unfold getCategory in Hrun.
    apply bind_inv in Hrun as (b & w1 & Hown & Hrun).
    unfold isOwner, bind, deref, ret in Hown. rewrite Hl in Hown.
    injection Hown as <- <-.
    rewrite (proj2 (Z.eqb_neq _ _) Hno) in Hrun.
    apply bind_inv in Hrun as (reviewed & w2 & _ & Hrun).
    destruct reviewed; simpl in Hrun; [left; by injection Hrun|].
    apply bind_inv in Hrun as (revision & w3 & _ & Hrun).
    apply bind_inv in Hrun as (number & w4 & _ & Hrun).
    apply bind_inv in Hrun as (star_labels & w5 & _ & Hrun).
    destruct (star_loop star_labels) as [latest verdict].
    destruct (JS.num_eq_undefined latest number).
    { destruct (default false verdict); injection Hrun as <- _; auto. }
    apply bind_inv in Hrun as (after & w6 & _ & Hrun).
    destruct after; injection Hrun as <- _; auto. }
  split; [exact Hother|]. intros Hc.
  destruct (decide (_account_id (owner (json_ o)) = _account_id user))
    as [|Hno]; [done|].
  destruct (Hother Hno) as [-> | ->];
    repeat (apply elem_of_cons in Hc as [Hc|Hc]; [discriminate Hc|]);
    by apply elem_of_nil in Hc.
Qed.

(** C2, amended. A user who is not the owner and has an entry with an
    identity and a positive vote gets NONE, whatever the star labels of
    the changelist: they are read only for a user who has not
    reviewed. *)
Theorem reviewed_is_none w this json user :
  holds w this json →
  ¬ is_owner json user →
  voted_positive json user →
  ∃ w', getCategory this user w = Ok (NONE, w').
Proof.
  intros Hh Ho Hv. pose proof (getCategory_run w this json user Hh) as Hrun.
  unfold category_at in Hrun.
  rewrite <- is_owner_eqb, not_true_iff_false in Ho. rewrite Ho in Hrun.
  rewrite <- reviewed_by_spec in Hv. rewrite Hv in Hrun.
  destruct Hrun as (w' & Hrun & _). by exists w'.
Qed.

(** Where the markers do decide. For a user who is not the owner and
    has not reviewed, when every star label with the shape of a marker
    carries a number that [parseInt] reads: if the first marker with the
    highest number is one for the current revision, and that number is
    not negative, [getCategory] returns NONE when the marker is
    "reviewed" and INCOMING_NEEDS_ATTENTION when it is "unreviewed". The
    numbers are the Numbers [parseInt] gives, so two labels may carry
    the same number from 2^53 on. *)
Theorem highest_marker_decides w this json user revision reviewed n :
  holds w this json →
  ¬ is_owner json user →
  ¬ voted_positive json user →
  revisions json !! current_revision json = Some revision →
  Forall numbered (star_labels_of json) →
  highest_marker (star_labels_of json) = Some (reviewed, n) →
  n = _number revision →
  0 ≤ n →
  ∃ w', getCategory this user w = Ok (of_verdict reviewed, w').
Proof.
  intros Hh Ho Hv Hrev Hnum Hhigh -> Hpos.
  pose proof (getCategory_run w this json user Hh) as Hrun.
  unfold category_at in Hrun.
  rewrite <- is_owner_eqb, not_true_iff_false in Ho. rewrite Ho in Hrun.
  rewrite <- reviewed_by_spec, not_true_iff_false in Hv.
  rewrite Hv, (get_Own _ _ _ Hrev), (star_loop_numbered _ Hnum), Hhigh in Hrun.
  simpl in Hrun.
  assert ((-1 <? _number revision) = true) as Hlt by lia.
  rewrite Hlt in Hrun. simpl in Hrun. rewrite Z.eqb_refl in Hrun.
  destruct Hrun as (w' & Hrun & _). exists w'.
  by destruct reviewed.
Qed.

(** C7, amended. The category is a function of the reply, the user and
    the reading of the clock: two invocations for the same reply and
    the same user return the same category, or both throw, whatever the
    memoised fields and the rest of the heap hold, when the clock reads
    the same or the user is not the owner. *)
Theorem category_of_reply_user_and_clock json user w1 this1 w2 this2 :
  holds w1 this1 json →
  holds w2 this2 json →
  now w1 = now w2 ∨ ¬ is_owner json user →
  outcome (getCategory this1 user w1) = outcome (getCategory this2 user w2).
Proof.
  intros Hh1 Hh2 Hsame.
  rewrite (getCategory_outcome _ _ _ _ Hh1), (getCategory_outcome _ _ _ _ Hh2).
  destruct Hsame as [-> | Ho]; [done|].
  unfold category_at.
  rewrite <- is_owner_eqb, not_true_iff_false in Ho. by rewrite Ho.
Qed.

End OtherUserClaims.

(** ** The map of [utils.js] *)

(** The string constants of the categories differ from one another, so a
    map keyed by them is a map keyed by the categories. *)
Lemma Category_value_inj (a b : Category) :
  Category_value a = Category_value b → a = b.
Proof. destruct a, b; intros Heq; try reflexivity; by vm_compute in Heq. Qed.

Lemma get_put_eq {V} (m : Map.t V) (k : Category) (v : V) :
  Map.get (Map.put m k v) k = Some v.
Proof.
  induction m as [|[k' v'] m IH]; simpl.
  - by rewrite decide_True.
  - destruct (decide (k' = k)) as [->|Hne]; simpl.
    + by rewrite decide_True.
    + by rewrite decide_False.
Qed.

Lemma get_put_ne {V} (m : Map.t V) (k k' : Category) (v : V) :
  k ≠ k' → Map.get (Map.put m k v) k' = Map.get m k'.
Proof.
  intros Hne. induction m as [|[k0 v0] m IH]; simpl.
  - by rewrite decide_False.
  - destruct (decide (k0 = k)) as [->|Hne0]; simpl.
    + by rewrite !decide_False.
    + by rewrite IH.
Qed.

Lemma keys_put {V} (m : Map.t V) (k : Category) (v : V) :
  NoDup (map fst m) → NoDup (map fst (Map.put m k v))
  ∧ ∀ k', k' ∈ map fst (Map.put m k v) → k' = k ∨ k' ∈ map fst m.
Proof.
  induction m as [|[k0 v0] m IH]; simpl.
  - intros _. split; [apply NoDup_singleton|].
    intros k' Hin. apply list_elem_of_singleton in Hin. by left.
  - intros Hnd. apply NoDup_cons in Hnd as [Hk0 Hnd].
    destruct (decide (k0 = k)) as [->|Hne]; simpl.
    + split; [by apply NoDup_cons|]. intros k' Hin. by right.
    + destruct (IH Hnd) as [Hnd' Hin']. split.
      * apply NoDup_cons. split; [|done]. intros Hin.
        destruct (Hin' _ Hin); [congruence|done].
      * intros k' Hin. apply elem_of_cons in Hin as [->|Hin];
          [right; left|].
        destruct (Hin' _ Hin); [by left|right; by right].
Qed.

Lemma get_not_key {V} (m : Map.t V) (k : Category) :
  k ∉ map fst m → Map.get m k = None.
Proof.
  induction m as [|[k0 v0] m IH]; simpl; [done|].
  intros Hnin. apply not_elem_of_cons in Hnin as [Hne Hnin].
  rewrite decide_False by done. by apply IH.
Qed.

Lemma bucket_put_eq (m : Map.t (list positive)) k v :
  bucket (Map.put m k v) k = v.
Proof. unfold bucket. by rewrite get_put_eq. Qed.

Lemma bucket_put_ne (m : Map.t (list positive)) k k' v :
  k ≠ k' → bucket (Map.put m k v) k' = bucket m k'.
Proof. intros Hne. unfold bucket. by rewrite get_put_ne. Qed.

(** ** The monad, on sequences *)

Lemma forEach_each {St A B C} (f : A → M St B) (g : A → B → C → C)
    (step : A → C → M St C) (l : list A) :
  (∀ x c s, step x c s = match f x s with
                         | Ok (y, s') => Ok (g x y c, s')
                         | TypeError => TypeError
                         end) →
  ∀ c s,
    forEach l step c s
    = match each f l s with
      | Ok (ys, s') => Ok (fold_left (λ c p, g (fst p) (snd p) c) (zip l ys) c, s')
      | TypeError => TypeError
      end.
Proof.
  intros Hstep. induction l as [|x l IH]; intros c s; [done|].
  cbn [forEach each]. unfold bind. rewrite Hstep.
  destruct (f x s) as [[y s1]|]; [|done].
  rewrite IH. by destruct (each f l s1) as [[ys s2]|].
Qed.

Lemma each_Forall {St A B} (f : A → M St B) (P : B → Prop) (l : list A) :
  (∀ x s y s', f x s = Ok (y, s') → P y) →
  ∀ s ys s', each f l s = Ok (ys, s') → Forall P ys.
Proof.
  intros Hf. induction l as [|x l IH]; intros s ys s'; simpl.
  - by intros [= <- _].
  - intros Hrun. apply bind_inv in Hrun as (y & s1 & Hy & Hrun).
    apply bind_inv in Hrun as (ys' & s2 & Hys & Hrun).
    injection Hrun as <- _. constructor; [by eapply Hf|by eapply IH].
Qed.

Lemma each_length {St A B} (f : A → M St B) (l : list A) :
  ∀ s ys s', each f l s = Ok (ys, s') → length ys = length l.
Proof.
  induction l as [|x l IH]; intros s ys s'; simpl.
  - by intros [= <- _].
  - intros Hrun. apply bind_inv in Hrun as (y & s1 & Hy & Hrun).
    apply bind_inv in Hrun as (ys' & s2 & Hys & Hrun).
    injection Hrun as <- _. simpl. f_equal. by eapply IH.
Qed.

(** ** SearchResult.getCategoryMap and SearchResults.getCategoryMap *)

Section Search.

Context {E : Engine}.

Lemma includes_elem (cls : list positive) (cl : positive) :
  SearchResult.includes cls cl = true ↔ cl ∈ cls.
Proof.
  unfold SearchResult.includes. rewrite existsb_exists. split.
  - intros (x & Hin & Heq). apply Pos.eqb_eq in Heq as ->.
    by apply list_elem_of_In.
  - intros Hin. exists cl. rewrite Pos.eqb_eq.
    by rewrite <- list_elem_of_In.
Qed.

Lemma put_put {V} (m : Map.t V) (k : Category) (v v' : V) :
  Map.put (Map.put m k v) k v' = Map.put m k v'.
Proof.
  induction m as [|[k0 v0] m IH]; simpl.
  - by rewrite decide_True.
  - destruct (decide (k0 = k)) as [->|Hne]; simpl.
    + by rewrite decide_True.
    + by rewrite decide_False, IH.
Qed.

(** The callback runs [getCategory] and then adds the changelist. *)
Lemma categorize_run user cl result w :
  SearchResult.categorize user cl result w
  = match Changelist.getCategory cl user w with
    | Ok (attention, w') => Ok (add_changelist cl attention result, w')
    | TypeError => TypeError
    end.
Proof.
  unfold SearchResult.categorize, bind.
  destruct (Changelist.getCategory cl user w) as [[attention w']|]; [|done].
  unfold add_changelist, bucket, Map.has.
  destruct (Map.get result attention) as [cls|] eqn:Hget; simpl.
  - rewrite Hget. by destruct (SearchResult.includes cls cl).
  - rewrite get_put_eq. simpl. by rewrite put_put.
Qed.

Lemma add_changelist_bucket cl attention result k :
  bucket (add_changelist cl attention result) k
  = if decide (attention = k) then push_new (bucket result attention) cl
    else bucket result k.
Proof.
  unfold add_changelist, push_new.
  destruct (decide (attention = k)) as [<-|Hne].
  - destruct (SearchResult.includes _ cl) eqn:Hinc;
      [|apply bucket_put_eq].
    unfold Map.has, bucket in *.
    destruct (Map.get result attention) eqn:Hget; simpl;
      [by rewrite Hget|by rewrite get_put_eq].
  - destruct (SearchResult.includes _ cl); [|by apply bucket_put_ne].
    destruct (Map.has result attention); [done|]. by apply bucket_put_ne.
Qed.

Lemma add_changelist_keys cl attention result :
  NoDup (map fst result) → NoDup (map fst (add_changelist cl attention result)).
Proof.
  intros Hnd. unfold add_changelist.
  destruct (SearchResult.includes _ cl); [|by apply keys_put].
  destruct (Map.has result attention); [done|by apply keys_put].
Qed.

Lemma fold_add_changelist (ps : list (positive * Category)) result k :
  bucket (fold_left (λ c p, add_changelist (fst p) (snd p) c) ps result) k
  = fold_left push_new
      (map fst (List.filter (λ p, bool_decide (snd p = k)) ps))
      (bucket result k).
Proof.
  revert result. induction ps as [|[cl a] ps IH]; intros result; [done|].
  simpl. rewrite IH, add_changelist_bucket.
  case_bool_decide as Ha; simpl.
  - subst a. by rewrite decide_True.
  - by rewrite decide_False.
Qed.

Lemma fold_add_changelist_keys (ps : list (positive * Category)) result :
  NoDup (map fst result) →
  NoDup (map fst (fold_left (λ c p, add_changelist (fst p) (snd p) c)
                            ps result)).
Proof.
  revert result. induction ps as [|[cl a] ps IH]; intros result Hnd; [done|].
  simpl. by apply IH, add_changelist_keys.
Qed.

Lemma filter_filter {A} (p q : A → bool) (l : list A) :
  List.filter p (List.filter q l) = List.filter (λ x, q x && p x) l.
Proof.
  induction l as [|x l IH]; simpl; [done|].
  destruct (q x); simpl; [|done]. destruct (p x); by rewrite IH.
Qed.

Lemma filter_all {A} (p : A → bool) (l : list A) :
  (∀ x, p x = true) → List.filter p l = l.
Proof.
  intros Hp. induction l as [|x l IH]; simpl; [done|].
  by rewrite Hp, IH.
Qed.

(** Pushing what is not yet included keeps the first occurrences. *)
Lemma fold_push_new (xs acc : list positive) :
  fold_left push_new xs acc
  = acc ++ List.filter (λ y, negb (SearchResult.includes acc y))
                       (first_seen xs).
Proof.
  revert acc. induction xs as [|x xs IH]; intros acc; simpl.
  - by rewrite app_nil_r.
  - rewrite IH. unfold push_new.
    destruct (SearchResult.includes acc x) eqn:Hinc; simpl.
    + f_equal. rewrite filter_filter. apply filter_ext. intros y.
      destruct (Pos.eqb_spec y x) as [->|Hne]; simpl; [by rewrite Hinc|done].
    + rewrite <- app_assoc. simpl. do 2 f_equal.
      rewrite filter_filter. apply filter_ext. intros y.
      unfold SearchResult.includes. rewrite existsb_app. simpl.
      rewrite orb_false_r, negb_orb. apply andb_comm.
Qed.

Lemma first_seen_NoDup (xs : list positive) : NoDup (first_seen xs).
Proof.
  induction xs as [|x xs IH]; simpl; [apply NoDup_nil_2|].
  apply NoDup_cons. split.
  - rewrite list_elem_of_In, filter_In, negb_true_iff, Pos.eqb_neq.
    by intros [_ ?].
  - apply NoDup_ListNoDup, List.NoDup_filter. by apply NoDup_ListNoDup.
Qed.

Lemma first_seen_elem (xs : list positive) (x : positive) :
  x ∈ first_seen xs ↔ x ∈ xs.
Proof.
  induction xs as [|y xs IH]; simpl; [done|].
  rewrite !elem_of_cons, <- IH. split.
  - intros [->|Hin]; [by left|].
    apply list_elem_of_In, filter_In in Hin as [Hin _].
    right. by apply list_elem_of_In.
  - intros [->|Hin]; [by left|].
    destruct (decide (x = y)) as [->|Hne]; [by left|right].
    apply list_elem_of_In, filter_In. split; [by apply list_elem_of_In|].
    by apply negb_true_iff, Pos.eqb_neq.
Qed.

Lemma getCategoryMap_run (this : SearchResult.t) w :
  SearchResult.getCategoryMap this w
  = match each (λ cl, Changelist.getCategory cl (SearchResult.user_ this))
               (SearchResult.data_ this) w with
    | Ok (cats, w') =>
        Ok (fold_left (λ c p, add_changelist (fst p) (snd p) c)
                      (zip (SearchResult.data_ this) cats) Map.new, w')
    | TypeError => TypeError
    end.
Proof.
  unfold SearchResult.getCategoryMap, SearchResult.getAccount.
  apply (forEach_each _ (λ cl a c, add_changelist cl a c)).
  intros cl c s. apply categorize_run.
Qed.

Lemma getCategoryMap_keys (this : SearchResult.t) w m w' :
  SearchResult.getCategoryMap this w = Ok (m, w') → NoDup (map fst m).
Proof.
  rewrite getCategoryMap_run. destruct (each _ _ w) as [[cats w1]|]; [|done].
  intros [= <- _]. apply fold_add_changelist_keys, NoDup_nil_2.
Qed.

Lemma merge_bucket attention cls categories k :
  bucket (SearchResults.merge attention cls categories) k
  = if decide (attention = k) then bucket categories attention ++ cls
    else bucket categories k.
Proof.
  unfold SearchResults.merge.
  destruct (decide (attention = k)) as [<-|Hne].
  - rewrite bucket_put_eq. unfold bucket, Map.has.
    destruct (Map.get categories attention) eqn:Hget; simpl;
      [by rewrite Hget|by rewrite get_put_eq].
  - rewrite bucket_put_ne by done.
    destruct (Map.has categories attention); [done|].
    by apply bucket_put_ne.
Qed.

Lemma bucket_cons a cls (m : Map.t (list positive)) k :
  bucket ((a, cls) :: m) k = if decide (a = k) then cls else bucket m k.
Proof. unfold bucket. simpl. by destruct (decide (a = k)). Qed.

Lemma forEach_merge (m categories : Map.t (list positive)) k :
  NoDup (map fst m) →
  bucket (Map.forEach m SearchResults.merge categories) k
  = bucket categories k ++ bucket m k.
Proof.
  unfold Map.forEach. revert categories.
  induction m as [|[a cls] m IH]; intros categories Hnd.
  - simpl. by rewrite app_nil_r.
  - cbn [fold_left fst snd].
    change (map fst ((a, cls) :: m)) with (a :: map fst m) in Hnd.
    apply NoDup_cons in Hnd as [Ha Hnd].
    rewrite (IH _ Hnd), merge_bucket, bucket_cons.
    destruct (decide (a = k)) as [<-|Hne]; [|done].
    unfold bucket at 2. rewrite (get_not_key _ _ Ha). simpl.
    by rewrite app_nil_r.
Qed.

Lemma fold_forEach_merge (ms : list (Map.t (list positive))) categories k :
  Forall (λ m, NoDup (map fst m)) ms →
  bucket (fold_left (λ c m, Map.forEach m SearchResults.merge c)
                    ms categories) k
  = bucket categories k ++ concat (map (λ m, bucket m k) ms).
Proof.
  intros Hall. revert categories.
  induction Hall as [|m ms Hm _ IH]; intros categories; simpl.
  - by rewrite app_nil_r.
  - by rewrite IH, (forEach_merge _ _ _ Hm), app_assoc.
Qed.

(** C9. [SearchResult.getCategoryMap] returns when [getCategory]
    returns for the user of the result on each changelist in turn, and
    throws otherwise; the map it returns holds, for every category, the
    changelists that got that category, in the order they are first
    seen and each once. [SearchResults.getCategoryMap] returns when
    [getCategoryMap] returns on each result in turn, and throws
    otherwise; the map it returns holds, for every category, the
    concatenation of what the maps of the results hold for it, in the
    order of the results, with nothing removed. *)
Theorem category_maps_group_and_concatenate :
  (∀ (this : SearchResult.t) w,
     match each (λ cl, Changelist.getCategory cl (SearchResult.user_ this))
                (SearchResult.data_ this) w with
     | Ok (cats, w') =>
         ∃ m, SearchResult.getCategoryMap this w = Ok (m, w')
              ∧ ∀ k, bucket m k
                     = first_seen
                         (with_category k (SearchResult.data_ this) cats)
                     ∧ NoDup (bucket m k)
     | TypeError => SearchResult.getCategoryMap this w = TypeError
     end)
  ∧ (∀ (this : SearchResults.t) w,
       match each SearchResult.getCategoryMap
                  (SearchResults.results_ this) w with
       | Ok (ms, w') =>
           ∃ m, SearchResults.getCategoryMap this w = Ok (m, w')
                ∧ ∀ k, bucket m k = concat (map (λ mi, bucket mi k) ms)
       | TypeError => SearchResults.getCategoryMap this w = TypeError
       end).
Proof.
  split.
  - intros this w. rewrite getCategoryMap_run.
    destruct (each _ _ w) as [[cats w']|]; [|done].
    eexists. split; [done|]. intros k.
    rewrite fold_add_changelist, fold_push_new.
    change (bucket Map.new k) with (@nil positive).
    rewrite filter_all by done. split; [done|apply first_seen_NoDup].
  - intros this w. unfold SearchResults.getCategoryMap.
    rewrite (forEach_each SearchResult.getCategoryMap
               (λ _ m c, Map.forEach m SearchResults.merge c)).
    2:{ intros x c s. unfold bind, ret.
        by destruct (SearchResult.getCategoryMap x s) as [[m s']|]. }
    destruct (each _ _ w) as [[ms w']|] eqn:Hrun; [|done].
    eexists. split; [done|]. intros k.
    assert (Forall (λ m, NoDup (map fst m)) ms) as Hkeys.
    { eapply each_Forall; [|exact Hrun].
      intros x s y s'. apply getCategoryMap_keys. }
    pose proof (each_length _ _ _ _ _ Hrun) as Hlen.
    assert (∀ (c : Map.t (list positive)) (xs : list SearchResult.t) ys,
              length ys = length xs →
              fold_left (λ c p, Map.forEach (snd p) SearchResults.merge c)
                        (zip xs ys) c
              = fold_left (λ c m, Map.forEach m SearchResults.merge c) ys c)
      as Hzip.
    { intros c xs. revert c.
      induction xs as [|x xs IH]; intros c [|y ys]; simpl; try done.
      intros [= Hl]. by apply IH. }
    rewrite (Hzip _ _ _ Hlen), (fold_forEach_merge _ _ _ Hkeys). done.
Qed.

End Search.

(** ** The properties on the examples *)

Section OnExamples.

Import Changelist Examples.

Lemma holds_world (json : ChangeInfo) (ticking : nat → Z) :
  holds (world json ticking) 1 json.
Proof.
  apply holds_wrap with (host := lit "https://example.org").
  apply lookup_singleton_eq.
Qed.

Lemma code_review_all_change votes ms star_labels :
  code_review_all (change votes ms star_labels) = votes.
Proof.
  unfold code_review_all, change. simpl. by rewrite lookup_singleton_eq.
Qed.

Lemma revision_of_change votes ms star_labels :
  revisions (change votes ms star_labels)
    !! current_revision (change votes ms star_labels)
  = Some {| _number := 3 |}.
Proof. apply lookup_singleton_eq. Qed.

Lemma bob_is_not_alice json :
  owner json = alice → ¬ is_owner json bob.
Proof. unfold is_owner. by intros ->. Qed.

Lemma nobody_voted ms star_labels user :
  ¬ voted_positive (change [] ms star_labels) user.
Proof.
  intros (r & v & Hin & _). rewrite code_review_all_change in Hin.
  by apply elem_of_nil in Hin.
Qed.

Lemma nobody_voted_at number ms star_labels user :
  ¬ voted_positive (change_at number [] ms star_labels) user.
Proof.
  intros (r & v & Hin & _). unfold code_review_all, change_at in Hin.
  simpl in Hin. rewrite lookup_singleton_eq in Hin.
  by apply elem_of_nil in Hin.
Qed.

Lemma bob_voted ms star_labels :
  voted_positive (change [vote bob 1] ms star_labels) bob.
Proof.
  exists (vote bob 1), 1. rewrite code_review_all_change.
  split; [by left|done].
Qed.

(** Witness of C3: Alice's approved change is ready to submit, though
    it is marked work in progress. *)
Lemma owner_first_match_witness :
  ∃ c w',
    getCategory (E := engine) 1 alice (world approved_change clock)
    = Ok (c, w')
    ∧ first_match
        (owner_rules (E := engine) (now (world approved_change clock))
                     approved_change) NONE c
    ∧ (submittable approved_change = Some true
       → no_unresolved_comments approved_change
       → c = READY_TO_SUBMIT).
Proof.
  apply (owner_first_match (E := engine) _ 1 approved_change alice).
  - apply holds_world.
  - reflexivity.
Defined.

(** Witness of C6, on the change in review. *)
Lemma isStale_selected_message_witness :
  ∃ b w',
    isStale (E := engine) 1 (world in_review clock) = Ok (b, w')
    ∧ (messages_of in_review = [] → b = true)
    ∧ (messages_of in_review ≠ []
       → ∃ m, selected_message (messages_of in_review) m)
    ∧ (∀ m, selected_message (messages_of in_review) m
            → (b = true
               ↔ day_older (E := engine) (now (world in_review clock)) m)).
Proof.
  apply (isStale_selected_message (E := engine) _ 1 in_review).
  apply holds_world.
Defined.



(** Witness of C10. *)
Lemma other_user_none_or_incoming_witness :
  (¬ is_owner owner_wrote_last bob
   → INCOMING_NEEDS_ATTENTION = NONE
     ∨ INCOMING_NEEDS_ATTENTION = INCOMING_NEEDS_ATTENTION)
  ∧ (INCOMING_NEEDS_ATTENTION
       ∈ [STALE; WIP; NO_REVIEWERS; OUTGOING_NEEDS_ATTENTION;
          READY_TO_SUBMIT]
     → is_owner owner_wrote_last bob).
Proof.
  eapply (other_user_none_or_incoming (E := engine)
            (world owner_wrote_last clock) 1
            (wrap (lit "https://example.org") owner_wrote_last) bob).
  - apply lookup_singleton_eq.
  - vm_compute. reflexivity.
Defined.

(** Witness of C2, amended. *)
Lemma reviewed_is_none_witness :
  ∃ w', getCategory (E := engine) 1 bob (world voted_and_starred clock)
        = Ok (NONE, w').
Proof.
  apply (reviewed_is_none (E := engine) _ 1 voted_and_starred bob).
  - apply holds_world.
  - by apply bob_is_not_alice.
  - apply bob_voted.
Defined.

(** Counterexample to C2 as stated: Bob has voted +1 and has starred
    the current patch set 3 as unreviewed; the marker would decide for
    INCOMING_NEEDS_ATTENTION, and [getCategory] returns NONE. *)
Lemma reviewed_not_overridden_by_marker :
  ∃ c, outcome (getCategory (E := engine) 1 bob
                  (world voted_and_starred clock)) = Ok c
       ∧ ¬ reviewed_unless_marked voted_and_starred bob c.
Proof.
  exists NONE. split; [by vm_compute|]. intros Hclaim.
  specialize (Hclaim (bob_is_not_alice voted_and_starred eq_refl) (bob_voted _ _)
                _ (revision_of_change _ _ _)).
  vm_compute in Hclaim. discriminate.
Qed.

(** Of the markers for patch sets 2 and 3, the one for the current
    patch set 3 decides. *)
Lemma highest_marker_decides_witness :
  ∃ w', getCategory (E := engine) 1 bob (world two_stars clock)
        = Ok (of_verdict false, w').
Proof.
  apply (highest_marker_decides (E := engine) _ 1 two_stars bob
           {| _number := 3 |} false 3).
  - apply holds_world.
  - by apply bob_is_not_alice.
  - apply nobody_voted.
  - apply revision_of_change.
  - repeat constructor; unfold numbered; vm_compute; intros _; discriminate.
  - vm_compute. reflexivity.
  - reflexivity.
  - lia.
Defined.

(** C4. The defect. Bob has starred the current patch set 3 as
    unreviewed, and that is the only marker with a number, so it is the
    one with the highest number and the claim gives
    INCOMING_NEEDS_ATTENTION. A second star, "reviewed/x", has no number
    to read: [parseInt] gives [NaN], which no number is at most, so
    [NaN] takes the place of the latest number, no number equals it, and
    [getCategory] returns NONE, on the last message, by Bob. The patch
    set is marked, and the code does not see it. *)
Theorem unreadable_star_hides_marker :
  outcome (getCategory (E := engine) 1 bob (world unreadable_star clock))
  = Ok NONE
  ∧ highest_marker (star_labels_of unreadable_star) = Some (false, 3)
  ∧ revisions unreadable_star !! current_revision unreadable_star
    = Some {| _number := 3 |}
  ∧ star_loop (star_labels_of unreadable_star) = (JS.NaN, Some true)
  ∧ ¬ marker_decides unreadable_star bob NONE.
Proof.
  split_and!; [by vm_compute|by vm_compute|apply revision_of_change
              |by vm_compute|].
  intros Hclaim.
  specialize (Hclaim (bob_is_not_alice unreadable_star eq_refl)
                (nobody_voted _ _ _)
                _ false 3 (revision_of_change _ _ _)).
  discriminate Hclaim; [by vm_compute|done].
Qed.

(** Of two markers with the same number the first decides, and a marker
    numbered -1 is not selected: the loop starts from -1 and takes a
    number only when it is higher. *)
Example first_marker_of_equal_numbers :
  outcome (getCategory (E := engine) 1 bob
             (world reviewed_then_unreviewed clock)) = Ok NONE
  ∧ highest_marker (star_labels_of reviewed_then_unreviewed) = Some (true, 3).
Proof. by vm_compute. Qed.

Example marker_numbered_minus_one :
  outcome (getCategory (E := engine) 1 bob
             (world patch_set_minus_one clock))
  = Ok INCOMING_NEEDS_ATTENTION
  ∧ highest_marker (star_labels_of patch_set_minus_one) = Some (true, -1).
Proof. by vm_compute. Qed.

(** Witness of C7, amended: Bob is not the owner, and the clocks of the
    two worlds differ. *)
Lemma category_of_reply_user_and_clock_witness :
  outcome (getCategory (E := engine) 1 bob (world owner_wrote_last clock))
  = outcome (getCategory (E := engine) 1 bob
               (world owner_wrote_last (λ _, 0))).
Proof.
  apply (category_of_reply_user_and_clock (E := engine) owner_wrote_last bob).
  - apply holds_world.
  - apply holds_world.
  - right. by apply bob_is_not_alice.
Defined.

(** Counterexample to C7 as stated: two invocations in a row, on the
    same changelist and for the same user, Alice, its owner. The first
    reads the clock one hour after the only message and returns NONE;
    the second reads it two days after and returns STALE. *)
Lemma two_invocations_two_categories :
  ∃ w1 w2,
    getCategory (E := engine) 1 alice (world in_review clock)
    = Ok (NONE, w1)
    ∧ getCategory (E := engine) 1 alice w1 = Ok (STALE, w2).
Proof.
  destruct (getCategory (E := engine) 1 alice (world in_review clock))
    as [[c1 w1]|] eqn:Hfirst; [|by vm_compute in Hfirst].
  destruct (getCategory (E := engine) 1 alice w1)
    as [[c2 w2]|] eqn:Hsecond.
  - exists w1, w2.
    assert (c1 = NONE ∧ c2 = STALE) as [-> ->]; [|done].
    vm_compute in Hfirst. injection Hfirst as <- <-.
    vm_compute in Hsecond. by injection Hsecond as <- _.
  - vm_compute in Hfirst. injection Hfirst as <- <-.
    by vm_compute in Hsecond.
Qed.

(** The same changelist in the results of two queries is twice in the
    merged bucket. *)
Example same_changelist_in_two_results :
  let this := SearchResult.new (lit "https://example.org") bob [1%positive] in
  outcome ((m <- SearchResults.getCategoryMap (E := engine)
                   (SearchResults.new [this; this]) ;;
            ret (bucket m INCOMING_NEEDS_ATTENTION))
             (world owner_wrote_last clock))
  = Ok [1%positive; 1%positive].
Proof. by vm_compute. Qed.

End OnExamples.

(** * Further properties *)

(** ** What the methods of a changelist leave alone *)

Section Memoising.

Context {E : Engine}.

Import Changelist.

Lemma only_memoises_refl this w : only_memoises this w w.
Proof. repeat split; try done. intros o Ho. by exists o. Qed.

Lemma only_memoises_trans this w1 w2 w3 :
  only_memoises this w1 w2 → only_memoises this w2 w3
  → only_memoises this w1 w3.
Proof.
  intros (Hc1 & Ht1 & Hf1 & Ho1) (Hc2 & Ht2 & Hf2 & Ho2).
  split; [congruence|]. split; [lia|]. split.
  - intros l Hl. by rewrite Hf2, Hf1.
  - intros o Ho. destruct (Ho1 o Ho) as (o' & Ho' & Hj' & Hh').
    destruct (Ho2 o' Ho') as (o'' & Ho'' & Hj'' & Hh'').
    exists o''. split; [done|]. split; congruence.
Qed.

Lemma memoising_ret {A} this n (a : A) : memoising this n (ret a).
Proof.
  intros w a' w' [= <- <-]. split; [apply only_memoises_refl|lia].
Qed.

Lemma memoising_throw {A} this n : memoising this n (@throw World A).
Proof. by intros w a w'. Qed.

Lemma memoising_bind {A B} this n1 n2 (m : W A) (k : A → W B) :
  memoising this n1 m → (∀ a, memoising this n2 (k a))
  → memoising this (n1 + n2) (bind m k).
Proof.
  intros Hm Hk w b w' Hrun.
  apply bind_inv in Hrun as (a & w1 & Hrun1 & Hrun2).
  destruct (Hm _ _ _ Hrun1) as (Hs1 & Ht1).
  destruct (Hk a _ _ _ Hrun2) as (Hs2 & Ht2).
  split; [by eapply only_memoises_trans|lia].
Qed.

Lemma memoising_first {A B} this n (m : W A) (k : A → W B) :
  memoising this 0 m → (∀ a, memoising this n (k a))
  → memoising this n (bind m k).
Proof. intros Hm Hk. by apply (memoising_bind this 0 n). Qed.

Lemma memoising_last {A B} this n (m : W A) (k : A → W B) :
  memoising this n m → (∀ a, memoising this 0 (k a))
  → memoising this n (bind m k).
Proof.
  intros Hm Hk. replace n with (n + 0)%nat by lia.
  by apply memoising_bind.
Qed.

Lemma memoising_deref this n : memoising this n (deref this).
Proof.
  intros w o w'. unfold deref. destruct (heap w !! this); [|done].
  intros [= <- <-]. split; [apply only_memoises_refl|lia].
Qed.

Lemma memoising_assign this n (f : t → t) :
  (∀ o, json_ (f o) = json_ o ∧ host_ (f o) = host_ o) →
  memoising this n (assign this f).
Proof.
  intros Hf w u w'. unfold assign.
  destruct (heap w !! this) as [o|] eqn:Hl; [|done]. intros [= _ <-].
  split; [|simpl; lia]. split; [done|]. split; [done|]. split; simpl.
  - intros l Hne. by rewrite lookup_insert_ne.
  - intros o' Ho'. rewrite Hl in Ho'. injection Ho' as <-.
    exists (f o). by rewrite lookup_insert_eq.
Qed.

Lemma memoising_Date_now this n : memoising this (S n) Date_now.
Proof.
  intros w t w' [= _ <-]. split; [|simpl; lia].
  split; [done|]. split; [simpl; lia|]. split; simpl; [done|].
  intros o Ho. by exists o.
Qed.

Ltac memo :=
  repeat first
    [ apply memoising_ret
    | apply memoising_throw
    | apply memoising_deref
    | apply memoising_first; [|intros ?]
    | apply memoising_assign; by intros ?
    | match goal with
      | |- memoising _ _ (if ?b then _ else _) => destruct b
      | |- memoising _ _ (match ?x with _ => _ end) => destruct x
      | |- memoising _ _ (let '(_, _) := ?x in _) => destruct x
      end ].

Lemma memoising_isOwner this user : memoising this 0 (isOwner this user).
Proof. unfold isOwner. memo. Qed.

Lemma memoising_isSubmittable this : memoising this 0 (isSubmittable this).
Proof. unfold isSubmittable. memo. Qed.

Lemma memoising_hasUnresolvedComments this :
  memoising this 0 (hasUnresolvedComments this).
Proof. unfold hasUnresolvedComments. memo. Qed.

Lemma memoising_isWorkInProgress this :
  memoising this 0 (isWorkInProgress this).
Proof. unfold isWorkInProgress. memo. Qed.

Lemma memoising_filterReviewers this filter :
  memoising this 0 (filterReviewers this filter).
Proof. unfold filterReviewers. memo. Qed.

Lemma memoising_hasReviewed this user :
  memoising this 0 (hasReviewed this user).
Proof. unfold hasReviewed. memo. Qed.

Lemma memoising_getReviewers this : memoising this 0 (getReviewers this).
Proof. unfold getReviewers. memo. Qed.

Lemma memoising_getMessages this : memoising this 0 (getMessages this).
Proof. unfold getMessages. memo. Qed.

Lemma memoising_getStars this : memoising this 0 (getStars this).
Proof. unfold getStars. memo. Qed.

Lemma memoising_getCurrentRevision this :
  memoising this 0 (getCurrentRevision this).
Proof. unfold getCurrentRevision. memo. Qed.

Lemma memoising_isStale this : memoising this 1 (isStale this).
Proof.
  unfold isStale. apply memoising_first; [apply memoising_getMessages|].
  intros ms.
  destruct (match last_element _ with Some m => Some m | None => _ end);
    [|apply memoising_ret].
  apply memoising_last; [apply memoising_Date_now|].
  intros t. apply memoising_ret.
Qed.

Lemma memoising_authorCommentedAfterUser this user :
  memoising this 0 (authorCommentedAfterUser this user).
Proof.
  unfold authorCommentedAfterUser. memo.
Qed.

Lemma memoising_other_user this user :
  memoising this 0
    (reviewed <- hasReviewed this user ;;
     if negb reviewed then
       revision <- getCurrentRevision this ;;
       current_rev_number <- Revision.getNumber revision ;;
       star_labels <- getStars this ;;
       let '(latest_tagged_rev_number, latest_tag_is_reviewed) :=
         star_loop star_labels in
       if JS.num_eq_undefined latest_tagged_rev_number current_rev_number then
         if default false latest_tag_is_reviewed then ret NONE
         else ret INCOMING_NEEDS_ATTENTION
       else
         after <- authorCommentedAfterUser this user ;;
         if after then ret INCOMING_NEEDS_ATTENTION
         else ret NONE
     else ret NONE).
Proof.
  apply memoising_first; [apply memoising_hasReviewed|]. intros reviewed.
  destruct reviewed; simpl; [apply memoising_ret|].
  apply memoising_first; [apply memoising_getCurrentRevision|].
  intros revision.
  apply memoising_first.
  { unfold Revision.getNumber. destruct (Revision.json_ revision);
      [apply memoising_ret|apply memoising_ret|apply memoising_throw]. }
  intros number. apply memoising_first; [apply memoising_getStars|].
  intros star_labels. destruct (star_loop star_labels) as [latest verdict].
  destruct (JS.num_eq_undefined _ _).
  { destruct (default false verdict); apply memoising_ret. }
  apply memoising_first; [apply memoising_authorCommentedAfterUser|].
  intros after. destruct after; apply memoising_ret.
Qed.

Lemma memoising_owner this :
  memoising this 1
    (ready <- (submittable <- isSubmittable this ;;
               if submittable then
                 unresolved <- hasUnresolvedComments this ;;
                 ret (negb unresolved)
               else ret false) ;;
     if ready then ret READY_TO_SUBMIT
     else
       wip <- isWorkInProgress this ;;
       if wip then ret WIP
       else
         reviewers <- getReviewers this ;;
         if (length reviewers =? 0)%nat then ret NO_REVIEWERS
         else
           unresolved <- hasUnresolvedComments this ;;
           if unresolved then ret OUTGOING_NEEDS_ATTENTION
           else
             stale <- isStale this ;;
             if stale then ret STALE
             else ret NONE).
Proof.
  apply memoising_first.
  { apply memoising_first; [apply memoising_isSubmittable|].
    intros [|]; [|apply memoising_ret].
    apply memoising_first; [apply memoising_hasUnresolvedComments|].
    intros ?. apply memoising_ret. }
  intros [|]; [apply memoising_ret|].
  apply memoising_first; [apply memoising_isWorkInProgress|].
  intros [|]; [apply memoising_ret|].
  apply memoising_first; [apply memoising_getReviewers|].
  intros reviewers. destruct (_ =? _)%nat; [apply memoising_ret|].
  apply memoising_first; [apply memoising_hasUnresolvedComments|].
  intros [|]; [apply memoising_ret|].
  apply memoising_last; [apply memoising_isStale|].
  intros [|]; apply memoising_ret.
Qed.

Lemma memoising_getCategory this user :
  memoising this 1 (getCategory this user).
Proof.
  unfold getCategory. apply memoising_first; [apply memoising_isOwner|].
  intros [|]; [apply memoising_owner|].
  intros w c w' Hrun.
  destruct (memoising_other_user this user _ _ _ Hrun) as (Hs & Ht).
  split; [done|lia].
Qed.

(** X1. Whatever [getCategory] returns, the run has changed nothing but
    memoised fields of the changelist it is called on: the reply and the
    host of that changelist are the same, every other object of the heap
    is the same, and so is the clock, which has been read at most once,
    and not at all for a user who is not the owner. *)
Theorem getCategory_only_memoises w this o user c w' :
  heap w !! this = Some o →
  getCategory this user w = Ok (c, w') →
  only_memoises this w w'
  ∧ (ticks w' ≤ S (ticks w))%nat
  ∧ (¬ is_owner (json_ o) user → ticks w' = ticks w).
Proof.
  intros Hl Hrun. unfold getCategory in Hrun.
  apply bind_inv in Hrun as (b & w1 & Hown & Hrun).
  unfold isOwner, bind, deref, ret in Hown. rewrite Hl in Hown.
  injection Hown as <- <-.
  destruct (_account_id (owner (json_ o)) =? _account_id user) eqn:Ho.
  - destruct (memoising_owner this _ _ _ Hrun) as (Hs & Ht).
    split; [done|]. split; [lia|].
    intros Hno. by apply Z.eqb_eq in Ho.
  - destruct (memoising_other_user this user _ _ _ Hrun) as (Hs & Ht).
    split; [done|]. split; [lia|]. intros _. destruct Hs as (_ & ? & _). lia.
Qed.

End Memoising.

(** ** Further properties of the methods of a changelist *)

Section ChangelistMore.

Context {E : Engine}.

Import Changelist.

(** X2. A memoising getter called again returns the same value and
    leaves the world as the first call left it, whatever the fields
    held before the first call. *)
Theorem getters_memoise this w :
  (∀ rs w', getReviewers this w = Ok (rs, w')
            → getReviewers this w' = Ok (rs, w'))
  ∧ (∀ ms w', getMessages this w = Ok (ms, w')
              → getMessages this w' = Ok (ms, w'))
  ∧ (∀ r w', getCurrentRevision this w = Ok (r, w')
             → getCurrentRevision this w' = Ok (r, w')).
Proof.
  split; [|split].
  - intros rs w'. unfold getReviewers, filterReviewers, assign, bind, deref, ret.
    destruct (heap w !! this) as [o|] eqn:Hl; [|done]. simpl.
    destruct (reviewers_ o) as [rs'|] eqn:Hrs.
    + intros [= <- <-]. by rewrite Hl, Hrs.
    + repeat (rewrite Hl; simpl). intros [= <- <-]. simpl.
      by rewrite lookup_insert_eq.
  - intros ms w'. unfold getMessages, assign, bind, deref, ret.
    destruct (heap w !! this) as [o|] eqn:Hl; [|done].
    destruct (messages_ o) as [ms'|] eqn:Hms.
    + intros [= <- <-]. by rewrite Hl, Hms.
    + repeat (rewrite Hl; simpl). intros [= <- <-]. simpl.
      by rewrite lookup_insert_eq.
  - intros r w'. unfold getCurrentRevision, assign, bind, deref, ret.
    destruct (heap w !! this) as [o|] eqn:Hl; [|done].
    destruct (current_revision_ o) as [r'|] eqn:Hr.
    + intros [= <- <-]. by rewrite Hl, Hr.
    + repeat (rewrite Hl; simpl). intros [= <- <-]. simpl.
      by rewrite lookup_insert_eq.
Qed.


(** X4. The owner is never told INCOMING_NEEDS_ATTENTION, whatever the
    memoised fields hold. *)
Theorem owner_never_incoming w this o user c w' :
  heap w !! this = Some o →
  is_owner (json_ o) user →
  getCategory this user w = Ok (c, w') →
  c ≠ INCOMING_NEEDS_ATTENTION.
Proof.
  intros Hl Ho Hrun. unfold getCategory in Hrun.
  apply bind_inv in Hrun as (b & w1 & Hown & Hrun).
  unfold isOwner, bind, deref, ret in Hown. rewrite Hl in Hown.
  injection Hown as <- <-.
  rewrite (proj2 (Z.eqb_eq _ _) Ho) in Hrun.
  apply bind_inv in Hrun as (ready & w2 & _ & Hrun).
  destruct ready; [by injection Hrun as <- _|].
  apply bind_inv in Hrun as (wip & w3 & _ & Hrun).
  destruct wip; [by injection Hrun as <- _|].
  apply bind_inv in Hrun as (reviewers & w4 & _ & Hrun).
  destruct (_ =? _)%nat; [by injection Hrun as <- _|].
  apply bind_inv in Hrun as (unresolved & w5 & _ & Hrun).
  destruct unresolved; [by injection Hrun as <- _|].
  apply bind_inv in Hrun as (stale & w6 & _ & Hrun).
  destruct stale; by injection Hrun as <- _.
Qed.

Lemma older_than_a_day_mono (t t' : Z) (m : Message.t) :
  t ≤ t' → older_than_a_day t m = true → older_than_a_day t' m = true.
Proof.
  unfold older_than_a_day. destruct (Message.getTime m); [|done].
  rewrite !Z.ltb_lt. lia.
Qed.

(** X5. Staleness only grows with time: a changelist that [isStale]
    finds stale at one reading of the clock is found stale at every
    later reading, as long as its messages are the same. *)
Theorem isStale_stays_stale json w1 this1 w1' w2 this2 :
  holds w1 this1 json →
  holds w2 this2 json →
  now w1 ≤ now w2 →
  isStale this1 w1 = Ok (true, w1') →
  ∃ w2', isStale this2 w2 = Ok (true, w2').
Proof.
  intros Hh1 Hh2 Hle Hrun1.
  destruct (isStale_run _ _ _ Hh1) as (w1'' & Hrun1' & _).
  destruct (isStale_run _ _ _ Hh2) as (w2' & Hrun2 & _).
  rewrite Hrun1 in Hrun1'. injection Hrun1' as Hstale _.
  exists w2'. rewrite Hrun2. do 2 f_equal. symmetry in Hstale.
  unfold stale_at in *.
  destruct (match last_element _ with Some m => Some m | None => _ end);
    [|done].
  by eapply older_than_a_day_mono.
Qed.

(** X6. [hasReviewed] returns, changes nothing, and answers true exactly
    when the label "Code-Review" has an entry with the identity of the
    user and a positive value, that identity not being 0; so it answers
    false when the label or its list is missing. *)
Theorem hasReviewed_positive_vote w this o user :
  heap w !! this = Some o →
  ∃ b, hasReviewed this user w = Ok (b, w)
       ∧ (b = true ↔ voted_positive (json_ o) user)
       ∧ (code_review_all (json_ o) = [] → b = false).
Proof.
  intros Hl. exists (reviewed_by (json_ o) user). split; [|split].
  - unfold hasReviewed, filterReviewers, bind, deref, ret. by rewrite Hl.
  - apply reviewed_by_spec.
  - intros Hnil. unfold reviewed_by. by rewrite Hnil.
Qed.

Lemma is_reviewer_iff (json : ChangeInfo) (r : ApprovalInfo) :
  has_account_id r
  && negb (account_id_is r (_account_id (owner json))) = true
  ↔ is_reviewer json r.
Proof.
  unfold has_account_id, account_id_is, is_reviewer.
  destruct (approval_account_id r) as [id|].
  - rewrite andb_true_iff, !negb_true_iff, !Z.eqb_neq. split.
    + intros [? ?]. by exists id.
    + by intros (? & [= <-] & ? & ?).
  - split; [done|]. by intros (? & ? & _).
Qed.

(** X7. [getReviewers] returns the entries of the label "Code-Review"
    that have an identity other than 0 and other than the owner's, in
    the order of the label: the owner and the entries without identity
    are never reviewers. *)
Theorem getReviewers_excludes_owner w this json :
  holds w this json →
  ∃ rs w',
    getReviewers this w = Ok (rs, w')
    ∧ rs `sublist_of` code_review_all json
    ∧ ∀ r, r ∈ rs ↔ r ∈ code_review_all json ∧ is_reviewer json r.
Proof.
  intros Hh. destruct (getReviewers_run _ _ _ Hh) as (w' & Hrun & _).
  exists (reviewers_of json), w'. split; [done|]. unfold reviewers_of. split.
  - generalize (code_review_all json). intros l.
    induction l as [|r l IH]; simpl; [done|].
    destruct (_ && _); [by apply sublist_skip|by apply sublist_cons].
  - intros r. rewrite list_elem_of_In, filter_In, <- list_elem_of_In.
    by rewrite is_reviewer_iff.
Qed.

(** X8. A vote of the owner on the own change does not make a reviewer:
    when every entry of the label is the owner's or has no identity, and
    the change is neither ready to submit nor work in progress, the
    owner is told NO_REVIEWERS. *)
Theorem own_vote_is_no_review w this json user :
  holds w this json →
  is_owner json user →
  ¬ (submittable json = Some true ∧ no_unresolved_comments json) →
  work_in_progress json ≠ Some true →
  Forall (λ r, ¬ is_reviewer json r) (code_review_all json) →
  ∃ w', getCategory this user w = Ok (NO_REVIEWERS, w').
Proof.
  intros Hh Ho Hready Hwip Hall.
  pose proof (getCategory_run w this json user Hh) as Hrun.
  unfold category_at in Hrun.
  rewrite (proj2 (is_owner_eqb _ _) Ho) in Hrun.
  rewrite <- ready_iff, not_true_iff_false in Hready.
  rewrite <- in_progress_iff, not_true_iff_false in Hwip.
  rewrite Hready, Hwip in Hrun.
  assert (reviewers_of json = []) as Hnil.
  { unfold reviewers_of. apply filter_none.
    eapply Forall_impl; [exact Hall|]. intros r Hr. simpl.
    by rewrite is_reviewer_iff. }
  rewrite Hnil in Hrun. simpl in Hrun.
  destruct Hrun as (w' & Hrun & _). by exists w'.
Qed.

(** X9. A user who is not the owner, has not reviewed and has written
    no message is told INCOMING_NEEDS_ATTENTION when no star marker has
    the number of the current revision. *)
Theorem silent_user_is_asked w this json user revision :
  holds w this json →
  ¬ is_owner json user →
  ¬ voted_positive json user →
  revisions json !! current_revision json = Some revision →
  no_marker_for json (_number revision) →
  Forall (λ m, Message.isAuthoredBy m user = false) (messages_of json) →
  ∃ w', getCategory this user w = Ok (INCOMING_NEEDS_ATTENTION, w').
Proof.
  intros Hh Ho Hv Hrev Hnone Hsilent.
  pose proof (getCategory_run w this json user Hh) as Hrun.
  unfold category_at in Hrun.
  rewrite <- is_owner_eqb, not_true_iff_false in Ho. rewrite Ho in Hrun.
  rewrite <- reviewed_by_spec, not_true_iff_false in Hv.
  rewrite Hv, (get_Own _ _ _ Hrev) in Hrun.
  assert (commented_after json user = true) as Hafter.
  { unfold commented_after.
    pose proof (last_filter
                  (λ m, if Message.shouldBeIgnored m then false
                        else Message.isAuthoredBy m user
                             || Message.isAuthoredBy m (owner json))
                  (messages_of json)) as Hlast.
    destruct (last_element _) as [m|]; [|done].
    apply last_such_elem in Hlast as [Hin Hm].
    rewrite List.Forall_forall in Hsilent.
    apply list_elem_of_In in Hin. rewrite (Hsilent m Hin) in Hm.
    by destruct (Message.shouldBeIgnored m). }
  rewrite Hafter in Hrun.
  destruct (star_loop_state (star_labels_of json))
    as [Hstate|[Hstate|(v & n & Hstate & Hin)]].
  - rewrite Hstate in Hrun. cbn [JS.num_eq default] in Hrun.
    destruct (-1 =? _number revision);
      destruct Hrun as (w' & Hrun & _); by exists w'.
  - destruct (star_loop _) as [latest verdict]. simpl in Hstate.
    subst latest. simpl in Hrun.
    destruct Hrun as (w' & Hrun & _). by exists w'.
  - rewrite Hstate in Hrun. cbn [JS.num_eq] in Hrun.
    unfold no_marker_for in Hnone. rewrite Forall_forall in Hnone.
    pose proof (Hnone _ Hin) as Hne. simpl in Hne.
    rewrite (proj2 (Z.eqb_neq _ _) Hne) in Hrun.
    destruct Hrun as (w' & Hrun & _). by exists w'.
Qed.

Lemma star_step_not_shaped st label :
  marker_shaped label = false → star_step st label = st.
Proof.
  unfold marker_shaped, star_step, JS.str_eq. destruct st as [latest verdict].
  destruct (JS.split 47 label) as [|p0 [|p1 [|? ?]]]; try done.
  intros Hshape. apply bool_decide_eq_false in Hshape.
  rewrite !bool_decide_eq_false_2; [done| |]; intros ->; apply Hshape; auto.
Qed.

Lemma star_loop_filter_shaped (star_labels : list jsstring) :
  star_loop (List.filter marker_shaped star_labels) = star_loop star_labels.
Proof.
  unfold star_loop. generalize (JS.Num (-1), @None bool).
  induction star_labels as [|label labels IH]; intros st; simpl; [done|].
  destruct (marker_shaped label) eqn:Hshape; simpl; [apply IH|].
  by rewrite (star_step_not_shaped _ _ Hshape).
Qed.

Lemma category_at_stars t json user star_labels :
  star_loop (default [] star_labels) = star_loop (star_labels_of json) →
  category_at t (with_stars json star_labels) user = category_at t json user.
Proof.
  intros Heq.
  unfold category_at, unresolved, in_progress, reviewers_of, stale_at,
    reviewed_by, commented_after, code_review_all, messages_of,
    star_labels_of in *.
  simpl. by rewrite Heq.
Qed.

(** X10. Star labels without the shape of a marker, such as "ignore",
    have no say: with them taken out of the reply, [getCategory] returns
    the same category, or throws as before, at the same reading of the
    clock. *)
Theorem other_stars_have_no_say json user w1 this1 w2 this2 :
  holds w1 this1 json →
  holds w2 this2
    (with_stars json
       (Some (List.filter marker_shaped (star_labels_of json)))) →
  now w1 = now w2 →
  outcome (getCategory this1 user w1) = outcome (getCategory this2 user w2).
Proof.
  intros Hh1 Hh2 Hnow.
  rewrite (getCategory_outcome _ _ _ _ Hh1), (getCategory_outcome _ _ _ _ Hh2).
  rewrite Hnow. symmetry. apply category_at_stars.
  apply star_loop_filter_shaped.
Qed.

(** The size of a change is SMALL below 30 changed lines, MEDIUM
    from 30 to 299 and LARGE from 300 on, the changed lines being the
    insertions and the deletions together. *)
Theorem getSizeCategory_bounds w this o :
  heap w !! this = Some o →
  ∃ c, getSizeCategory this w = Ok (c, w)
       ∧ let lines := insertions (json_ o) + deletions (json_ o) in
         (c = SMALL ↔ lines < 30)
         ∧ (c = MEDIUM ↔ 30 ≤ lines < 300)
         ∧ (c = LARGE ↔ 300 ≤ lines).
Proof.
  intros Hl. unfold getSizeCategory, getDeltaSize, bind, deref, ret.
  rewrite Hl.
  destruct (Z.ltb_spec (insertions (json_ o) + deletions (json_ o)) 30);
    [|destruct (Z.ltb_spec (insertions (json_ o) + deletions (json_ o)) 300)];
    eexists; (split; [reflexivity|]); simpl; split_and!; split;
    try done; try lia.
Qed.

End ChangelistMore.

(** ** Further properties of Description *)

Section DescriptionMore.

Import Description.

Lemma join_cons_char sep c w ws :
  JS.join sep ((c :: w) :: ws) = c :: JS.join sep (w :: ws).
Proof. by destruct ws. Qed.

(** Splitting at line feeds and joining with line feeds gives the text
    back. *)
Lemma join_split (s : jsstring) : JS.join [LF] (JS.split LF s) = s.
Proof.
  induction s as [|c s IH]; [done|]. simpl.
  destruct (N.eqb_spec c LF) as [->|Hne].
  - destruct (split_cons LF s) as (l0 & ls & Hs). rewrite Hs in *.
    simpl. by rewrite <- IH.
  - destruct (split_cons LF s) as (l0 & ls & Hs). rewrite Hs in *.
    by rewrite join_cons_char, IH.
Qed.

Lemma split_no_LF (s : jsstring) : Forall (λ l, LF ∉ l) (JS.split LF s).
Proof.
  induction s as [|c s IH]; simpl.
  - constructor; [apply not_elem_of_nil|done].
  - destruct (N.eqb_spec c LF) as [->|Hne].
    + constructor; [apply not_elem_of_nil|done].
    + destruct (JS.split LF s) as [|l0 ls].
      * constructor; [|done]. intros Hin.
        apply list_elem_of_singleton in Hin. congruence.
      * inversion IH as [|? ? Hl0 Hls]; subst. constructor; [|done].
        intros Hin. apply elem_of_cons in Hin as [Heq|Hin]; [congruence|done].
Qed.

Lemma split_app_LF (x r : jsstring) :
  LF ∉ x → JS.split LF (x ++ LF :: r) = x :: JS.split LF r.
Proof.
  induction x as [|c x IH]; intros Hx; simpl.
  - done.
  - apply not_elem_of_cons in Hx as [Hc Hx].
    destruct (N.eqb_spec c LF) as [->|_]; [done|]. by rewrite (IH Hx).
Qed.

Lemma split_free (x : jsstring) : LF ∉ x → JS.split LF x = [x].
Proof.
  induction x as [|c x IH]; intros Hx; simpl; [done|].
  apply not_elem_of_cons in Hx as [Hc Hx].
  destruct (N.eqb_spec c LF) as [->|_]; [done|]. by rewrite (IH Hx).
Qed.

(** Joining lines without line feed and splitting gives the lines
    back. *)
Lemma split_join (ls : list jsstring) :
  ls ≠ [] → Forall (λ l, LF ∉ l) ls → JS.split LF (JS.join [LF] ls) = ls.
Proof.
  induction ls as [|x ls IH]; [done|]. intros _ Hall.
  inversion Hall as [|? ? Hx Hls]; subst.
  destruct ls as [|y ls]; [by apply split_free|].
  change (JS.join [LF] (x :: y :: ls)) with (x ++ LF :: JS.join [LF] (y :: ls)).
  rewrite (split_app_LF _ _ Hx), IH; done.
Qed.

Lemma join_take sep (ls : list jsstring) (k : nat) :
  ∃ rest, JS.join sep ls = JS.join sep (take (S k) ls) ++ rest.
Proof.
  revert k. induction ls as [|x ls IH]; intros k; [by exists []|].
  destruct ls as [|y ls].
  { exists []. destruct k; simpl; by rewrite app_nil_r. }
  destruct k as [|k]; [apply join_cons|].
  destruct (IH k) as (rest & Hrest). exists rest.
  change (JS.join sep (x :: y :: ls)) with (x ++ sep ++ JS.join sep (y :: ls)).
  change (take (S (S k)) (x :: y :: ls)) with (x :: y :: take k ls).
  change (JS.join sep (x :: y :: take k ls))
    with (x ++ sep ++ JS.join sep (y :: take k ls)).
  rewrite Hrest. simpl. by rewrite <- !app_assoc.
Qed.

(** Where the loop over the attributes stops: at line 0, or at a line
    that is neither empty nor an attribute. *)
Lemma peel_attributes_stop lines c attributes c' attributes' :
  (c < length lines)%nat →
  peel_attributes lines c attributes = (c', attributes') →
  c' = O ∨ ∃ line, lines !! c' = Some line ∧ line ≠ []
                   ∧ ATTRIBUTE_RE_exec line = None.
Proof.
  revert attributes. induction c as [|c IH]; simpl; intros attributes Hlt.
  - intros [= <- _]. by left.
  - destruct (lines !! S c) as [line|] eqn:Hl.
    2:{ apply lookup_ge_None in Hl. lia. }
    destruct line as [|x line]; [apply IH; lia|].
    destruct (ATTRIBUTE_RE_exec (x :: line)) eqn:Hexec; [apply IH; lia|].
    intros [= <- _]. right. by exists (x :: line).
Qed.

Lemma peel_empty_stop lines c :
  (c = O ∨ ∃ line, lines !! c = Some line ∧ line ≠ []) →
  peel_empty lines c = c.
Proof.
  intros [->|(line & Hl & Hne)]; [done|].
  destruct c as [|c]; [done|]. simpl. unfold is_empty_line. rewrite Hl.
  by destruct line.
Qed.

(** The cut [parse] makes: the message is line 0 and the [k] lines after
    it, the attributes are read off the lines below, and the message
    ends with line 0 or with a line that is neither empty nor an
    attribute. *)
Lemma parse_cut (text : jsstring) :
  ∃ line0 lines k,
    JS.split LF text = line0 :: lines
    ∧ (k ≤ length lines)%nat
    ∧ parse text = (JS.join [LF] (line0 :: take k lines),
                    omap ATTRIBUTE_RE_exec (drop k lines))
    ∧ (k = O ∨ ∃ line, (line0 :: lines) !! k = Some line ∧ line ≠ []
                       ∧ ATTRIBUTE_RE_exec line = None).
Proof.
  destruct (split_cons LF text) as (line0 & lines & Hsplit).
  exists line0, lines. unfold parse. rewrite Hsplit.
  change (length (line0 :: lines) - 1)%nat with (length lines - 0)%nat.
  rewrite Nat.sub_0_r.
  set (all := line0 :: lines).
  destruct (peel_empty_spec all (length lines)) as (Hle1 & Heq1 & Hall1).
  set (c1 := peel_empty all (length lines)) in *.
  destruct (peel_attributes all c1 []) as [c2 attributes] eqn:Hpeel.
  assert (drop (S (length lines)) all = []) as Hend
    by (apply drop_ge; simpl; lia).
  rewrite Hend in Heq1, Hall1.
  destruct (peel_attributes_spec _ _ _ _ _ Hpeel) as (Hle2 & Hall2 & Hattrs).
  { by apply Hall1. }
  { by rewrite Heq1. }
  assert (c1 < length all)%nat as Hlt by (simpl; lia).
  pose proof (peel_attributes_stop _ _ _ _ _ Hlt Hpeel) as Hstop.
  assert (peel_empty all c2 = c2) as ->.
  { apply peel_empty_stop. destruct Hstop as [?|(line & ? & ? & _)];
      [by left|right; by exists line]. }
  exists c2. replace (c2 + 1)%nat with (S c2) by lia.
  change (take (S c2) all) with (line0 :: take c2 lines).
  change (drop (S c2) all) with (drop c2 lines) in *.
  split; [done|]. split; [lia|]. split; [|done].
  by rewrite Hattrs, rev_involutive.
Qed.

(** X11. The message [parse] returns is the beginning of the text: the
    parser cuts the text and rewrites nothing in front of the cut. *)
Theorem parse_message_is_prefix (text : jsstring) :
  fst (parse text) `prefix_of` text.
Proof.
  destruct (parse_cut text) as (line0 & lines & k & Hsplit & Hk & Hparse & _).
  rewrite Hparse. cbn [fst].
  destruct (join_take [LF] (line0 :: lines) k) as (rest & Hrest).
  exists rest. rewrite <- (join_split text), Hsplit. exact Hrest.
Qed.

(** X12. The message has no attributes of its own: parsed again, it
    comes back whole, with no attribute. *)
Theorem parse_message_again (text : jsstring) :
  parse (fst (parse text)) = (fst (parse text), []).
Proof.
  destruct (parse_cut text)
    as (line0 & lines & k & Hsplit & Hk & Hparse & Hstop).
  rewrite Hparse. cbn [fst]. set (body := line0 :: take k lines).
  assert (JS.split LF (JS.join [LF] body) = body) as Hbody.
  { apply split_join; [done|].
    pose proof (split_no_LF text) as Hall. rewrite Hsplit in Hall.
    inversion Hall as [|? ? H0 Hls]; subst. constructor; [done|].
    by apply Forall_take. }
  unfold parse. rewrite Hbody.
  assert (length body - 1 = k)%nat as ->.
  { unfold body. simpl. rewrite length_take. lia. }
  assert (k = O ∨ ∃ line, body !! k = Some line ∧ line ≠ []
                          ∧ ATTRIBUTE_RE_exec line = None) as Hstop'.
  { destruct Hstop as [?|(line & Hl & Hne & Hexec)]; [by left|right].
    exists line. split; [|done]. destruct k as [|k]; [done|].
    simpl in *. by rewrite lookup_take_lt by lia. }
  assert (peel_empty body k = k) as Hempty.
  { apply peel_empty_stop. destruct Hstop' as [?|(line & ? & ? & _)];
      [by left|right; by exists line]. }
  rewrite Hempty.
  assert (peel_attributes body k [] = (k, [])) as ->.
  { destruct Hstop' as [->|(line & Hl & Hne & Hexec)]; [done|].
    destruct k as [|k]; [done|]. cbn [peel_attributes]. rewrite Hl.
    destruct line; [done|]. by rewrite Hexec. }
  rewrite Hempty. simpl rev. f_equal. f_equal.
  apply take_ge. unfold body. simpl. rewrite length_take. lia.
Qed.

(** X13. Every attribute [parse] returns is read off a line of the text
    below line 0: the key is a run of letters and hyphens, not empty,
    with the white space in front of it left out; the value is
    everything after the first "=" or ":", white space included. *)
Theorem parse_attributes_from_lines (text : jsstring) key value :
  (key, value) ∈ snd (parse text) →
  ∃ line, line ∈ tail (JS.split LF text)
          ∧ matches_ATTRIBUTE_RE line key value.
Proof.
  destruct (parse_cut text) as (line0 & lines & k & Hsplit & Hk & Hparse & _).
  rewrite Hparse, Hsplit. simpl. intros Hin.
  apply list_elem_of_omap in Hin as (line & Hin & Hexec).
  exists line. split; [|by apply ATTRIBUTE_RE_exec_spec].
  apply list_elem_of_lookup in Hin as (i & Hi).
  rewrite lookup_drop in Hi. by eapply list_elem_of_lookup_2.
Qed.

(** X14. A text of one line is its own message and has no attribute,
    even when the line looks like one. *)
Theorem parse_one_line (text : jsstring) :
  LF ∉ text → parse text = (text, []).
Proof.
  intros Hfree. unfold parse. by rewrite (split_free _ Hfree).
Qed.

(** X15. However often and in whichever order [getMessage] and
    [getAttributeList] are called on a description made by the
    constructor, they return the message and the attributes of [parse]
    on its text, and the text stays. *)
Theorem description_getters (this : t) (text : jsstring) :
  text_ this = text →
  (message_ this = None
   ∨ (message_ this = Some (fst (parse text))
      ∧ attributes_ this = Some (snd (parse text)))) →
  let parsed this' :=
    text_ this' = text
    ∧ message_ this' = Some (fst (parse text))
    ∧ attributes_ this' = Some (snd (parse text)) in
  fst (getMessage this) = Some (fst (parse text))
  ∧ parsed (snd (getMessage this))
  ∧ fst (getAttributeList this) = Some (snd (parse text))
  ∧ parsed (snd (getAttributeList this)).
Proof.
  intros Htext Hstate. unfold getMessage, getAttributeList, ensureParsed.
  destruct Hstate as [Hnull|(Hm & Ha)].
  - rewrite Hnull, Htext. simpl. done.
  - rewrite Hm. simpl. rewrite Hm, Ha. done.
Qed.

End DescriptionMore.

(** ** Further properties of SearchResult *)

Section SearchMore.

Context {E : Engine}.

Import Changelist.

Lemma alloc_run (o : t) w :
  ∃ this w',
    alloc o w = Ok (this, w')
    ∧ heap w !! this = None
    ∧ heap w' = <[this := o]> (heap w)
    ∧ clock w' = clock w ∧ ticks w' = ticks w.
Proof.
  eexists _, _. split; [reflexivity|]. simpl. split; [|done].
  apply not_elem_of_dom, is_fresh.
Qed.

(** Wrapping the replies allocates one object for each, at addresses
    that were free and differ from one another. *)
Lemma wrap_each host (data : list ChangeInfo) w :
  ∃ cls w',
    each (λ json, alloc (wrap host json)) data w = Ok (cls, w')
    ∧ NoDup cls
    ∧ Forall (λ l, heap w !! l = None) cls
    ∧ (∀ l o, heap w !! l = Some o → heap w' !! l = Some o)
    ∧ Forall2 (λ l json, heap w' !! l = Some (wrap host json)) cls data
    ∧ clock w' = clock w ∧ ticks w' = ticks w.
Proof.
  revert w. induction data as [|json data IH]; intros w.
  { exists [], w. split; [done|]. split; [apply NoDup_nil_2|]. done. }
  destruct (alloc_run (wrap host json) w)
    as (this & w1 & Halloc & Hfree & Hheap & Hck1 & Htk1).
  destruct (IH w1) as (cls & w' & Hrun & Hnd & Hfresh & Hext & Hall & Hck & Htk).
  exists (this :: cls), w'. cbn [each]. rewrite (bind_Ok _ _ _ _ _ Halloc).
  rewrite (bind_Ok _ _ _ _ _ Hrun). split; [done|].
  assert (heap w1 !! this = Some (wrap host json)) as Hthis
    by (rewrite Hheap; apply lookup_insert_eq).
  split.
  { apply NoDup_cons. split; [|done]. intros Hin.
    rewrite List.Forall_forall in Hfresh.
    apply list_elem_of_In, Hfresh in Hin. congruence. }
  split.
  { constructor; [done|]. eapply Forall_impl; [exact Hfresh|].
    intros l Hl. rewrite Hheap in Hl. by apply lookup_insert_None in Hl as [? _]. }
  split.
  { intros l o Hl. apply Hext. rewrite Hheap.
    rewrite lookup_insert_ne; [done|]. intros <-. congruence. }
  split; [|split; congruence].
  constructor; [by apply Hext|done].
Qed.

(** X16. [SearchResult.wrap] always returns. The result has the host and
    the user it was given and one changelist for each reply, in their
    order; the changelists are new objects, different from one another
    and from every object there was, each freshly wrapped around its
    reply; the objects there were, and the clock, are left alone. *)
Theorem wrap_makes_new_changelists host user (data : list ChangeInfo) w :
  ∃ this w',
    SearchResult.wrap host user data w = Ok (this, w')
    ∧ SearchResult.host_ this = host
    ∧ SearchResult.user_ this = user
    ∧ NoDup (SearchResult.data_ this)
    ∧ Forall (λ l, heap w !! l = None) (SearchResult.data_ this)
    ∧ Forall2 (λ l json, heap w' !! l = Some (wrap host json))
              (SearchResult.data_ this) data
    ∧ (∀ l o, heap w !! l = Some o → heap w' !! l = Some o)
    ∧ clock w' = clock w ∧ ticks w' = ticks w.
Proof.
  destruct (wrap_each host data w)
    as (cls & w' & Hrun & Hnd & Hfresh & Hext & Hall & Hck & Htk).
  exists (SearchResult.new host user cls), w'.
  unfold SearchResult.wrap. rewrite (bind_Ok _ _ _ _ _ Hrun).
  by split_and!.
Qed.

Lemma wrap_hold_all host user data w this w' :
  SearchResult.wrap host user data w = Ok (this, w') →
  hold_all w' (SearchResult.data_ this) data
  ∧ NoDup (SearchResult.data_ this)
  ∧ SearchResult.user_ this = user
  ∧ SearchResult.host_ this = host.
Proof.
  destruct (wrap_each host data w)
    as (cls & w1 & Hrun & Hnd & _ & _ & Hall & _).
  unfold SearchResult.wrap. rewrite (bind_Ok _ _ _ _ _ Hrun).
  intros [= <- <-]. simpl. split; [|done].
  eapply Forall2_impl; [exact Hall|]. intros l json Hl. simpl in Hl.
  by eapply holds_wrap.
Qed.

Lemma wrap_run host user (data : list ChangeInfo) w :
  ∃ this w',
    SearchResult.wrap host user data w = Ok (this, w')
    ∧ SearchResult.host_ this = host
    ∧ SearchResult.user_ this = user
    ∧ NoDup (SearchResult.data_ this)
    ∧ hold_all w' (SearchResult.data_ this) data
    ∧ ∀ l o, heap w !! l = Some o → heap w' !! l = Some o.
Proof.
  destruct (wrap_each host data w)
    as (cls & w' & Hrun & Hnd & _ & Hext & Hall & _).
  exists (SearchResult.new host user cls), w'.
  unfold SearchResult.wrap. rewrite (bind_Ok _ _ _ _ _ Hrun).
  split_and!; try done.
  eapply Forall2_impl; [exact Hall|]. intros l json Hl. simpl in Hl.
  by eapply holds_wrap.
Qed.

Lemma holds_functional w this json json' :
  holds w this json → holds w this json' → json = json'.
Proof. intros (o & Hl & <- & _) (o' & Hl' & <- & _). congruence. Qed.

Lemma holds_frame this w w' l json :
  only_memoises this w w' → l ≠ this → holds w l json → holds w' l json.
Proof.
  intros (_ & _ & Hframe & _) Hne (o & Hl & Hj & Hc).
  exists o. by rewrite Hframe.
Qed.

Lemma hold_all_elem w cls data cl :
  hold_all w cls data → cl ∈ cls → ∃ json, json ∈ data ∧ holds w cl json.
Proof.
  intros Hall Hin. apply list_elem_of_lookup in Hin as (i & Hi).
  destruct (Forall2_lookup_l _ _ _ _ _ Hall Hi) as (json & Hj & Hh).
  exists json. split; [|done]. by eapply list_elem_of_lookup_2.
Qed.

(** Running [getCategory] over changelists that hold their replies keeps
    them so, and returns unless a current revision is missing. *)
Lemma each_getCategory_hold_all user cls data (run : list positive) w :
  Forall (λ l, l ∈ cls) run →
  hold_all w cls data →
  match each (λ cl, getCategory cl user) run w with
  | Ok (cats, w') => hold_all w' cls data
  | TypeError => ¬ Forall has_current_revision data
  end.
Proof.
  revert w. induction run as [|cl run IH]; intros w Hrun Hall; [done|].
  inversion Hrun as [|? ? Hin Hrun']; subst.
  destruct (hold_all_elem _ _ _ _ Hall Hin) as (json & Hjson & Hh).
  cbn [each]. unfold bind at 1.
  pose proof (getCategory_run w cl json user Hh) as Hcat.
  destruct (category_at (now w) json user) as [c|] eqn:Hc.
  - destruct Hcat as (w1 & Hcat & Hh1 & _). rewrite Hcat.
    assert (hold_all w1 cls data) as Hall1.
    { eapply Forall2_impl; [exact Hall|]. intros l j Hl.
      destruct (decide (l = cl)) as [->|Hne].
      - by rewrite (holds_functional _ _ _ _ Hl Hh).
      - eapply holds_frame; [|exact Hne|exact Hl].
        by destruct (memoising_getCategory cl user _ _ _ Hcat). }
    specialize (IH w1 Hrun' Hall1). unfold bind.
    by destruct (each _ run w1) as [[cats w2]|].
  - rewrite Hcat. intros Hrev. rewrite List.Forall_forall in Hrev.
    apply list_elem_of_In, Hrev in Hjson as [revision Hr].
    unfold category_at in Hc. rewrite (get_Own _ _ _ Hr) in Hc.
    repeat (match type of Hc with
            | context [if ?b then _ else _] => destruct b
            | context [let '(_, _) := ?x in _] => destruct x
            end; try discriminate).
Qed.

Lemma first_seen_id (l : list positive) : NoDup l → first_seen l = l.
Proof.
  induction 1 as [|x l Hx Hnd IH]; simpl; [done|]. rewrite IH. f_equal.
  clear IH Hnd. induction l as [|y l IH]; simpl; [done|].
  apply not_elem_of_cons in Hx as [Hne Hx].
  destruct (Pos.eqb_spec y x) as [->|_]; [done|]. simpl. by rewrite IH.
Qed.

Lemma with_category_sublist k (data : list positive) cats :
  with_category k data cats `sublist_of` data.
Proof.
  unfold with_category. revert cats.
  induction data as [|cl data IH]; intros [|a cats]; simpl;
    try apply sublist_nil_l.
  case_bool_decide; simpl; [by apply sublist_skip|by apply sublist_cons].
Qed.

Lemma bucket_getCategoryMap (this : SearchResult.t) w m w' :
  SearchResult.getCategoryMap this w = Ok (m, w') →
  ∃ cats,
    each (λ cl, getCategory cl (SearchResult.user_ this))
         (SearchResult.data_ this) w = Ok (cats, w')
    ∧ ∀ k, bucket m k
           = first_seen (with_category k (SearchResult.data_ this) cats).
Proof.
  rewrite getCategoryMap_run.
  destruct (each _ _ w) as [[cats w1]|]; [|done]. intros [= <- <-].
  exists cats. split; [done|]. intros k.
  rewrite fold_add_changelist, fold_push_new.
  change (bucket Map.new k) with (@nil positive).
  by rewrite filter_all.
Qed.

Lemma with_category_cons_ne k cl a (ps : list (positive * Category)) :
  a ≠ k →
  map fst (List.filter (λ p, bool_decide (snd p = k)) ((cl, a) :: ps))
  = map fst (List.filter (λ p, bool_decide (snd p = k)) ps).
Proof. intros Hne. simpl. by rewrite bool_decide_eq_false_2. Qed.

Lemma concat_with_category_out ks cl a (ps : list (positive * Category)) :
  a ∉ ks →
  concat (map (λ k, map fst (List.filter (λ p, bool_decide (snd p = k))
                                         ((cl, a) :: ps))) ks)
  = concat (map (λ k, map fst (List.filter (λ p, bool_decide (snd p = k)) ps))
                ks).
Proof.
  induction ks as [|k ks IH]; intros Ha; [done|].
  apply not_elem_of_cons in Ha as [Hne Ha]. cbn [map concat].
  by rewrite with_category_cons_ne, IH.
Qed.

Lemma concat_with_category_in ks cl a (ps : list (positive * Category)) :
  NoDup ks → a ∈ ks →
  concat (map (λ k, map fst (List.filter (λ p, bool_decide (snd p = k))
                                         ((cl, a) :: ps))) ks)
  ≡ₚ cl :: concat (map (λ k, map fst (List.filter
                                         (λ p, bool_decide (snd p = k)) ps))
                       ks).
Proof.
  induction 1 as [|k ks Hk Hks IH]; intros Ha; [by apply elem_of_nil in Ha|].
  cbn [map concat]. destruct (decide (a = k)) as [->|Hne].
  - rewrite (concat_with_category_out _ _ _ _ Hk). simpl.
    by rewrite bool_decide_eq_true_2.
  - apply elem_of_cons in Ha as [?|Ha]; [done|].
    rewrite with_category_cons_ne by done. rewrite (IH Ha).
    by rewrite Permutation_middle.
Qed.

Lemma concat_with_category (ks : list Category) (ps : list (positive * Category)) :
  NoDup ks →
  concat (map (λ k, map fst (List.filter (λ p, bool_decide (snd p = k)) ps)) ks)
  ≡ₚ map fst (List.filter (λ p, bool_decide (snd p ∈ ks)) ps).
Proof.
  intros Hks. induction ps as [|[cl a] ps IH].
  - simpl. clear Hks. induction ks as [|k ks IHk]; simpl; [done|exact IHk].
  - destruct (decide (a ∈ ks)) as [Ha|Ha].
    + rewrite (concat_with_category_in _ _ _ _ Hks Ha), IH. simpl.
      by rewrite bool_decide_eq_true_2.
    + rewrite (concat_with_category_out _ _ _ _ Ha), IH. simpl.
      by rewrite bool_decide_eq_false_2.
Qed.

Lemma all_categories_spec :
  NoDup all_categories ∧ ∀ k, k ∈ all_categories.
Proof.
  split.
  - by apply (bool_decide_unpack _).
  - intros []; by apply (bool_decide_unpack _).
Qed.

Lemma concat_buckets (m : Map.t (list positive)) (data : list positive) cats :
  (∀ k, bucket m k = first_seen (with_category k data cats)) →
  NoDup data →
  length cats = length data →
  concat (map (bucket m) all_categories) ≡ₚ data.
Proof.
  intros Hbucket Hnd Hlen.
  destruct all_categories_spec as [Hall_nd Hall].
  erewrite map_ext_in.
  2:{ intros k _. rewrite Hbucket. apply first_seen_id.
      eapply sublist_NoDup; [exact Hnd|]. apply with_category_sublist. }
  unfold with_category. rewrite (concat_with_category _ _ Hall_nd).
  rewrite filter_all by (intros p; by apply bool_decide_eq_true_2).
  by rewrite fst_zip by lia.
Qed.

(** X17. When the changelists of a result are different objects, the map
    of [getCategoryMap] holds every one of them in one bucket and once:
    the buckets of the seven categories together are the changelists of
    the result, none lost and none doubled. *)
Theorem getCategoryMap_partitions (this : SearchResult.t) w m w' :
  NoDup (SearchResult.data_ this) →
  SearchResult.getCategoryMap this w = Ok (m, w') →
  concat (map (bucket m) all_categories) ≡ₚ SearchResult.data_ this.
Proof.
  intros Hnd Hrun.
  destruct (bucket_getCategoryMap _ _ _ _ Hrun) as (cats & Heach & Hbucket).
  apply (concat_buckets _ _ cats); [done|done|].
  by rewrite (each_length _ _ _ _ _ Heach).
Qed.

(** X18. A result wrapped from replies that all have their current
    revision can be categorised: [getCategoryMap] returns, and its
    buckets together hold one entry for each reply, also when two
    replies are equal, as each reply has got an object of its own. *)
Theorem wrapped_result_is_categorised host user data w this w1 :
  SearchResult.wrap host user data w = Ok (this, w1) →
  Forall has_current_revision data →
  ∃ m w2,
    SearchResult.getCategoryMap this w1 = Ok (m, w2)
    ∧ concat (map (bucket m) all_categories) ≡ₚ SearchResult.data_ this
    ∧ length (concat (map (bucket m) all_categories)) = length data.
Proof.
  intros Hwrap Hrev.
  destruct (wrap_hold_all _ _ _ _ _ _ Hwrap) as (Hall & Hnd & _).
  pose proof (each_getCategory_hold_all (SearchResult.user_ this)
                (SearchResult.data_ this) data
                (SearchResult.data_ this) w1) as Heach.
  destruct (SearchResult.getCategoryMap this w1) as [[m w2]|] eqn:Hmap.
  2:{ rewrite getCategoryMap_run in Hmap.
      destruct (each _ _ w1) as [[cats w2]|]; [done|].
      destruct Heach; [|done|done].
      apply List.Forall_forall. intros l. apply list_elem_of_In. }
  exists m, w2. split; [done|].
  destruct (bucket_getCategoryMap _ _ _ _ Hmap) as (cats & Hcats & Hbucket).
  assert (concat (map (bucket m) all_categories) ≡ₚ SearchResult.data_ this)
    as Hperm.
  { apply (concat_buckets _ _ cats); [done|done|].
    by rewrite (each_length _ _ _ _ _ Hcats). }
  split; [done|]. rewrite Hperm. by apply Forall2_length in Hall.
Qed.

(** X19. The changelists of a wrapped result give back, through
    [toJSON], the replies they were wrapped from, in their order, and
    still do after [getCategoryMap] has run: what is memoised is not part
    of what is saved. *)
Theorem wrapped_result_toJSON host user data w this w1 :
  SearchResult.wrap host user data w = Ok (this, w1) →
  fst (fst (SearchResult.toJSON this)) = host
  ∧ snd (fst (SearchResult.toJSON this)) = user
  ∧ each toJSON (snd (SearchResult.toJSON this)) w1 = Ok (data, w1)
  ∧ ∀ m w2, SearchResult.getCategoryMap this w1 = Ok (m, w2)
            → each toJSON (snd (SearchResult.toJSON this)) w2
              = Ok (data, w2).
Proof.
  intros Hwrap.
  destruct (wrap_hold_all _ _ _ _ _ _ Hwrap) as (Hall & Hnd & Huser & Hhost).
  assert (∀ w cls d, hold_all w cls d → each toJSON cls w = Ok (d, w))
    as Hsave.
  { intros w' cls d Hall'. induction Hall' as [|cl json cls d' Hh _ IH];
      [done|].
    cbn [each]. destruct Hh as (o & Hl & Hj & _).
    unfold bind at 1. unfold toJSON at 1. unfold bind, deref, ret.
    rewrite Hl, IH. by rewrite Hj. }
  split; [done|]. split; [done|]. split; [by apply Hsave|].
  intros m w2 Hmap. apply Hsave.
  pose proof (each_getCategory_hold_all (SearchResult.user_ this)
                (SearchResult.data_ this) data
                (SearchResult.data_ this) w1) as Heach.
  rewrite getCategoryMap_run in Hmap.
  destruct (each _ _ w1) as [[cats w2']|]; [|done].
  injection Hmap as _ <-. apply Heach; [|done].
  apply List.Forall_forall. intros l. apply list_elem_of_In.
Qed.

End SearchMore.

(** ** The requests *)

Section Requests.

Context {V : Type} {J : JSON V} {C : Config}.

Lemma take_MAGIC (reply : jsstring) :
  take 5 reply = MAGIC ↔ ∃ body, reply = MAGIC ++ body.
Proof.
  split.
  - intros Htake. exists (drop 5 reply).
    by rewrite <- Htake, take_drop.
  - intros (body & ->). done.
Qed.

Lemma parseJSON_frame (reply : jsstring) v :
  parseJSON reply = Resolved v
  → ∃ body, reply = MAGIC ++ body ∧ JSON_parse body = Some v.
Proof.
  unfold parseJSON, JS.str_eq. case_bool_decide as Hh; [|done].
  apply take_MAGIC in Hh as (body & ->).
  change (drop 5 (MAGIC ++ body)) with body.
  destruct (JSON_parse body) as [v'|] eqn:Hp; [|done].
  intros [= <-]. by exists body.
Qed.

Lemma parseJSON_framed (body : jsstring) :
  parseJSON (MAGIC ++ body)
  = match JSON_parse body with
    | Some v => Resolved v
    | None => Rejected SyntaxError
    end.
Proof. unfold parseJSON, JS.str_eq. by rewrite bool_decide_eq_true_2. Qed.

(** X20. [parseJSON] resolves exactly on a reply that is the five code
    units of the prefix followed by a text [JSON.parse] accepts, with the
    value of that text; a reply that does not start with the prefix, a
    shorter one included, is rejected with an error that quotes its
    first five code units. *)
Theorem parseJSON_accepts_prefixed (reply : jsstring) :
  (∀ v, parseJSON reply = Resolved v
        ↔ ∃ body, reply = MAGIC ++ body ∧ JSON_parse body = Some v)
  ∧ (¬ MAGIC `prefix_of` reply
     → parseJSON reply
       = Rejected (Error (lit "Unexpected reply from Gerrit server: "
                          ++ take 5 reply ++ lit "..."))).
Proof.
  unfold parseJSON, JS.str_eq. split.
  - intros v. case_bool_decide as Hh.
    + apply take_MAGIC in Hh as (body & ->).
      change (drop 5 (MAGIC ++ body)) with body.
      destruct (JSON_parse body) as [v'|] eqn:Hp; split.
      * intros [= <-]. by exists body.
      * intros (body' & Heq & Hp'). apply app_inv_head in Heq as <-.
        congruence.
      * done.
      * intros (body' & Heq & Hp'). apply app_inv_head in Heq as <-.
        congruence.
    + split; [done|]. intros (body & -> & _). by destruct Hh.
  - intros Hpre. rewrite bool_decide_eq_false_2; [done|].
    intros Hh. apply Hpre, take_MAGIC, Hh.
Qed.

Lemma sendRequest_cases host path params n :
  ∃ p n',
    sendRequest host path params n = Ok (p, n')
    ∧ fetchUrl_answer n' = fetchUrl_answer n
    ∧ fetch_answer n' = fetch_answer n
    ∧ ((∃ reply, first_answer host path params n = Resolved reply
                 ∧ p = Resolved reply
                 ∧ fetchUrl_calls n' = fetchUrl_calls n ++ [(host ++ path, params)]
                 ∧ fetch_calls n' = fetch_calls n)
       ∨ (∃ error, first_answer host path params n = Rejected error
                   ∧ not_login_error error = true
                   ∧ p = Rejected error
                   ∧ fetchUrl_calls n' = fetchUrl_calls n ++ [(host ++ path, params)]
                   ∧ fetch_calls n' = fetch_calls n)
       ∨ (∃ error e, first_answer host path params n = Rejected error
                     ∧ not_login_error error = false
                     ∧ refresh_answer host n = Rejected e
                     ∧ p = Rejected error
                     ∧ fetchUrl_calls n' = fetchUrl_calls n ++ [(host ++ path, params)]
                     ∧ fetch_calls n' = fetch_calls n ++ [host])
       ∨ (∃ error u, first_answer host path params n = Rejected error
                     ∧ not_login_error error = false
                     ∧ refresh_answer host n = Resolved u
                     ∧ p = match second_answer host path params n with
                           | Resolved reply => Resolved reply
                           | Rejected _ => Rejected error
                           end
                     ∧ fetchUrl_calls n' = fetchUrl_calls n
                                           ++ [(host ++ path, params);
                                               (host ++ path, params)]
                     ∧ fetch_calls n' = fetch_calls n ++ [host])).
Proof.
  pose (n1 := mkNet (fetchUrl_answer n) (fetch_answer n)
                    (fetchUrl_calls n ++ [(host ++ path, params)])
                    (fetch_calls n)).
  assert (fetchUrl (host ++ path) params n
          = Ok (first_answer host path params n, n1)) as H1 by reflexivity.
  unfold sendRequest. rewrite (bind_Ok _ _ _ _ _ H1).
  destruct (first_answer host path params n) as [reply|error].
  { exists (Resolved reply), n1. split_and!; try done. left. by exists reply. }
  destruct (not_login_error error) eqn:Hlogin.
  { exists (Rejected error), n1. split_and!; try done.
    right. left. by exists error. }
  pose (n2 := mkNet (fetchUrl_answer n) (fetch_answer n)
                    (fetchUrl_calls n ++ [(host ++ path, params)])
                    (fetch_calls n ++ [host])).
  assert (fetch_no_cors host n1 = Ok (refresh_answer host n, n2))
    as H2 by reflexivity.
  rewrite (bind_Ok _ _ _ _ _ H2).
  destruct (refresh_answer host n) as [u|e].
  2:{ exists (Rejected error), n2. split_and!; try done.
      right. right. left. by exists error, e. }
  pose (n3 := mkNet (fetchUrl_answer n) (fetch_answer n)
                    ((fetchUrl_calls n ++ [(host ++ path, params)])
                     ++ [(host ++ path, params)])
                    (fetch_calls n ++ [host])).
  assert (fetchUrl (host ++ path) params n2
          = Ok (second_answer host path params n, n3)) as H3.
  { unfold fetchUrl, second_answer, n2, n3. simpl.
    by rewrite length_app, Nat.add_1_r. }
  rewrite (bind_Ok _ _ _ _ _ H3).
  exists (match second_answer host path params n with
          | Resolved reply => Resolved reply
          | Rejected _ => Rejected error
          end), n3.
  split; [by destruct (second_answer host path params n)|].
  split_and!; try done. right. right. right. exists error, u.
  split_and!; try done. unfold n3. simpl. by rewrite <- app_assoc.
Qed.

Lemma not_login_error_false (error : Rejection) :
  not_login_error error = false
  ↔ ∃ message, error = FetchError true message.
Proof.
  destruct error as [[|] message| | |]; simpl; split; try done.
  - intros _. by exists message.
  - by intros (? & ?).
  - by intros (? & ?).
  - by intros (? & ?).
  - by intros (? & ?).
Qed.

(** X21. A request that fails fails with the error of its first
    attempt: neither the refreshing of the cookies nor the second
    attempt replaces it by an error of their own. *)
Theorem sendRequest_keeps_first_error host path params n e n' :
  sendRequest host path params n = Ok (Rejected e, n') →
  first_answer host path params n = Rejected e.
Proof.
  intros Hrun.
  destruct (sendRequest_cases host path params n)
    as (p & n1 & Hrun' & _ & _ & Hcases).
  rewrite Hrun in Hrun'. injection Hrun' as <- <-.
  destruct Hcases as [(reply & _ & ? & _)
                     |[(error & Hf & _ & Hp & _)
                      |[(error & e' & Hf & _ & _ & Hp & _)
                       |(error & u & Hf & _ & _ & Hp & _)]]].
  - done.
  - by injection Hp as ->.
  - by injection Hp as ->.
  - destruct (second_answer host path params n); [done|].
    by injection Hp as ->.
Qed.

(** X22. A request always settles, and it succeeds in two cases only:
    the first attempt is answered, or the first attempt fails with a
    login error, the refreshing [fetch] succeeds and the second attempt
    is answered; the reply is the answer of that attempt. *)
Theorem sendRequest_resolves_iff host path params n :
  ∃ p n',
    sendRequest host path params n = Ok (p, n')
    ∧ ∀ reply,
        p = Resolved reply
        ↔ first_answer host path params n = Resolved reply
          ∨ (login_error (first_answer host path params n)
             ∧ (∃ u, refresh_answer host n = Resolved u)
             ∧ second_answer host path params n = Resolved reply).
Proof.
  destruct (sendRequest_cases host path params n)
    as (p & n' & Hrun & _ & _ & Hcases).
  exists p, n'. split; [done|]. intros reply.
  destruct Hcases as [(r & Hf & -> & _)
                     |[(error & Hf & Hl & -> & _)
                      |[(error & e' & Hf & Hl & Hr & -> & _)
                       |(error & u & Hf & Hl & Hr & -> & _)]]];
    rewrite Hf.
  - split; [intros [= ->]; by left|].
    intros [[= ->]|((? & ?) & _)]; done.
  - split; [done|]. intros [?|((m & [= ->]) & _)]; done.
  - split; [done|]. intros [?|(_ & (u & Hu) & _)]; [done|]. congruence.
  - apply not_login_error_false in Hl as (m & ->).
    destruct (second_answer host path params n) as [r|e] eqn:Hs.
    + split.
      * intros [= ->]. right. split; [by exists m|]. split; [by exists u|done].
      * intros [?|(_ & _ & [= ->])]; done.
    + split; [done|]. intros [?|(_ & _ & ?)]; done.
Qed.

(** X23. A request goes to the network once or twice, with the same
    address and parameters, and refreshes the cookies at most once; a
    second attempt and a refreshing are only made after a login error. *)
Theorem sendRequest_calls host path params n p n' :
  sendRequest host path params n = Ok (p, n') →
  ∃ k, (k = 1 ∨ k = 2)%nat
       ∧ fetchUrl_calls n'
         = fetchUrl_calls n ++ replicate k (host ++ path, params)
       ∧ (fetch_calls n' = fetch_calls n
          ∨ fetch_calls n' = fetch_calls n ++ [host])
       ∧ (k = 2%nat ∨ fetch_calls n' ≠ fetch_calls n
          → login_error (first_answer host path params n)).
Proof.
  intros Hrun.
  destruct (sendRequest_cases host path params n)
    as (p1 & n1 & Hrun' & _ & _ & Hcases).
  rewrite Hrun in Hrun'. injection Hrun' as <- <-.
  destruct Hcases as [(r & Hf & _ & Hc & Hr)
                     |[(error & Hf & Hl & _ & Hc & Hr)
                      |[(error & e' & Hf & Hl & _ & _ & Hc & Hr)
                       |(error & u & Hf & Hl & _ & _ & Hc & Hr)]]].
  - exists 1%nat. split_and!; [by left|done|by left|].
    intros [?|?]; [lia|done].
  - exists 1%nat. split_and!; [by left|done|by left|].
    intros [?|?]; [lia|done].
  - exists 1%nat. split_and!; [by left|done|by right|].
    intros _. apply not_login_error_false in Hl as (m & ->). by exists m.
  - exists 2%nat. split_and!; [by right|done|by right|].
    intros _. apply not_login_error_false in Hl as (m & ->). by exists m.
Qed.

(** X24. [fetchAccount] turns an answer without the prefix into the
    error that asks to log in, so the error [parseJSON] has for such a
    reply never comes out of it; an answer with the prefix is parsed. *)
Theorem fetchAccount_answer host n response n' :
  sendRequest host (lit "/accounts/self") None n = Ok (Resolved response, n') →
  ∃ p, fetchAccount host n = Ok (p, n')
       ∧ (unframed response
          → p = Rejected (Error (lit "Cannot fetch account." ++ LOGIN_PROMPT)))
       ∧ (∀ body, response = MAGIC ++ body
                  → p = match JSON_parse body with
                        | Some v => Resolved v
                        | None => Rejected SyntaxError
                        end)
       ∧ ∀ message,
           p ≠ Rejected (Error (lit "Unexpected reply from Gerrit server: "
                                ++ message)).
Proof.
  intros Hsent. unfold fetchAccount. rewrite (bind_Ok _ _ _ _ _ Hsent).
  eexists. split; [reflexivity|]. cbn [then_]. unfold JS.str_eq.
  case_bool_decide as Hh; cbn [negb then_].
  - apply take_MAGIC in Hh as (body & ->).
    assert (parseJSON (MAGIC ++ body)
            = match JSON_parse body with
              | Some v => Resolved v
              | None => Rejected SyntaxError
              end) as ->.
    { unfold parseJSON, JS.str_eq. by rewrite bool_decide_eq_true_2. }
    split_and!.
    + intros Hun. destruct Hun. by exists body.
    + intros body' Heq. by apply app_inv_head in Heq as <-.
    + intros message. by destruct (JSON_parse body).
  - split_and!.
    + done.
    + intros body ->. by destruct Hh.
    + intros message Heq.
      apply (f_equal (λ p, match p with
                           | Rejected (Error m) => take 1 m
                           | _ => []
                           end)) in Heq.
      by vm_compute in Heq.
Qed.

End Requests.

Section Reviews.

Context {J : JSON Results} {N : Numbers}.

Import Changelist.


End Reviews.
(** ** The further properties on examples *)

Section OnMoreExamples.

Import Changelist Examples MoreExamples.

(** Witness of X1: Bob asks for the category of Alice's change. *)
Lemma getCategory_only_memoises_witness :
  ∃ c w',
    getCategory (E := engine) 1 bob (world owner_wrote_last clock)
    = Ok (c, w')
    ∧ only_memoises 1 (world owner_wrote_last clock) w'
    ∧ (ticks w' ≤ S (ticks (world owner_wrote_last clock)))%nat
    ∧ (¬ is_owner owner_wrote_last bob
       → ticks w' = ticks (world owner_wrote_last clock)).
Proof.
  destruct (getCategory (E := engine) 1 bob (world owner_wrote_last clock))
    as [[c w']|] eqn:Hrun; [|by vm_compute in Hrun].
  exists c, w'. split; [done|].
  apply (getCategory_only_memoises (E := engine) _ 1
           (wrap example_host owner_wrote_last) bob c w').
  - apply lookup_singleton_eq.
  - exact Hrun.
Defined.


(** A name that every object inherits is no missing revision: the
    value found has no number, no marker is for it, and the messages
    decide. *)
Example inherited_revision_has_no_number :
  JS.get (revisions named_constructor) (current_revision named_constructor)
  = JS.Inherited
  ∧ outcome (getCategory (E := engine) 1 bob (world named_constructor clock))
    = Ok INCOMING_NEEDS_ATTENTION.
Proof. by vm_compute. Qed.

(** From 2^53 on [parseInt] rounds what it reads: the star for patch
    set 9007199254740993 is one for patch set 9007199254740992, and of
    the stars for 9007199254740995 and 9007199254740996, which read the
    same, the first decides. *)
Example star_number_is_rounded :
  JS.parseInt (lit "9007199254740993") = JS.Num 9007199254740992
  ∧ JS.parseInt (lit "9007199254740995") = JS.Num 9007199254740996
  ∧ outcome (getCategory (E := engine) 1 bob
               (world (change_at 9007199254740992 [] [message_of alice]
                         [lit "reviewed/9007199254740993"]) clock))
    = Ok NONE
  ∧ outcome (getCategory (E := engine) 1 bob
               (world (change_at 9007199254740996 []
                         [message_of alice; message_of bob]
                         [lit "unreviewed/9007199254740995";
                          lit "reviewed/9007199254740996"]) clock))
    = Ok INCOMING_NEEDS_ATTENTION.
Proof. by vm_compute. Qed.

(** Witness of X4: Alice asks for the category of her change in
    review. *)
Lemma owner_never_incoming_witness :
  ∃ c w',
    getCategory (E := engine) 1 alice (world in_review clock) = Ok (c, w')
    ∧ c ≠ INCOMING_NEEDS_ATTENTION.
Proof.
  destruct (getCategory (E := engine) 1 alice (world in_review clock))
    as [[c w']|] eqn:Hrun; [|by vm_compute in Hrun].
  exists c, w'. split; [done|].
  apply (owner_never_incoming (E := engine) (world in_review clock) 1
           (wrap example_host in_review) alice c w').
  - apply lookup_singleton_eq.
  - reflexivity.
  - exact Hrun.
Defined.

(** Witness of X5: stale two days after the message, and three days
    after it. *)
Lemma isStale_stays_stale_witness :
  ∃ w2', isStale (E := engine) 1 (world in_review three_days_after)
         = Ok (true, w2').
Proof.
  destruct (isStale (E := engine) 1 (world in_review two_days_after))
    as [[b w1']|] eqn:Hrun; [|by vm_compute in Hrun].
  assert (b = true) as ->.
  { pose proof Hrun as Hb. vm_compute in Hb. by injection Hb as <- _. }
  apply (isStale_stays_stale (E := engine) in_review
           (world in_review two_days_after) 1 w1'
           (world in_review three_days_after) 1).
  - apply holds_world.
  - apply holds_world.
  - by vm_compute.
  - exact Hrun.
Defined.

(** Witness of X6: Bob has voted +1. *)
Lemma hasReviewed_positive_vote_witness :
  ∃ b, hasReviewed 1 bob (world voted_and_starred clock)
       = Ok (b, world voted_and_starred clock)
       ∧ (b = true ↔ voted_positive voted_and_starred bob)
       ∧ (code_review_all voted_and_starred = [] → b = false).
Proof.
  apply (hasReviewed_positive_vote _ 1
           (wrap example_host voted_and_starred) bob).
  apply lookup_singleton_eq.
Defined.

(** Witness of X7, on the change in review. *)
Lemma getReviewers_excludes_owner_witness :
  ∃ rs w',
    getReviewers 1 (world in_review clock) = Ok (rs, w')
    ∧ rs `sublist_of` code_review_all in_review
    ∧ ∀ r, r ∈ rs ↔ r ∈ code_review_all in_review ∧ is_reviewer in_review r.
Proof.
  apply (getReviewers_excludes_owner _ 1 in_review).
  apply holds_world.
Defined.

(** Witness of X8: Alice has voted +1 on her own change. *)
Lemma own_vote_is_no_review_witness :
  ∃ w', getCategory (E := engine) 1 alice (world own_vote clock)
        = Ok (NO_REVIEWERS, w').
Proof.
  apply (own_vote_is_no_review (E := engine) _ 1 own_vote alice).
  - apply holds_world.
  - reflexivity.
  - by intros [? _].
  - done.
  - unfold own_vote. rewrite code_review_all_change.
    constructor; [|constructor].
    intros (id & Hid & _ & Hne). injection Hid as <-. by apply Hne.
Defined.

(** Witness of X9: Bob has neither voted nor written, and his star is
    for patch set 2, not for the current patch set 3. *)
Lemma silent_user_is_asked_witness :
  ∃ w', getCategory (E := engine) 1 bob (world unanswered clock)
        = Ok (INCOMING_NEEDS_ATTENTION, w').
Proof.
  apply (silent_user_is_asked (E := engine) _ 1 unanswered bob
           {| _number := 3 |}).
  - apply holds_world.
  - by apply bob_is_not_alice.
  - apply nobody_voted.
  - apply revision_of_change.
  - assert (markers (star_labels_of unanswered) = [(true, 2)]) as Hm
      by (by vm_compute).
    unfold no_marker_for. rewrite Hm. by repeat constructor.
  - by repeat constructor.
Defined.

(** Witness of X10: the star "ignore" besides a marker. *)
Lemma other_stars_have_no_say_witness :
  outcome (getCategory (E := engine) 1 bob (world ignored clock))
  = outcome (getCategory (E := engine) 1 bob
               (world (with_stars ignored (Some [lit "unreviewed/3"])) clock)).
Proof.
  apply (other_stars_have_no_say (E := engine) ignored bob
           (world ignored clock) 1
           (world (with_stars ignored (Some [lit "unreviewed/3"])) clock) 1).
  - apply holds_world.
  - apply holds_world.
  - reflexivity.
Defined.

(** Witness of X13: the attribute "Bug" of the description. *)
Lemma parse_attributes_from_lines_witness :
  ∃ line, line ∈ tail (JS.split LF description)
          ∧ matches_ATTRIBUTE_RE line (lit "Bug") (lit " 123").
Proof.
  apply (parse_attributes_from_lines description).
  apply list_elem_of_In. vm_compute. by left.
Defined.

(** Witness of X14: one line that looks like an attribute. *)
Lemma parse_one_line_witness :
  Description.parse (lit "Bug: 123") = (lit "Bug: 123", []).
Proof.
  apply (parse_one_line (lit "Bug: 123")).
  intros Hin%list_elem_of_In. vm_compute in Hin. by intuition.
Defined.

(** Witness of X15, on the description as the constructor leaves it. *)
Lemma description_getters_witness :
  let this := Description.new description in
  let parsed this' :=
    Description.text_ this' = description
    ∧ Description.message_ this'
      = Some (fst (Description.parse description))
    ∧ Description.attributes_ this'
      = Some (snd (Description.parse description)) in
  fst (Description.getMessage this)
  = Some (fst (Description.parse description))
  ∧ parsed (snd (Description.getMessage this))
  ∧ fst (Description.getAttributeList this)
    = Some (snd (Description.parse description))
  ∧ parsed (snd (Description.getAttributeList this)).
Proof.
  apply (description_getters (Description.new description)
           description).
  - reflexivity.
  - by left.
Defined.

(** Witness of X17: a result with one changelist. *)
Lemma getCategoryMap_partitions_witness :
  ∃ m w',
    SearchResult.getCategoryMap (E := engine)
      (SearchResult.new example_host bob [1%positive])
      (world owner_wrote_last clock) = Ok (m, w')
    ∧ concat (map (bucket m) all_categories) ≡ₚ [1%positive].
Proof.
  destruct (SearchResult.getCategoryMap (E := engine)
              (SearchResult.new example_host bob [1%positive])
              (world owner_wrote_last clock))
    as [[m w']|] eqn:Hrun; [|by vm_compute in Hrun].
  exists m, w'. split; [done|].
  apply (getCategoryMap_partitions (E := engine)
           (SearchResult.new example_host bob [1%positive])
           (world owner_wrote_last clock) m w').
  - apply NoDup_singleton.
  - exact Hrun.
Defined.

(** Witness of X18: a result wrapped from two equal replies. *)
Lemma wrapped_result_is_categorised_witness :
  ∃ this w1 m w2,
    SearchResult.wrap example_host bob [owner_wrote_last; owner_wrote_last]
      (world in_review clock) = Ok (this, w1)
    ∧ SearchResult.getCategoryMap (E := engine) this w1 = Ok (m, w2)
    ∧ concat (map (bucket m) all_categories) ≡ₚ SearchResult.data_ this
    ∧ length (concat (map (bucket m) all_categories)) = 2%nat.
Proof.
  destruct (SearchResult.wrap example_host bob
              [owner_wrote_last; owner_wrote_last] (world in_review clock))
    as [[this w1]|] eqn:Hwrap; [|by vm_compute in Hwrap].
  destruct (wrapped_result_is_categorised (E := engine) example_host bob
              [owner_wrote_last; owner_wrote_last] (world in_review clock)
              this w1 Hwrap) as (m & w2 & Hrun & Hperm & Hlen).
  - repeat constructor; eexists; apply revision_of_change.
  - by exists this, w1, m, w2.
Defined.

(** Witness of X19, on the same result. *)
Lemma wrapped_result_toJSON_witness :
  ∃ this w1,
    SearchResult.wrap example_host bob [owner_wrote_last; in_review]
      (world in_review clock) = Ok (this, w1)
    ∧ fst (fst (SearchResult.toJSON this)) = example_host
    ∧ snd (fst (SearchResult.toJSON this)) = bob
    ∧ each toJSON (snd (SearchResult.toJSON this)) w1
      = Ok ([owner_wrote_last; in_review], w1)
    ∧ ∀ m w2, SearchResult.getCategoryMap (E := engine) this w1 = Ok (m, w2)
              → each toJSON (snd (SearchResult.toJSON this)) w2
                = Ok ([owner_wrote_last; in_review], w2).
Proof.
  destruct (SearchResult.wrap example_host bob [owner_wrote_last; in_review]
              (world in_review clock))
    as [[this w1]|] eqn:Hwrap; [|by vm_compute in Hwrap].
  exists this, w1. split; [done|].
  apply (wrapped_result_toJSON (E := engine) example_host bob
           [owner_wrote_last; in_review] (world in_review clock) this w1).
  exact Hwrap.
Defined.

(** Witness of X21: the session has expired and the second attempt
    fails with another error; the request fails with the login error. *)
Lemma sendRequest_keeps_first_error_witness :
  first_answer example_host (lit "/changes/") None expired
  = Rejected (FetchError true (lit "login")).
Proof.
  destruct (sendRequest example_host (lit "/changes/") None expired)
    as [[p n']|] eqn:Hrun; [|by vm_compute in Hrun].
  assert (p = Rejected (FetchError true (lit "login"))) as ->.
  { pose proof Hrun as Hp. vm_compute in Hp. by injection Hp as <- _. }
  apply (sendRequest_keeps_first_error example_host (lit "/changes/") None
           expired _ n').
  exact Hrun.
Defined.

(** Witness of X23, on the same request. *)
Lemma sendRequest_calls_witness :
  ∃ p n',
    sendRequest example_host (lit "/changes/") None expired = Ok (p, n')
    ∧ ∃ k, (k = 1 ∨ k = 2)%nat
           ∧ fetchUrl_calls n'
             = fetchUrl_calls expired
               ++ replicate k (example_host ++ lit "/changes/", None)
           ∧ (fetch_calls n' = fetch_calls expired
              ∨ fetch_calls n' = fetch_calls expired ++ [example_host])
           ∧ (k = 2%nat ∨ fetch_calls n' ≠ fetch_calls expired
              → login_error (first_answer example_host (lit "/changes/")
                               None expired)).
Proof.
  destruct (sendRequest example_host (lit "/changes/") None expired)
    as [[p n']|] eqn:Hrun; [|by vm_compute in Hrun].
  exists p, n'. split; [done|].
  apply (sendRequest_calls example_host (lit "/changes/") None expired p n').
  exact Hrun.
Defined.

(** Witness of X24: the server answers with a page to log in. *)
Lemma fetchAccount_answer_witness :
  ∃ n' p,
    fetchAccount (H := json_account) (H0 := config) example_host login_page
    = Ok (p, n')
    ∧ (unframed (lit "<html>")
       → p = Rejected (Error (lit "Cannot fetch account."
                              ++ LOGIN_PROMPT (Config := config))))
    ∧ (∀ body, lit "<html>" = MAGIC ++ body
               → p = match JSON_parse (JSON := json_account) body with
                     | Some v => Resolved v
                     | None => Rejected SyntaxError
                     end)
    ∧ ∀ message,
        p ≠ Rejected (Error (lit "Unexpected reply from Gerrit server: "
                             ++ message)).
Proof.
  destruct (sendRequest example_host (lit "/accounts/self") None login_page)
    as [[sent n']|] eqn:Hrun; [|by vm_compute in Hrun].
  assert (sent = Resolved (lit "<html>")) as ->.
  { pose proof Hrun as Hs. vm_compute in Hs. by injection Hs as <- _. }
  exists n'.
  apply (fetchAccount_answer (J := json_account) (C := config) example_host
           login_page (lit "<html>") n').
  exact Hrun.
Defined.

End OnMoreExamples.
